(** * Verification of the two agent cores of the TCG repository

    - [Tuple]: the n-tuple network player of project2/agent.h
      ([tuple_player]: feature indexing, evaluation, 2-ply move
      selection, TD training over a recorded episode).
    - [MCTS]: the Monte Carlo tree search player of
      project3/pj-3-code-v1/agent.h ([mcts_player]: UCB1 selection,
      expansion, rollout, backpropagation, the search loop).
    - [Agent]: the class [agent] of both files (arguments, properties),
      [init_weights] and the constructor of [mcts_player].

    [Tuple] also holds the other players of project2/agent.h
    ([random_slider], [my_player], [random_placer]), and [MCTS] the
    random [player] of project3 and [deletenode].

    board.h, action.h and weight.h are not part of the sources; what the
    agents use of them (cell accessor, slide, place, the action
    constructors) is taken as a parameter, through the classes [Board],
    [Slider], [Placer], [Engine] and [Clock] below.

    Conventions.  A vector indexed by position is a list or a function of
    the index; a [node*] is the position of the node in the list of the
    nodes allocated so far.  A loop whose end the text does not bound
    ([while(1)], [while(!current->isleaf)], [while(current!=nullptr)])
    takes a bound on its turns and returns [None] when the bound is
    reached; the theorems give the bound that is never reached.  The
    counters [wi], [si] and [simulation_count] are integers that do not
    overflow. *)

From Stdlib Require Import ZArith QArith Qabs Reals List Lia Psatz Bool
  Permutation.
From Stdlib Require String Ascii DecimalString DecimalN DecimalPos.
Import String.StringSyntax.
Import ListNotations.

(** ** Numbers

    [int] is a 32-bit two's complement integer.  In [Tuple], [float]
    values are read as exact rationals; in [MCTS], [double] values are
    read as exact reals and the narrowing of a [double] to [float] is a
    rounding function taken as a parameter. *)

Definition int_wrap (z : Z) : Z := ((z + 2 ^ 31) mod 2 ^ 32 - 2 ^ 31)%Z.

Definition Qlt_bool (x y : Q) : bool := negb (Qle_bool y x).

Definition Z_range (n : nat) : list Z := map Z.of_nat (seq 0 n).

Module Tuple.

Local Open Scope Z_scope.

(** [int network_index[64][6]], row by row as in the initializer.  Row 26
    lists five cells only; aggregate initialization fills the rest of a
    row with 0, which [pattern_cell] reproduces. *)
Definition network_index : list (list Z) :=
  [ [0;1;2;4;5;6]; [2;3;6;7;10;11]; [9;10;11;13;14;15]; [4;5;8;9;12;13];
    [8;9;10;12;13;14]; [0;1;4;5;8;9]; [1;2;3;5;6;7]; [6;7;10;11;14;15];

    [1;2;5;6;9;13]; [4;5;6;7;10;11]; [2;6;10;14;13;9]; [4;5;8;9;10;11];
    [1;2;5;6;10;14]; [6;7;8;9;10;11]; [1;5;9;10;13;14]; [4;5;6;7;8;9];

    [0;1;2;3;4;5]; [2;6;3;7;11;15]; [12;13;14;15;10;11]; [0;4;8;12;9;13];
    [8;9;12;13;14;15]; [0;1;4;5;8;12]; [0;1;2;3;6;7]; [3;7;10;11;14;15];

    [0;1;6;7;8;11]; [3;7;6;9;10;14]; [5;8;9;10;15]; [1;5;6;8;9;12];
    [6;9;10;11;12;13]; [0;4;5;9;10;13]; [2;3;4;5;6;9]; [2;5;6;10;11;15];

    [0;1;2;5;9;10]; [3;5;6;7;9;11]; [5;6;10;13;14;15]; [4;6;8;9;10;12];
    [5;6;9;12;13;14]; [0;4;5;6;8;10]; [1;2;3;6;9;10]; [5;7;9;10;11;15];

    [0;1;5;9;13;14]; [3;4;5;6;7;8]; [1;2;6;10;14;15]; [7;8;9;10;11;12];
    [1;2;5;9;12;13]; [0;4;5;6;7;11]; [2;3;6;10;13;14]; [4;8;9;10;11;15];

    [0;1;5;8;9;13]; [1;3;4;5;6;7]; [2;6;7;10;14;15]; [8;9;10;11;12;14];
    [1;4;5;9;12;13]; [0;2;4;5;6;7]; [2;3;6;10;11;14]; [8;9;10;11;13;15];

    [0;1;2;4;6;10]; [2;3;7;9;10;11]; [5;9;11;13;14;15]; [4;5;6;8;12;13];
    [2;6;8;10;12;14]; [0;1;4;8;9;10]; [1;2;3;5;7;9]; [5;6;7;11;14;15] ].

(** [net_index[k]] of a row. *)
Definition pattern_cell (net_index : list Z) (k : nat) : Z := nth k net_index 0.

(** [network_index[i]]. *)
Definition pattern (i : Z) : list Z := nth (Z.to_nat i) network_index [].

(** The six cells a row addresses, in order. *)
Definition pattern_cells (net_index : list Z) : list Z :=
  map (pattern_cell net_index) (seq 0 6).

(** Size of one weight table and number of tables, as the comment in
    [init_weights] has them: 16*16*16*16*16*16 for 8 networks. *)
Definition table_size : Z := 16 * 16 * 16 * 16 * 16 * 16.
Definition table_count : Z := 8.

(** Reading the base-16 digits of an index, most significant first. *)
Definition decode_feature (index : Z) : list Z :=
  map (fun k => (index / 16 ^ (5 - Z.of_nat k)) mod 16) (seq 0 6).

(** Six base-16 digits, most significant first. *)
Definition horner16 (d0 d1 d2 d3 d4 d5 : Z) : Z :=
  d0 * 16 * 16 * 16 * 16 * 16 + d1 * 16 * 16 * 16 * 16 + d2 * 16 * 16 * 16
  + d3 * 16 * 16 + d4 * 16 + d5.

(** *** The weight tables

    [std::vector<weight> net]: [net j idx] is [net[j][idx]]. *)
Definition network := Z -> Z -> Q.

(** [net[j][idx] += v] *)
Definition net_add (net : network) (j idx : Z) (v : Q) : network :=
  fun j' idx' =>
    if (j' =? j) && (idx' =? idx) then (net j' idx' + v)%Q else net j' idx'.

(** Sum of the entries [es] of [net], as [evaluate_score] accumulates it. *)
Definition sum_entries (net : network) (es : list (Z * Z)) (score : Q) : Q :=
  fold_left (fun score e => (score + net (fst e) (snd e))%Q) es score.

(** Adding [v] to the entries [es] of [net], as [train_weights] does. *)
Definition add_entries (v : Q) (es : list (Z * Z)) (net : network) : network :=
  fold_left (fun net e => net_add net (fst e) (snd e) v) es net.

Definition same_entry (e e' : Z * Z) : bool :=
  (fst e =? fst e') && (snd e =? snd e').

(** Number of loop turns among [es] that address entry [e]. *)
Fixpoint count_entry (e : Z * Z) (es : list (Z * Z)) : Z :=
  match es with
  | [] => 0
  | e' :: es => (if same_entry e e' then 1 else 0) + count_entry e es
  end.




(** The actions agent.h builds: [action()] and [action::slide(op)],
    kept apart as two constructors. *)
Inductive action :=
| action_default
| action_slide (op : Z).

(** *** The board

    What the player uses of board.h: [cell_at b i] is [b(i)]. *)
Class Board (board : Type) := { cell_at : board -> Z -> Z }.

(** [slide b op] is [board::slide(op)] on a copy of [b]: the board after
    the slide and its reward, -1 when the slide is illegal;
    [board_default] is a default-constructed board. *)
Class Slider (board : Type) := {
  slide : board -> Z -> board * Z;
  board_default : board
}.

Section Board.

Context {board : Type} {B : Board board}.

(** [evaluate_feature]: the sum of products, taken on 32 bits as the
    returned [int] is. *)
Definition evaluate_feature (after : board) (net_index : list Z) : Z :=
  int_wrap
    (cell_at after (pattern_cell net_index 0) * 16 * 16 * 16 * 16 * 16
     + cell_at after (pattern_cell net_index 1) * 16 * 16 * 16 * 16
     + cell_at after (pattern_cell net_index 2) * 16 * 16 * 16
     + cell_at after (pattern_cell net_index 3) * 16 * 16
     + cell_at after (pattern_cell net_index 4) * 16
     + cell_at after (pattern_cell net_index 5)).

(** The cells of a row hold tile codes below 16. *)
Definition cells_in_range (b : board) (net_index : list Z) : Prop :=
  forall k, (k < 6)%nat -> 0 <= cell_at b (pattern_cell net_index k) < 16.

(** Every cell of the 4x4 board holds a tile code below 16. *)
Definition board_in_range (b : board) : Prop :=
  forall pos, 0 <= pos < 16 -> 0 <= cell_at b pos < 16.

(** The table entry the loops of [evaluate_score] and [train_weights]
    address at iteration [i]: table [i/8], index
    [evaluate_feature(after, network_index[i])]. *)
Definition entry (after : board) (i : Z) : Z * Z :=
  (i / 8, evaluate_feature after (pattern i)).

Definition evaluate_score (net : network) (after : board) : Q :=
  fold_left
    (fun score i =>
       let j := i / 8 in
       (score + net j (evaluate_feature after (pattern i)))%Q)
    (Z_range 64) 0%Q.

Definition train_weights (alpha : Q) (net : network) (after : board) (target : Q)
  : network :=
  let temp := evaluate_score net after in
  let err := (target - temp)%Q in
  let adjust_value := (err * alpha)%Q in
  fold_left
    (fun net i =>
       let j := i / 8 in
       net_add net j (evaluate_feature after (pattern i)) adjust_value)
    (Z_range 64) net.

(** *** Episodes and TD training *)

(** [struct state { board after; int reward; }] *)
Record state := { after : board; reward : Z }.

(** A call [train_weights(after, target)]. *)
Definition call := (board * Q)%type.

(** The network together with the calls of [train_weights] made so far,
    oldest first. *)
Definition trained := (network * list call)%type.

Definition train_call (alpha : Q) (st : trained) (after : board) (target : Q)
  : trained :=
  (train_weights alpha (fst st) after target, snd st ++ [(after, target)]).

(** The loop [for (int i = episode.size()-2; i >= 0; i--)] with [n] turns
    left: the next turn has [i = n-1]. *)
Fixpoint close_loop (alpha : Q) (episode : list state) (n : nat) (st : trained)
  : trained :=
  match n with
  | O => st
  | S i =>
      match nth_error episode i, nth_error episode (S i) with
      | Some si, Some snext =>
          close_loop alpha episode i
            (train_call alpha st (after si)
               (inject_Z (reward snext)
                + evaluate_score (fst st) (after snext))%Q)
      | _, _ => st
      end
  end.

Definition close_episode (alpha : Q) (episode : list state) (net : network)
  : trained :=
  match episode with
  | [] => (net, [])
  | _ =>
      match nth_error episode (length episode - 1) with
      | Some last =>
          close_loop alpha episode (length episode - 1)
            (train_call alpha (net, []) (after last) 0%Q)
      | None => (net, [])
      end
  end.

(** The network after a list of [train_weights] calls, made in order. *)
Definition replay (alpha : Q) (net : network) (calls : list call) : network :=
  fold_left (fun net c => train_weights alpha net (fst c) (snd c)) calls net.

(** The table entries of the 64 loop turns, in order. *)
Definition entries (b : board) : list (Z * Z) := map (entry b) (Z_range 64).


(** *** Move selection *)

Section Moves.

Context {S : Slider board}.

(** The locals of [take_action]. *)
Record best := {
  best_reward : Z;
  best_value : Q;
  best_after : board;
  best_op : Z
}.

Definition best_init : best :=
  {| best_reward := -1; best_value := (-9999999)%Q;
     best_after := board_default; best_op := -1 |}.

(** One turn of the loop [for (int f_op : {0,1,2,3})]. *)
Definition try_op (net : network) (before : board) (acc : best) (f_op : Z) : best :=
  let (temp, f_reward) := slide before f_op in
  if f_reward =? -1 then acc
  else
    let value := evaluate_score net temp in
    if Qlt_bool (inject_Z (best_reward acc) + best_value acc)
                (inject_Z f_reward + value)
    then {| best_reward := f_reward; best_value := value;
            best_after := temp; best_op := f_op |}
    else acc.

(** [take_action]: the action returned and the episode afterwards. *)
Definition take_action (net : network) (episode : list state) (before : board)
  : action * list state :=
  let r := fold_left (try_op net before) [0; 1; 2; 3] best_init in
  let episode' :=
    if negb (best_op r =? -1)
    then episode ++ [ {| after := best_after r; reward := best_reward r |} ]
    else episode in
  (action_slide (best_op r), episode').

(** What one candidate move yields. *)
Definition slide_board (before : board) (op : Z) : board := fst (slide before op).
Definition slide_reward (before : board) (op : Z) : Z := snd (slide before op).
Definition legal (before : board) (op : Z) : Prop := slide_reward before op <> -1.

(** [f_reward + value] of a candidate move. *)
Definition move_score (net : network) (before : board) (op : Z) : Q :=
  (inject_Z (slide_reward before op)
   + evaluate_score net (slide_board before op))%Q.

(** [best_reward + best_value] of the locals. *)
Definition best_sum (acc : best) : Q :=
  (inject_Z (best_reward acc) + best_value acc)%Q.

(** The locals after move [op] is taken as the best one. *)
Definition best_of (before : board) (net : network) (op : Z) : best :=
  {| best_reward := slide_reward before op;
     best_value := evaluate_score net (slide_board before op);
     best_after := slide_board before op;
     best_op := op |}.


End Moves.

End Board.

(** *** The random slider and the two-step player *)

(** [std::shuffle(first, last, engine)] on [std::default_random_engine]:
    the shuffled sequence and the engine afterwards. *)
Class Engine (engine : Type) := {
  shuffle : forall {A : Type}, engine -> list A -> list A * engine;
  shuffle_perm :
    forall (A : Type) (g : engine) (l : list A),
      Permutation (fst (shuffle g l)) l
}.

Section Sliders.

Context {board : Type} {S : Slider board}.

(** The loop [for (int op : opcode)] of [random_slider::take_action]. *)
Fixpoint first_slide (before : board) (opcode : list Z) : action :=
  match opcode with
  | [] => action_default
  | op :: rest =>
      let reward := snd (slide before op) in
      if negb (reward =? -1) then action_slide op
      else first_slide before rest
  end.

(** [random_slider::take_action]: the action, and the member [opcode]
    and the engine afterwards. *)
Definition random_slider_take_action {engine : Type} {E : Engine engine}
           (g : engine) (opcode : list Z) (before : board)
  : action * list Z * engine :=
  let (opcode', g') := shuffle g opcode in
  (first_slide before opcode', opcode', g').

(** The loop [for (int s_op : opcode)] of [my_player::take_action]: the
    value of [s_bestcount] after it. *)
Definition second_best (temp : board) : Z :=
  fold_left
    (fun s_bestcount s_op =>
       let s_reward := snd (slide temp s_op) in
       if s_bestcount <? s_reward then s_reward else s_bestcount)
    [0; 1; 2; 3] (-1).

(** One turn of the loop [for (int f_op : opcode)] on the locals
    [best_reward] and [best_op]. *)
Definition my_try_op (before : board) (acc : Z * Z) (f_op : Z) : Z * Z :=
  let (temp, f_reward) := slide before f_op in
  let s_bestcount := second_best temp in
  if f_reward + s_bestcount >? fst acc
  then (f_reward + s_bestcount, f_op)
  else acc.

(** [my_player::take_action]; its [opcode] is never shuffled, and the
    sums of two rewards are integers that do not overflow. *)
Definition my_player_take_action (before : board) : action :=
  let r := fold_left (my_try_op before) [0; 1; 2; 3] (-1, -1) in
  if negb (fst r =? -1) then action_slide (snd r) else action_default.

(** [f_reward + s_bestcount] of a first slide. *)
Definition two_step (before : board) (op : Z) : Z :=
  snd (slide before op) + second_best (fst (slide before op)).

End Sliders.

(** *** The random placer *)

(** What [random_placer] uses of board.h beside the cell accessor:
    [last b] is [b.last()], [bag b t] is [b.bag(t)] and [hint b] is
    [b.hint()]. *)
Class Placer (board : Type) := {
  last : board -> Z;
  bag : board -> Z -> nat;
  hint : board -> Z
}.

(** [action()] and [action::place(pos, tile, hint)]. *)
Inductive placement :=
| placement_default
| placement_place (pos tile hint : Z).

(** [spaces[0]] to [spaces[4]], as the constructor fills them. *)
Definition spaces : list (list Z) :=
  [ [12; 13; 14; 15];
    [0; 4; 8; 12];
    [0; 1; 2; 3];
    [3; 7; 11; 15];
    [0; 1; 2; 3; 4; 5; 6; 7; 8; 9; 10; 11; 12; 13; 14; 15] ].

Section PlacerModel.

Context {board : Type} {B : Board board} {P : Placer board}.
Context {engine : Type} {E : Engine engine}.

(** The tiles the two loops over [t] and [i] write to [bag], in
    order. *)
Definition bag_tiles (after : board) : list Z :=
  flat_map (fun t => repeat t (bag after t)) [1; 2; 3].

(** The body of the loop over [space] at an empty cell [pos]: [None]
    when [bag] is written or read outside its three cells. *)
Definition draw (g : engine) (after : board) (pos : Z)
  : option (placement * engine) :=
  let tiles := bag_tiles after in
  let num := Z.of_nat (length tiles) in
  if 3 <? num then None
  else
    let (shuffled, g') := shuffle g tiles in
    let at_ (i : Z) : option Z :=
      if i <? 0 then None else nth_error shuffled (Z.to_nat i) in
    if negb (hint after =? 0) then
      match at_ (num - 1) with
      | Some next => Some (placement_place pos (hint after) next, g')
      | None => None
      end
    else
      match at_ (num - 1), at_ (num - 2) with
      | Some tile, Some next => Some (placement_place pos tile next, g')
      | _, _ => None
      end.

(** The loop [for (int pos : space)]. *)
Fixpoint place_scan (g : engine) (after : board) (space : list Z)
  : option (placement * engine) :=
  match space with
  | [] => Some (placement_default, g)
  | pos :: rest =>
      if negb (cell_at after pos =? 0) then place_scan g after rest
      else draw g after pos
  end.

(** [random_placer::take_action]: the action and the engine afterwards;
    [None] when [spaces] or [bag] is indexed outside its bounds. *)
Definition random_placer_take_action (g : engine) (after : board)
  : option (placement * engine) :=
  if (last after <? 0) || (4 <? last after) then None
  else
    let space := nth (Z.to_nat (last after)) spaces [] in
    let (space', g') := shuffle g space in
    place_scan g' after space'.

End PlacerModel.

(** *** Playing an episode *)

Section Episodes.

Context {board : Type} {B : Board board} {S : Slider board}.

(** [open_episode]: [episode.clear()]. *)
Definition open_episode : list (@state board) := [].

(** The episode after [take_action] on each of [boards] in turn. *)
Fixpoint play (net : network) (episode : list state) (boards : list board)
  : list state :=
  match boards with
  | [] => episode
  | before :: rest => play net (snd (take_action net episode before)) rest
  end.

(** A state a legal slide of [before] gives. *)
Definition slid (before : board) (st : state) : Prop :=
  exists op, In op [0; 1; 2; 3] /\ legal before op
             /\ after st = slide_board before op
             /\ reward st = slide_reward before op.

End Episodes.

(** ** Arithmetic and list facts *)

Lemma int_wrap_small (z : Z) : - 2 ^ 31 <= z < 2 ^ 31 -> int_wrap z = z.
Proof.
  intros Hz. unfold int_wrap.
  rewrite Z.mod_small by lia. lia.
Qed.

Lemma In_Z_range (n : nat) (i : Z) : In i (Z_range n) <-> 0 <= i < Z.of_nat n.
Proof.
  unfold Z_range. rewrite in_map_iff. split.
  - intros [k [<- Hk]]. apply in_seq in Hk. lia.
  - intros Hi. exists (Z.to_nat i). split; [lia |]. apply in_seq. lia.
Qed.

Lemma Qlt_bool_iff (x y : Q) : Qlt_bool x y = true <-> (x < y)%Q.
Proof.
  unfold Qlt_bool. rewrite negb_true_iff. split.
  - intros H. apply Qnot_le_lt. intros Hle.
    apply Qle_bool_iff in Hle. congruence.
  - intros H. destruct (Qle_bool y x) eqn:E; [| reflexivity].
    apply Qle_bool_iff in E. exfalso. now apply (Qlt_not_le x y).
Qed.

Lemma Qlt_bool_false (x y : Q) : (y <= x)%Q -> Qlt_bool x y = false.
Proof.
  intros H. unfold Qlt_bool. apply Qle_bool_iff in H. now rewrite H.
Qed.



(** ** Feature indexing *)

Lemma decode_feature_digits (x : Z) :
  decode_feature x =
  [ (x / 1048576) mod 16; (x / 65536) mod 16; (x / 4096) mod 16;
    (x / 256) mod 16; (x / 16) mod 16; (x / 1) mod 16 ].
Proof. reflexivity. Qed.

Lemma pattern_cells_unfold (p : list Z) :
  pattern_cells p =
  [ pattern_cell p 0; pattern_cell p 1; pattern_cell p 2;
    pattern_cell p 3; pattern_cell p 4; pattern_cell p 5 ].
Proof. reflexivity. Qed.

Lemma horner16_range d0 d1 d2 d3 d4 d5 :
  0 <= d0 < 16 -> 0 <= d1 < 16 -> 0 <= d2 < 16 ->
  0 <= d3 < 16 -> 0 <= d4 < 16 -> 0 <= d5 < 16 ->
  0 <= horner16 d0 d1 d2 d3 d4 d5 < table_size.
Proof. unfold horner16, table_size. lia. Qed.

Lemma horner16_digits d0 d1 d2 d3 d4 d5 :
  0 <= d0 < 16 -> 0 <= d1 < 16 -> 0 <= d2 < 16 ->
  0 <= d3 < 16 -> 0 <= d4 < 16 -> 0 <= d5 < 16 ->
  decode_feature (horner16 d0 d1 d2 d3 d4 d5) = [d0; d1; d2; d3; d4; d5].
Proof.
  intros H0 H1 H2 H3 H4 H5. rewrite decode_feature_digits. unfold horner16.
  unfold table_size in *.
  repeat (apply f_equal2; [Z.div_mod_to_equations; lia |]).
  reflexivity.
Qed.

(** Every cell index of every row of [network_index] is a cell of the
    4x4 board. *)
Lemma pattern_on_board (i : Z) (k : nat) :
  0 <= i < 64 -> (k < 6)%nat -> 0 <= pattern_cell (pattern i) k < 16.
Proof.
  intros Hi Hk.
  assert (Hall : forallb (fun i =>
            forallb (fun k => (0 <=? pattern_cell (pattern i) k)
                              && (pattern_cell (pattern i) k <? 16))
                    (seq 0 6)) (Z_range 64) = true) by reflexivity.
  rewrite forallb_forall in Hall.
  specialize (Hall i ltac:(apply In_Z_range; lia)).
  rewrite forallb_forall in Hall.
  specialize (Hall k ltac:(apply in_seq; lia)).
  apply andb_true_iff in Hall. lia.
Qed.

(** ** Counting the table entries *)

Lemma sum_entries_agree (net net' : network) (es : list (Z * Z)) (score : Q) :
  Forall (fun e => net (fst e) (snd e) = net' (fst e) (snd e)) es ->
  sum_entries net es score = sum_entries net' es score.
Proof.
  unfold sum_entries. intros H. revert score.
  induction H as [| e es He _ IH]; intros score; cbn; [reflexivity |].
  rewrite He. apply IH.
Qed.

Lemma add_entries_other (v : Q) (es : list (Z * Z)) (net : network) (j idx : Z) :
  ~ In (j, idx) es -> add_entries v es net j idx = net j idx.
Proof.
  unfold add_entries. revert net.
  induction es as [| [j' idx'] es IH]; intros net Hn; cbn; [reflexivity |].
  rewrite IH by (intros Hin; apply Hn; now right).
  unfold net_add. cbn [fst snd].
  destruct (Z.eqb_spec j j'); destruct (Z.eqb_spec idx idx'); cbn; try reflexivity.
  subst. exfalso. apply Hn. now left.
Qed.

Lemma add_entries_value (v : Q) (es : list (Z * Z)) (net : network) (j idx : Z) :
  (add_entries v es net j idx
   == net j idx + inject_Z (count_entry (j, idx) es) * v)%Q.
Proof.
  unfold add_entries. revert net.
  induction es as [| [j' idx'] es IH]; intros net; cbn [fold_left count_entry].
  - cbn. ring.
  - rewrite IH. unfold net_add, same_entry. cbn [fst snd].
    destruct ((j =? j') && (idx =? idx')).
    + rewrite inject_Z_plus. change (inject_Z 1) with 1%Q. ring.
    + rewrite inject_Z_plus. change (inject_Z 0) with 0%Q. ring.
Qed.











Section BoardProofs.

Context {board : Type} {B : Board board}.

Lemma evaluate_feature_horner (b : board) (p : list Z) :
  cells_in_range b p ->
  evaluate_feature b p =
  horner16 (cell_at b (pattern_cell p 0)) (cell_at b (pattern_cell p 1))
           (cell_at b (pattern_cell p 2)) (cell_at b (pattern_cell p 3))
           (cell_at b (pattern_cell p 4)) (cell_at b (pattern_cell p 5)).
Proof.
  intros H. unfold evaluate_feature, horner16.
  pose proof (H 0%nat ltac:(lia)). pose proof (H 1%nat ltac:(lia)).
  pose proof (H 2%nat ltac:(lia)). pose proof (H 3%nat ltac:(lia)).
  pose proof (H 4%nat ltac:(lia)). pose proof (H 5%nat ltac:(lia)).
  apply int_wrap_small. lia.
Qed.

Lemma evaluate_feature_range (b : board) (p : list Z) :
  cells_in_range b p -> 0 <= evaluate_feature b p < table_size.
Proof.
  intros H. rewrite evaluate_feature_horner by assumption.
  apply horner16_range; apply H; lia.
Qed.

Lemma evaluate_feature_decode (b : board) (p : list Z) :
  cells_in_range b p ->
  decode_feature (evaluate_feature b p) = map (cell_at b) (pattern_cells p).
Proof.
  intros H. rewrite evaluate_feature_horner by assumption.
  rewrite horner16_digits by (apply H; lia).
  reflexivity.
Qed.

(** The index depends on the board through the six cells only. *)
Lemma evaluate_feature_ext (b b' : board) (p : list Z) :
  map (cell_at b') (pattern_cells p) = map (cell_at b) (pattern_cells p) ->
  evaluate_feature b' p = evaluate_feature b p.
Proof.
  rewrite pattern_cells_unfold. cbn [map]. intros E.
  injection E as E0 E1 E2 E3 E4 E5.
  unfold evaluate_feature. now rewrite E0, E1, E2, E3, E4, E5.
Qed.

(** C8. [evaluate_feature] reads the six cells of a pattern as base-16
    digits, most significant first: when the six cells are below 16 the
    index is below 16^6, reading its base-16 digits gives the six cells
    back, two boards with the same index agree on the six cells, and the
    index is a function of the six cells alone. *)
Theorem feature_index_roundtrip (b : board) (p : list Z) :
  cells_in_range b p ->
  0 <= evaluate_feature b p < table_size
  /\ decode_feature (evaluate_feature b p) = map (cell_at b) (pattern_cells p)
  /\ (forall b' : board,
        cells_in_range b' p ->
        evaluate_feature b' p = evaluate_feature b p ->
        map (cell_at b') (pattern_cells p) = map (cell_at b) (pattern_cells p))
  /\ (forall b' : board,
        map (cell_at b') (pattern_cells p) = map (cell_at b) (pattern_cells p) ->
        evaluate_feature b' p = evaluate_feature b p).
Proof.
  intros H. split; [now apply evaluate_feature_range |].
  split; [now apply evaluate_feature_decode |].
  split.
  - intros b' H' E.
    rewrite <- (evaluate_feature_decode b') by assumption.
    rewrite <- (evaluate_feature_decode b) by assumption.
    now rewrite E.
  - intros b' E. now apply evaluate_feature_ext.
Qed.

(** ** Range of the table accesses *)

Lemma board_cells_in_range (b : board) (i : Z) :
  board_in_range b -> 0 <= i < 64 -> cells_in_range b (pattern i).
Proof.
  intros Hb Hi k Hk. apply Hb. now apply pattern_on_board.
Qed.

Lemma entry_in_range (b : board) (i : Z) :
  board_in_range b -> 0 <= i < 64 ->
  0 <= fst (entry b i) < table_count /\ 0 <= snd (entry b i) < table_size.
Proof.
  intros Hb Hi. unfold entry, table_count. cbn [fst snd]. split.
  - Z.div_mod_to_equations. lia.
  - apply evaluate_feature_range. now apply board_cells_in_range.
Qed.

Lemma fold_left_map_entry {A : Type} (f : A -> Z * Z -> A) (b : board)
      (l : list Z) (a : A) :
  fold_left (fun a i => f a (entry b i)) l a = fold_left f (map (entry b) l) a.
Proof. revert a. induction l as [| i l IH]; intros a; cbn; [reflexivity | apply IH]. Qed.

Lemma evaluate_score_entries (net : network) (b : board) :
  evaluate_score net b = sum_entries net (entries b) 0%Q.
Proof.
  unfold evaluate_score, sum_entries, entries.
  now rewrite <- fold_left_map_entry.
Qed.

Lemma train_weights_entries (alpha : Q) (net : network) (b : board) (target : Q) :
  train_weights alpha net b target =
  add_entries ((target - evaluate_score net b) * alpha)%Q (entries b) net.
Proof.
  unfold train_weights, add_entries, entries.
  now rewrite <- fold_left_map_entry.
Qed.

Lemma entries_in_range (b : board) :
  board_in_range b ->
  Forall (fun e => 0 <= fst e < table_count /\ 0 <= snd e < table_size)
         (entries b).
Proof.
  intros Hb. unfold entries. apply Forall_map, Forall_forall.
  intros i Hi. apply In_Z_range in Hi. apply entry_in_range; [assumption | lia].
Qed.

(** C9. For a board whose cells are below 16, each of the 64 loop turns
    of [evaluate_score] and [train_weights] reads board cells 0..15 and
    addresses a table below 8 at an index in [0, 16^6); [evaluate_score]
    depends on no entry outside that range and [train_weights] changes
    none. *)
Theorem table_access_in_range (b : board) :
  board_in_range b ->
  (forall i, 0 <= i < 64 ->
     (forall k, (k < 6)%nat -> 0 <= pattern_cell (pattern i) k < 16)
     /\ 0 <= i / 8 < table_count
     /\ 0 <= evaluate_feature b (pattern i) < table_size)
  /\ (forall net net' : network,
        (forall j idx, 0 <= j < table_count -> 0 <= idx < table_size ->
                       net j idx = net' j idx) ->
        evaluate_score net b = evaluate_score net' b)
  /\ (forall (alpha : Q) (net : network) (target : Q) (j idx : Z),
        ~ (0 <= j < table_count /\ 0 <= idx < table_size) ->
        train_weights alpha net b target j idx = net j idx).
Proof.
  intros Hb. split; [| split].
  - intros i Hi. split; [intros k Hk; now apply pattern_on_board |].
    apply (entry_in_range b i Hb Hi).
  - intros net net' Hagree. rewrite !evaluate_score_entries.
    apply sum_entries_agree.
    eapply Forall_impl; [| apply (entries_in_range b Hb)].
    intros [j idx] [Hj Hidx]. now apply Hagree.
  - intros alpha net target j idx Hout. rewrite train_weights_entries.
    apply add_entries_other. intros Hin.
    pose proof (entries_in_range b Hb) as Hall.
    rewrite Forall_forall in Hall. apply Hall in Hin. now apply Hout.
Qed.

(** ** The backward TD sweep *)

Lemma replay_cons alpha net c calls :
  replay alpha net (c :: calls) =
  replay alpha (train_weights alpha net (fst c) (snd c)) calls.
Proof. reflexivity. Qed.

(** The loop of [close_episode] with [m] turns left makes [m] calls; the
    [k]-th of them trains [episode[m-1-k]] toward the reward of
    [episode[m-k]] plus the value of its board under the network the
    [k] calls before it have left. *)
Lemma close_loop_calls alpha (episode : list state) (m : nat) (st : trained) :
  (m < length episode)%nat ->
  exists added : list call,
    snd (close_loop alpha episode m st) = snd st ++ added
    /\ length added = m
    /\ fst (close_loop alpha episode m st) = replay alpha (fst st) added
    /\ (forall (k : nat) (si snext : state),
          (k < m)%nat ->
          nth_error episode (m - 1 - k) = Some si ->
          nth_error episode (m - k) = Some snext ->
          nth_error added k =
          Some (after si,
                (inject_Z (reward snext)
                 + evaluate_score (replay alpha (fst st) (firstn k added))
                                  (after snext))%Q)).
Proof.
  revert st. induction m as [| i IH]; intros st Hm.
  - exists []. cbn. rewrite app_nil_r. repeat split; try reflexivity.
    intros k si snext Hk. lia.
  - cbn [close_loop].
    destruct (nth_error episode i) as [si |] eqn:Ei;
      [| apply nth_error_None in Ei; lia].
    destruct (nth_error episode (S i)) as [snext |] eqn:En;
      [| apply nth_error_None in En; lia].
    set (target := (inject_Z (reward snext)
                    + evaluate_score (fst st) (after snext))%Q).
    destruct (IH (train_call alpha st (after si) target) ltac:(lia))
      as (added & Hsnd & Hlen & Hfst & Hcalls).
    exists ((after si, target) :: added).
    split; [| split; [| split]].
    + rewrite Hsnd. unfold train_call. cbn [snd].
      now rewrite <- app_assoc.
    + cbn. now rewrite Hlen.
    + rewrite Hfst. reflexivity.
    + intros k si' snext' Hk Hsi Hsn. destruct k as [| k].
      * replace (S i - 1 - 0)%nat with i in Hsi by lia.
        replace (S i - 0)%nat with (S i) in Hsn by lia.
        rewrite Ei in Hsi. rewrite En in Hsn.
        injection Hsi as <-. injection Hsn as <-. reflexivity.
      * cbn [nth_error firstn]. rewrite replay_cons.
        apply Hcalls; [lia | |].
        -- replace (i - 1 - k)%nat with (S i - 1 - S k)%nat by lia. exact Hsi.
        -- replace (i - k)%nat with (S i - S k)%nat by lia. exact Hsn.
Qed.

(** C3. Closing an empty episode makes no call of [train_weights] and
    leaves the network as it is.  Closing an episode of [n >= 1] states
    makes exactly [n] calls, which leave the network returned: the
    first trains the last state toward 0, and the call number
    [k = 1 .. n-1] trains state [n-1-k] toward the reward of state [n-k]
    plus [evaluate_score] of that state's board, taken under the network
    as the first [k] calls of this sweep have left it (so after the
    update of state [n-k] itself). *)
Theorem close_episode_sweep (alpha : Q) (episode : list state) (net : network) :
  close_episode alpha [] net = (net, [])
  /\ ((1 <= length episode)%nat ->
      let n := length episode in
      let net' := fst (close_episode alpha episode net) in
      let calls := snd (close_episode alpha episode net) in
      length calls = n
      /\ net' = replay alpha net calls
      /\ (forall last : state,
            nth_error episode (n - 1) = Some last ->
            nth_error calls 0 = Some (after last, 0%Q))
      /\ (forall (k : nat) (si snext : state),
            (1 <= k < n)%nat ->
            nth_error episode (n - 1 - k) = Some si ->
            nth_error episode (n - k) = Some snext ->
            nth_error calls k =
            Some (after si,
                  (inject_Z (reward snext)
                   + evaluate_score (replay alpha net (firstn k calls))
                                    (after snext))%Q))).
Proof.
  split; [reflexivity |].
  intros Hn n net' calls. subst n net' calls.
  unfold close_episode.
  destruct episode as [| s0 rest] eqn:Eep; [cbn in Hn; lia |].
  rewrite <- Eep in *. clear Eep s0 rest.
  destruct (nth_error episode (length episode - 1)) as [last |] eqn:El;
    [| apply nth_error_None in El; lia].
  destruct (close_loop_calls alpha episode (length episode - 1)
              (train_call alpha (net, []) (after last) 0%Q) ltac:(lia))
    as (added & Hsnd & Hlen & Hfst & Hcalls).
  rewrite Hsnd, Hfst. unfold train_call in *. cbn [fst snd app] in *.
  split; [cbn; lia |]. split; [reflexivity |]. split.
  - intros last' Hl. injection Hl as <-. reflexivity.
  - intros k si snext Hk Hsi Hsn. destruct k as [| k]; [lia |].
    cbn [nth_error firstn]. rewrite replay_cons. cbn [fst snd].
    apply Hcalls; [lia | |].
    + replace (length episode - 1 - 1 - k)%nat
        with (length episode - 1 - S k)%nat by lia. exact Hsi.
    + replace (length episode - 1 - k)%nat
        with (length episode - S k)%nat by lia. exact Hsn.
Qed.

(** ** The TD update *)






End BoardProofs.

(** ** Move selection *)

Section MoveProofs.

Context {board : Type} {B : Board board} {S : Slider board}.

Lemma try_op_illegal net before acc op :
  slide_reward before op = -1 -> try_op net before acc op = acc.
Proof.
  unfold try_op, slide_reward. destruct (slide before op) as [temp r]. cbn [fst snd].
  intros ->. reflexivity.
Qed.

Lemma try_op_better net before acc op :
  legal before op -> (best_sum acc < move_score net before op)%Q ->
  try_op net before acc op = best_of before net op.
Proof.
  unfold try_op, legal, move_score, best_of, slide_reward, slide_board, best_sum.
  destruct (slide before op) as [temp r]. cbn [fst snd]. intros Hr Hlt.
  destruct (Z.eqb_spec r (-1)); [contradiction |].
  apply Qlt_bool_iff in Hlt. now rewrite Hlt.
Qed.

Lemma try_op_not_better net before acc op :
  (move_score net before op <= best_sum acc)%Q ->
  try_op net before acc op = acc.
Proof.
  unfold try_op, move_score, slide_reward, slide_board, best_sum.
  destruct (slide before op) as [temp r]. cbn [fst snd]. intros Hle.
  destruct (r =? -1); [reflexivity |].
  now rewrite Qlt_bool_false.
Qed.

(** Moves that do not beat the current best leave the locals alone. *)
Lemma fold_try_op_keep net before (l : list Z) (acc : best) :
  (forall op, In op l -> legal before op ->
              (move_score net before op <= best_sum acc)%Q) ->
  fold_left (try_op net before) l acc = acc.
Proof.
  induction l as [| op l IH]; intros H; cbn; [reflexivity |].
  assert (E : try_op net before acc op = acc).
  { destruct (Z.eq_dec (slide_reward before op) (-1)) as [Hi | Hl].
    - now apply try_op_illegal.
    - apply try_op_not_better. apply H; [now left | exact Hl]. }
  rewrite E. apply IH. intros op' Hin. apply H. now right.
Qed.




(** C6. On a board where the four slides are illegal, [take_action]
    appends nothing to the episode and returns [action::slide(-1)], the
    slide action built from the initial [best_op]; this is not the
    default action [action()]. *)
Theorem take_action_no_legal_move
        (net : network) (episode : list state) (before : board) :
  (forall op, In op [0; 1; 2; 3] -> slide_reward before op = -1) ->
  take_action net episode before = (action_slide (-1), episode)
  /\ fst (take_action net episode before) <> action_default.
Proof.
  intros Hstuck.
  assert (E : take_action net episode before = (action_slide (-1), episode)).
  { unfold take_action. rewrite fold_try_op_keep; [reflexivity |].
    intros op Hin Hlegal. exfalso. apply Hlegal. now apply Hstuck. }
  split; [exact E |]. rewrite E. discriminate.
Qed.

End MoveProofs.

(** ** Every outcome of the move selection *)

Section MoveCases.

Context {board : Type} {B : Board board} {S : Slider board}.

(** The loop over the candidate moves keeps its locals, or ends on the
    first of the best legal moves. *)
Lemma fold_try_op_cases (net : network) (before : board) (l : list Z)
      (acc : best) :
  (fold_left (try_op net before) l acc = acc
   /\ forall op, In op l -> legal before op ->
                 (move_score net before op <= best_sum acc)%Q)
  \/ exists l1 op l2,
       l = l1 ++ op :: l2
       /\ legal before op
       /\ (best_sum acc < move_score net before op)%Q
       /\ (forall op', In op' l1 -> legal before op' ->
                       (move_score net before op' < move_score net before op)%Q)
       /\ (forall op', In op' l2 -> legal before op' ->
                       (move_score net before op' <= move_score net before op)%Q)
       /\ fold_left (try_op net before) l acc = best_of before net op.
Proof.
  revert acc. induction l as [|a l IH]; intros acc.
  - left. split; [reflexivity|]. intros op [].
  - cbn [fold_left].
    destruct (Z.eq_dec (slide_reward before a) (-1)) as [Hill|Hleg].
    + rewrite (try_op_illegal net before acc a Hill).
      destruct (IH acc) as [[Hkeep Hle]|(l1 & op & l2 & -> & Hop & Hlt & H1 & H2 & Hres)].
      * left. split; [assumption|]. intros op [<-|Hin] Hlegal; auto.
        now elim Hlegal.
      * right. exists (a :: l1), op, l2. repeat split; auto.
        intros op' [<-|Hin] Hlegal; auto. now elim Hlegal.
    + destruct (Qlt_le_dec (best_sum acc) (move_score net before a)) as [Hbetter|Hnot].
      * rewrite (try_op_better net before acc a Hleg Hbetter).
        destruct (IH (best_of before net a))
          as [[Hkeep Hle]|(l1 & op & l2 & -> & Hop & Hlt & H1 & H2 & Hres)].
        -- right. exists [], a, l. repeat split; auto. intros op' [].
        -- right. exists (a :: l1), op, l2. repeat split; auto.
           ++ apply (Qlt_trans _ _ _ Hbetter Hlt).
           ++ intros op' [<-|Hin] Hlegal; auto.
      * rewrite (try_op_not_better net before acc a Hnot).
        destruct (IH acc) as [[Hkeep Hle]|(l1 & op & l2 & -> & Hop & Hlt & H1 & H2 & Hres)].
        -- left. split; [assumption|]. intros op [<-|Hin] Hlegal; auto.
        -- right. exists (a :: l1), op, l2. repeat split; auto.
           intros op' [<-|Hin] Hlegal; auto.
           apply (Qle_lt_trans _ _ _ Hnot Hlt).
Qed.


End MoveCases.

(** ** The random slider and the two-step player *)

Section SliderProofs.

Context {board : Type} {S : Slider board}.

Lemma first_slide_cases (before : board) (opcode : list Z) :
  match first_slide before opcode with
  | action_slide op => In op opcode /\ snd (slide before op) <> -1
  | action_default => forall op, In op opcode -> snd (slide before op) = -1
  end.
Proof.
  induction opcode as [|op rest IH]; cbn [first_slide]; [intros op []|].
  destruct (Z.eqb_spec (snd (slide before op)) (-1)) as [Heq|Hne]; cbn [negb].
  - destruct (first_slide before rest) as [|op'].
    + intros op' [<-|Hin]; auto.
    + destruct IH as [Hin Hlegal]. split; [now right|assumption].
  - split; [now left|assumption].
Qed.

(** X2.  [random_slider::take_action], with [opcode] as the
    constructor or any earlier call left it: the action returned is
    [action::slide(op)] for a legal slide [op] among 0, 1, 2, 3, and
    [action()] only when none of the four slides is legal; [opcode]
    afterwards holds the same four slides. *)
Theorem random_slider_legal {engine : Type} {E : Engine engine} (g : engine)
        (opcode : list Z) (before : board) :
  Permutation opcode [0; 1; 2; 3] ->
  exists a opcode' g',
    random_slider_take_action g opcode before = (a, opcode', g')
    /\ Permutation opcode' [0; 1; 2; 3]
    /\ match a with
       | action_slide op => In op [0; 1; 2; 3] /\ snd (slide before op) <> -1
       | action_default =>
           forall op, In op [0; 1; 2; 3] -> snd (slide before op) = -1
       end.
Proof.
  intros Hop. unfold random_slider_take_action.
  pose proof (shuffle_perm _ g opcode) as Hperm.
  destruct (shuffle g opcode) as [opcode' g']. cbn [fst] in Hperm.
  pose proof (Permutation_trans Hperm Hop) as Hop'.
  exists (first_slide before opcode'), opcode', g'.
  split; [reflexivity|]. split; [assumption|].
  pose proof (first_slide_cases before opcode') as Hcases.
  destruct (first_slide before opcode') as [|op].
  - intros op Hin. apply Hcases.
    apply (Permutation_in _ (Permutation_sym Hop')). assumption.
  - destruct Hcases as [Hin Hlegal]. split; [|assumption].
    apply (Permutation_in _ Hop'). assumption.
Qed.

(** [s_bestcount] is the largest of its starting value and the rewards
    of the slides tried. *)
Lemma fold_second_best (temp : board) (l : list Z) (acc : Z) :
  let r :=
    fold_left
      (fun s_bestcount s_op =>
         let s_reward := snd (slide temp s_op) in
         if s_bestcount <? s_reward then s_reward else s_bestcount)
      l acc in
  acc <= r
  /\ (forall op, In op l -> snd (slide temp op) <= r)
  /\ (r = acc \/ exists op, In op l /\ r = snd (slide temp op)).
Proof.
  revert acc. induction l as [|a l IH]; intros acc; cbn [fold_left].
  - split; [lia|]. split; [intros op []|now left].
  - cbv zeta in IH |- *.
    destruct (Z.ltb_spec acc (snd (slide temp a))) as [Hlt|Hge].
    + destruct (IH (snd (slide temp a))) as [Hle [Hall Hcase]].
      split; [lia|]. split.
      * intros op [<-|Hin]; auto.
      * right. destruct Hcase as [->|[op [Hin ->]]].
        -- exists a. split; [now left|reflexivity].
        -- exists op. split; [now right|reflexivity].
    + destruct (IH acc) as [Hle [Hall Hcase]].
      split; [lia|]. split.
      * intros op [<-|Hin]; auto. lia.
      * destruct Hcase as [->|[op [Hin ->]]]; [now left|right].
        exists op. split; [now right|reflexivity].
Qed.

Lemma second_best_max (temp : board) :
  -1 <= second_best temp
  /\ (forall op, In op [0; 1; 2; 3] -> snd (slide temp op) <= second_best temp)
  /\ (second_best temp = -1
      \/ exists op, In op [0; 1; 2; 3] /\ second_best temp = snd (slide temp op)).
Proof. exact (fold_second_best temp [0; 1; 2; 3] (-1)). Qed.

(** The loop over the first slides keeps its locals, or ends on the
    first slide with the largest sum. *)
Lemma fold_my_try_op_cases (before : board) (l : list Z) (acc : Z * Z) :
  (fold_left (my_try_op before) l acc = acc
   /\ forall op, In op l -> two_step before op <= fst acc)
  \/ exists l1 op l2,
       l = l1 ++ op :: l2
       /\ fst acc < two_step before op
       /\ (forall op', In op' l1 -> two_step before op' < two_step before op)
       /\ (forall op', In op' l2 -> two_step before op' <= two_step before op)
       /\ fold_left (my_try_op before) l acc = (two_step before op, op).
Proof.
  revert acc. induction l as [|a l IH]; intros acc.
  - left. split; [reflexivity|]. intros op [].
  - cbn [fold_left].
    assert (Htry : my_try_op before acc a
                   = if two_step before a >? fst acc
                     then (two_step before a, a) else acc).
    { unfold my_try_op, two_step. destruct (slide before a). reflexivity. }
    rewrite Htry. destruct (Z.gtb_spec (two_step before a) (fst acc)) as [Hgt|Hle].
    + destruct (IH (two_step before a, a))
        as [[Hkeep Hle]|(l1 & op & l2 & -> & Hlt & H1 & H2 & Hres)];
        cbn [fst] in *.
      * right. exists [], a, l.
        split; [reflexivity|]. split; [lia|]. split; [intros op' []|].
        split; [assumption|exact Hkeep].
      * right. exists (a :: l1), op, l2.
        split; [reflexivity|]. split; [lia|]. split; [|split; assumption].
        intros op' [<-|Hin]; auto.
    + destruct (IH acc) as [[Hkeep Hle']|(l1 & op & l2 & -> & Hlt & H1 & H2 & Hres)].
      * left. split; [assumption|]. intros op [<-|Hin]; auto.
      * right. exists (a :: l1), op, l2.
        split; [reflexivity|]. split; [assumption|].
        split; [|split; assumption].
        intros op' [<-|Hin]; auto. lia.
Qed.

(** X3.  [my_player::take_action] scores a first slide by its reward
    plus [s_bestcount], the largest of -1 and the rewards of the four
    slides that may follow, legal or not.  It returns [action()] when no
    first slide scores 0 or more, and otherwise [action::slide(op)] for
    the first of the slides with the largest score. *)
Theorem my_player_cases (before : board) :
  (forall temp,
      -1 <= second_best temp
      /\ (forall op, In op [0; 1; 2; 3] ->
                     snd (slide temp op) <= second_best temp)
      /\ (second_best temp = -1
          \/ exists op, In op [0; 1; 2; 3]
                        /\ second_best temp = snd (slide temp op)))
  /\ ((my_player_take_action before = action_default
       /\ forall op, In op [0; 1; 2; 3] -> two_step before op <= -1)
      \/ exists op,
           In op [0; 1; 2; 3]
           /\ my_player_take_action before = action_slide op
           /\ 0 <= two_step before op
           /\ (forall op', In op' [0; 1; 2; 3] ->
                           two_step before op' <= two_step before op)
           /\ (forall op', In op' [0; 1; 2; 3] -> op' < op ->
                           two_step before op' < two_step before op)).
Proof.
  split; [apply second_best_max|].
  unfold my_player_take_action.
  destruct (fold_my_try_op_cases before [0; 1; 2; 3] (-1, -1))
    as [[Hkeep Hle]|(l1 & op & l2 & Hsplit & Hlt & H1 & H2 & Hres)];
    cbn [fst] in *.
  - left. rewrite Hkeep. split; [reflexivity|assumption].
  - right. exists op. rewrite Hres. cbn [fst snd].
    assert (Hin : In op [0; 1; 2; 3])
      by (rewrite Hsplit; apply in_elt).
    replace (negb (two_step before op =? -1)) with true
      by (symmetry; apply negb_true_iff, Z.eqb_neq; lia).
    repeat split; auto; [lia| |].
    + intros op' Hin'. rewrite Hsplit in Hin'.
      apply in_app_or in Hin'. destruct Hin' as [Hin'|[<-|Hin']]; auto; try lia.
      apply Z.lt_le_incl. auto.
    + intros op' Hin' Hless. apply H1.
      rewrite Hsplit in Hin'.
      apply in_app_or in Hin'. destruct Hin' as [Hin'|[<-|Hin']];
        [assumption|lia|].
      exfalso.
      destruct l1 as [|a [|b [|c [|d l1]]]]; cbn in Hsplit;
        injection Hsplit as; subst; cbn in Hin';
        repeat (destruct Hin' as [<-|Hin']; [lia|]); try destruct Hin'.
      destruct l1; discriminate.
Qed.

(** X4.  On a board where the four slides are illegal and leave the
    board as it is, [my_player::take_action] returns [action()]. *)
Theorem my_player_no_move (before : board) :
  (forall op, In op [0; 1; 2; 3] -> slide before op = (before, -1)) ->
  my_player_take_action before = action_default.
Proof.
  intros Hstuck.
  assert (Hsecond : second_best before = -1).
  { unfold second_best. cbn [fold_left].
    rewrite !Hstuck by (cbn; tauto). reflexivity. }
  unfold my_player_take_action. cbn [fold_left]. unfold my_try_op.
  rewrite !Hstuck by (cbn; tauto). rewrite Hsecond. reflexivity.
Qed.

End SliderProofs.

(** ** Training leaves the other states alone *)

Section TrainFrame.

Context {board : Type} {B : Board board}.

(** X5.  [train_weights] changes no table entry but those the 64
    patterns address on the board trained, so that the value of a board
    whose patterns address none of them stays the same; and it changes
    no entry at all when the target is the value the board has
    already. *)
Theorem train_weights_frame (alpha : Q) (net : network) (b : board)
        (target : Q) :
  (forall j idx,
      ~ In (j, idx) (entries b) ->
      train_weights alpha net b target j idx = net j idx)
  /\ (forall b',
         (forall e, In e (entries b') -> ~ In e (entries b)) ->
         evaluate_score (train_weights alpha net b target) b'
         = evaluate_score net b')
  /\ forall j idx,
       (train_weights alpha net b (evaluate_score net b) j idx
        == net j idx)%Q.
Proof.
  assert (Hother : forall j idx,
             ~ In (j, idx) (entries b) ->
             train_weights alpha net b target j idx = net j idx).
  { intros j idx Hnot. rewrite train_weights_entries.
    now apply add_entries_other. }
  split; [assumption|]. split.
  - intros b' Hdisj.
    rewrite !evaluate_score_entries. apply sum_entries_agree.
    apply Forall_forall. intros [j idx] Hin. cbn [fst snd].
    apply Hother. now apply Hdisj.
  - intros j idx. rewrite train_weights_entries, add_entries_value. ring.
Qed.

End TrainFrame.

(** ** The random placer *)

Section PlacerProofs.

Context {board : Type} {B : Board board} {P : Placer board}.
Context {engine : Type} {E : Engine engine}.

Lemma draw_cases (g : engine) (after : board) (pos : Z) :
  match draw g after pos with
  | Some (placement_place pos' tile next, _) =>
      pos' = pos /\ (length (bag_tiles after) <= 3)%nat
      /\ if hint after =? 0
         then exists rest, Permutation (tile :: next :: rest) (bag_tiles after)
         else tile = hint after
              /\ exists rest, Permutation (next :: rest) (bag_tiles after)
  | Some (placement_default, _) => False
  | None =>
      (3 < length (bag_tiles after))%nat
      \/ (length (bag_tiles after) < (if (hint after =? 0)%Z then 2 else 1))%nat
  end.
Proof.
  unfold draw.
  destruct (Z.ltb_spec 3 (Z.of_nat (length (bag_tiles after)))) as [Hbig|Hsmall];
    [left; lia|].
  pose proof (shuffle_perm _ g (bag_tiles after)) as Hperm.
  destruct (shuffle g (bag_tiles after)) as [shuffled g']. cbn [fst] in Hperm.
  pose proof (Permutation_length Hperm) as Hlen.
  assert (H1 : Pos.to_nat 1 = 1%nat) by reflexivity.
  assert (H2 : Pos.to_nat 2 = 2%nat) by reflexivity.
  destruct (hint after =? 0); cbn [negb];
    destruct shuffled as [|a [|b [|c [|d l]]]]; cbn [length] in Hlen;
    rewrite <- Hlen in *; cbn -[bag_tiles Pos.to_nat] in Hsmall |- *;
    rewrite ?H1, ?H2; cbn [nth_error]; try lia.
  - split; [reflexivity|]. split; [lia|]. exists [].
    apply (Permutation_trans (perm_swap a b [])). exact Hperm.
  - split; [reflexivity|]. split; [lia|]. exists [a].
    apply (Permutation_trans (l' := [a; b; c])); [|exact Hperm].
    exact (Permutation_sym (Permutation_rev [a; b; c])).
  - split; [reflexivity|]. split; [lia|]. split; [reflexivity|].
    exists []. exact Hperm.
  - split; [reflexivity|]. split; [lia|]. split; [reflexivity|]. exists [a].
    apply (Permutation_trans (perm_swap a b [])). exact Hperm.
  - split; [reflexivity|]. split; [lia|]. split; [reflexivity|].
    exists [a; b].
    apply (Permutation_trans (l' := [a; b; c])); [|exact Hperm].
    exact (Permutation_cons_append [a; b] c).
Qed.

Lemma place_scan_cases (g : engine) (after : board) (space : list Z) :
  match place_scan g after space with
  | Some (placement_place pos tile next, _) =>
      In pos space /\ cell_at after pos = 0
      /\ (length (bag_tiles after) <= 3)%nat
      /\ if hint after =? 0
         then exists rest, Permutation (tile :: next :: rest) (bag_tiles after)
         else tile = hint after
              /\ exists rest, Permutation (next :: rest) (bag_tiles after)
  | Some (placement_default, g') =>
      g' = g /\ forall pos, In pos space -> cell_at after pos <> 0
  | None =>
      (exists pos, In pos space /\ cell_at after pos = 0)
      /\ ((3 < length (bag_tiles after))%nat
          \/ (length (bag_tiles after)
              < (if (hint after =? 0)%Z then 2 else 1))%nat)
  end.
Proof.
  induction space as [|pos rest IH]; cbn [place_scan].
  - split; [reflexivity|]. intros pos [].
  - destruct (Z.eqb_spec (cell_at after pos) 0) as [Hempty|Hfull]; cbn [negb].
    + pose proof (draw_cases g after pos) as Hdraw.
      destruct (draw g after pos) as [[[|pos' tile next] g']|].
      * destruct Hdraw.
      * destruct Hdraw as [-> Htiles]. split; [now left|]. split; assumption.
      * split; [|assumption]. exists pos. split; [now left|assumption].
    + destruct (place_scan g after rest) as [[[|pos' tile next] g']|].
      * destruct IH as [-> Hfullrest]. split; [reflexivity|].
        intros p [<-|Hin]; auto.
      * destruct IH as [Hin Hrest]. split; [now right|assumption].
      * destruct IH as [[p [Hin Hp]] Hbag]. split; [|assumption].
        exists p. split; [now right|assumption].
Qed.

(** X19.  [random_placer::take_action] on a board whose [last()] is
    between 0 and 4: it returns [action()] when no cell of
    [spaces[last()]] is empty, whatever the bag holds; otherwise it
    returns [action::place(pos, tile, hint)] for an empty cell [pos] of
    [spaces[last()]], [tile] being the hint of the board when that is
    not 0 and else a tile of the bag, and [hint] another tile of the
    bag; it reads or writes [bag] outside its three cells exactly when
    a cell is empty and the bag holds more than 3 tiles or fewer than
    it draws. *)
Theorem random_placer_places (g : engine) (after : board) :
  0 <= last after <= 4 ->
  let space := nth (Z.to_nat (last after)) spaces [] in
  match random_placer_take_action g after with
  | Some (placement_place pos tile next, _) =>
      In pos space /\ cell_at after pos = 0
      /\ (length (bag_tiles after) <= 3)%nat
      /\ if hint after =? 0
         then exists rest, Permutation (tile :: next :: rest) (bag_tiles after)
         else tile = hint after
              /\ exists rest, Permutation (next :: rest) (bag_tiles after)
  | Some (placement_default, _) =>
      forall pos, In pos space -> cell_at after pos <> 0
  | None =>
      (exists pos, In pos space /\ cell_at after pos = 0)
      /\ ((3 < length (bag_tiles after))%nat
          \/ (length (bag_tiles after)
              < (if (hint after =? 0)%Z then 2 else 1))%nat)
  end.
Proof.
  intros Hlast space. unfold random_placer_take_action.
  replace ((last after <? 0) || (4 <? last after)) with false
    by (symmetry; apply orb_false_iff; split; apply Z.ltb_ge; lia).
  fold space.
  pose proof (shuffle_perm _ g space) as Hperm.
  destruct (shuffle g space) as [space' g']. cbn [fst] in Hperm.
  pose proof (place_scan_cases g' after space') as Hscan.
  destruct (place_scan g' after space') as [[[|pos tile next] g'']|].
  - destruct Hscan as [_ Hfull]. intros pos Hin. apply Hfull.
    apply (Permutation_in _ (Permutation_sym Hperm)). assumption.
  - destruct Hscan as [Hin Hrest]. split; [|assumption].
    apply (Permutation_in _ Hperm). assumption.
  - destruct Hscan as [[pos [Hin Hpos]] Hbag]. split; [|assumption].
    exists pos. split; [|assumption]. apply (Permutation_in _ Hperm). assumption.
Qed.

End PlacerProofs.

(** ** Playing an episode *)

Section EpisodeProofs.

Context {board : Type} {B : Board board} {S : Slider board}.

Lemma take_action_episode (net : network) (episode : list state)
      (before : board) :
  snd (take_action net episode before) = episode
  \/ exists st, slid before st
                /\ snd (take_action net episode before) = episode ++ [st].
Proof.
  unfold take_action. cbn [snd].
  destruct (fold_try_op_cases net before [0; 1; 2; 3] best_init)
    as [[Hkeep _]|(l1 & op & l2 & Hsplit & Hop & _ & _ & _ & Hres)].
  - left. rewrite Hkeep. reflexivity.
  - right. rewrite Hres. cbn [best_of best_op best_after best_reward].
    assert (Hin : In op [0; 1; 2; 3]) by (rewrite Hsplit; apply in_elt).
    assert (Hne : negb (op =? -1) = true).
    { apply negb_true_iff, Z.eqb_neq.
      destruct Hin as [<-|[<-|[<-|[<-|[]]]]]; discriminate. }
    rewrite Hne. eexists. split; [|reflexivity].
    exists op. repeat split; auto.
Qed.

Lemma play_appends (net : network) (boards : list board)
      (episode : list state) :
  exists added,
    play net episode boards = episode ++ added
    /\ (length added <= length boards)%nat
    /\ Forall (fun st => exists before, In before boards /\ slid before st)
              added.
Proof.
  revert episode. induction boards as [|before rest IH]; intros episode.
  - exists []. cbn [play]. rewrite app_nil_r. repeat split; auto.
  - cbn [play].
    destruct (take_action_episode net episode before) as [->|[st [Hst ->]]].
    + destruct (IH episode) as (added & Hplay & Hlen & Hall).
      exists added. split; [assumption|]. split; [cbn; lia|].
      apply (Forall_impl _ (P := fun st => exists before, In before rest
                                                        /\ slid before st));
        [|assumption].
      intros st [b [Hb Hs]]. exists b. split; [now right|assumption].
    + destruct (IH (episode ++ [st])) as (added & Hplay & Hlen & Hall).
      exists (st :: added). split; [now rewrite Hplay, <- app_assoc|].
      split; [cbn; lia|]. constructor.
      * exists before. split; [now left|assumption].
      * apply (Forall_impl _ (P := fun st => exists before, In before rest
                                                          /\ slid before st));
          [|assumption].
        intros st' [b [Hb Hs]]. exists b. split; [now right|assumption].
Qed.

Lemma close_episode_length (alpha : Q) (episode : list state) (net : network) :
  length (snd (close_episode alpha episode net)) = length episode.
Proof.
  unfold close_episode. destruct episode as [|s0 episode]; [reflexivity|].
  set (ep := s0 :: episode).
  assert (Hlen : (length ep - 1 < length ep)%nat) by (cbn; lia).
  destruct (nth_error ep (length ep - 1)) as [last|] eqn:Hlast;
    [|apply nth_error_None in Hlast; lia].
  destruct (close_loop_calls alpha ep (length ep - 1)
              (train_call alpha (net, []) (after last) 0%Q) Hlen)
    as (added & Hsnd & Hadded & _).
  rewrite Hsnd. cbn [train_call snd app length]. rewrite Hadded.
  cbn [length]. lia.
Qed.

(** X20.  From [open_episode] on, [take_action] adds at most one state to
    the episode at each call, and every state the episode holds is the
    board and the reward of a legal slide, among 0, 1, 2, 3, of a board
    it was called with: no reward in it is the -1 of an illegal slide.
    [close_episode] then calls [train_weights] once for every state of
    the episode. *)
Theorem episode_records_legal (alpha : Q) (net net' : network)
        (boards : list board) :
  (length (play net open_episode boards) <= length boards)%nat
  /\ Forall (fun st =>
               reward st <> -1
               /\ exists before op,
                    In before boards /\ In op [0; 1; 2; 3]
                    /\ after st = slide_board before op
                    /\ reward st = slide_reward before op)
            (play net open_episode boards)
  /\ length (snd (close_episode alpha (play net open_episode boards) net'))
     = length (play net open_episode boards).
Proof.
  destruct (play_appends net boards open_episode) as (added & -> & Hlen & Hall).
  unfold open_episode. cbn [app]. split; [assumption|]. split.
  - apply (Forall_impl _ (P := fun st => exists before, In before boards
                                                      /\ slid before st));
      [|assumption].
    intros st (before & Hin & op & Hop & Hlegal & Hafter & Hreward).
    split; [rewrite Hreward; exact Hlegal|].
    exists before, op. auto.
  - apply close_episode_length.
Qed.

End EpisodeProofs.

(** ** A concrete board: the 16 cells in row-major order *)

Definition grid := list Z.
Definition grid_at (b : grid) (i : Z) : Z := nth (Z.to_nat i) b 0.

#[export] Instance grid_board : Board grid := {| cell_at := grid_at |}.

(** A position and the boards its two legal slides lead to. *)
Definition board0 : grid := [3; 3; 0; 1;  6; 0; 2; 0;  12; 6; 0; 0;  3; 0; 0; 0].
Definition board1 : grid := [6; 0; 1; 0;  6; 2; 0; 0;  12; 6; 0; 0;  3; 0; 0; 0].
Definition board2 : grid := [3; 3; 2; 1;  6; 6; 0; 0;  12; 0; 0; 0;  3; 0; 0; 0].

(** Slides 1 and 2 are legal with reward 3, slides 0 and 3 are not. *)
Definition two_slides : Slider grid :=
  {| slide := fun b op =>
       if op =? 1 then (board1, 3)
       else if op =? 2 then (board2, 3)
       else (b, -1);
     board_default := [] |}.


(** No slide is legal. *)
Definition no_slide : Slider grid :=
  {| slide := fun b op => (b, -1); board_default := [] |}.

Definition zero_net : network := fun _ _ => 0%Q.

Definition episode3 : list (@state grid) :=
  [ {| after := board0; reward := 0 |};
    {| after := board1; reward := 3 |};
    {| after := board2; reward := 6 |} ].

Lemma grid_in_range (b : grid) :
  forallb (fun c => (0 <=? c) && (c <? 16)) b = true ->
  board_in_range b.
Proof.
  intros H pos _. cbn. unfold grid_at.
  rewrite forallb_forall in H.
  destruct (nth_in_or_default (Z.to_nat pos) b 0) as [Hin | ->]; [| lia].
  apply H in Hin. apply andb_true_iff in Hin. lia.
Qed.

(** Row 0 of [network_index] on [board0]: the cells 0, 1, 2, 4, 5, 6
    hold 3, 3, 0, 6, 0, 2. *)
Example evaluate_feature_board0 :
  evaluate_feature board0 (pattern 0) = 0x330602.
Proof. reflexivity. Qed.

(** Row 26 has five cells in the initializer; the sixth is cell 0. *)
Example pattern_26 : pattern_cells (pattern 26) = [5; 8; 9; 10; 15; 0].
Proof. reflexivity. Qed.

Example take_action_two_slides :
  take_action (S := two_slides) zero_net [] board0
  = (action_slide 1, [ {| after := board1; reward := 3 |} ]).
Proof. vm_compute. reflexivity. Qed.

Example close_episode_calls :
  map fst (snd (close_episode (1 # 640) episode3 zero_net))
  = [board2; board1; board0].
Proof. vm_compute. reflexivity. Qed.

Lemma feature_index_roundtrip_witness :
  cells_in_range board0 (pattern 0)
  /\ decode_feature (evaluate_feature board0 (pattern 0)) = [3; 3; 0; 6; 0; 2].
Proof.
  assert (H : cells_in_range board0 (pattern 0)).
  { apply board_cells_in_range; [now apply grid_in_range | lia]. }
  split; [exact H |].
  exact (proj1 (proj2 (feature_index_roundtrip board0 (pattern 0) H))).
Defined.

Lemma table_access_in_range_witness :
  board_in_range board0
  /\ 0 <= evaluate_feature board0 (pattern 26) < table_size.
Proof.
  assert (H : board_in_range board0) by now apply grid_in_range.
  split; [exact H |].
  apply (proj1 (table_access_in_range board0 H) 26). lia.
Defined.




Lemma take_action_no_legal_move_witness :
  take_action (S := no_slide) zero_net episode3 board0
  = (action_slide (-1), episode3).
Proof.
  apply (take_action_no_legal_move (S := no_slide) zero_net episode3 board0).
  intros op _. reflexivity.
Defined.

Lemma close_episode_sweep_witness :
  length (snd (close_episode (1 # 640) episode3 zero_net)) = 3%nat.
Proof.
  apply (proj2 (close_episode_sweep (1 # 640) episode3 zero_net)).
  cbn. lia.
Defined.



(** *** The other players on the concrete board *)

(** An engine that reverses what it is given to shuffle. *)
Lemma reversed_perm (A : Type) (g : unit) (l : list A) :
  Permutation (fst (rev l, g)) l.
Proof. cbn. apply Permutation_sym, Permutation_rev. Qed.

#[export] Instance reversing_engine : Engine unit :=
  {| shuffle := fun A g l => (rev l, g); shuffle_perm := reversed_perm |}.

(** The engine tries slide 3 first, then 2, which is legal. *)
Example random_slider_two_slides :
  random_slider_take_action (S := two_slides) tt [0; 1; 2; 3] board0
  = (action_slide 2, [3; 2; 1; 0], tt).
Proof. reflexivity. Qed.

(** Slide 1 yields 3 and can be followed by a slide that yields 3. *)
Example my_player_two_slides :
  my_player_take_action (S := two_slides) board0 = action_slide 1.
Proof. reflexivity. Qed.

(** Slide 1 is legal on [board0], with reward 1, and no slide is legal
    after it. *)
Definition dead_end : Slider grid :=
  {| slide := fun b op =>
       if (op =? 1) && (grid_at b 0 =? 3) then (board1, 1) else (b, -1);
     board_default := [] |}.

(** Slide 0, illegal on [board0], scores -1 + 1 there, as slide 1 may
    follow it; slide 1 scores 1 + -1, which is not more: the slide
    returned is the illegal one. *)
Example my_player_dead_end :
  my_player_take_action (S := dead_end) board0 = action_slide 0
  /\ snd (slide (Slider := dead_end) board0 0) = -1
  /\ snd (slide (Slider := dead_end) board0 1) = 1.
Proof. repeat split. Qed.

Lemma random_slider_legal_witness :
  exists (a : action) (opcode' : list Z),
    random_slider_take_action (S := two_slides) tt [0; 1; 2; 3] board0
    = (a, opcode', tt).
Proof.
  destruct (random_slider_legal (S := two_slides) tt [0; 1; 2; 3] board0
              (Permutation_refl _))
    as (a & opcode' & g' & Hact & _).
  exists a, opcode'. destruct g'. exact Hact.
Defined.

Lemma my_player_no_move_witness :
  my_player_take_action (S := no_slide) board0 = action_default.
Proof.
  apply (my_player_no_move (S := no_slide) board0).
  intros op _. reflexivity.
Defined.

(** The boards with tile code 0, and with tile code 1, on every cell:
    the patterns address index 0 on the first and index [0x111111] on
    the second. *)
Definition board_zeros : grid := repeat 0 16.
Definition board_ones : grid := repeat 1 16.

Lemma train_weights_frame_witness :
  evaluate_score (train_weights (1 # 640) zero_net board_zeros 1) board_ones
  = evaluate_score zero_net board_ones.
Proof.
  apply (proj1 (proj2 (train_weights_frame (1 # 640) zero_net board_zeros 1))).
  assert (H0 : Forall (fun e => snd e = 0) (entries board_zeros))
    by (vm_compute; repeat constructor).
  assert (H1 : Forall (fun e => snd e = 1118481) (entries board_ones))
    by (vm_compute; repeat constructor).
  intros e Hin1 Hin0.
  rewrite Forall_forall in H0, H1.
  specialize (H0 e Hin0). specialize (H1 e Hin1). congruence.
Defined.

(** A board given by its cells, with what the placer reads beside:
    the last slide, the bag and the hint. *)
Record bagged := {
  bagged_cells : grid;
  bagged_last : Z;
  bagged_bag : Z -> nat;
  bagged_hint : Z
}.

#[export] Instance bagged_board : Board bagged :=
  {| cell_at := fun b i => grid_at (bagged_cells b) i |}.

#[export] Instance bagged_placer : Placer bagged :=
  {| last := bagged_last; bag := bagged_bag; hint := bagged_hint |}.

(** [board0] after a slide to the left, a 2 and a 3 in the bag and the
    hint 1. *)
Definition bagged0 : bagged :=
  {| bagged_cells := board0; bagged_last := 3;
     bagged_bag := fun t => if (t =? 1) then 0%nat else 1%nat;
     bagged_hint := 1 |}.

(** The cells 15, 11, 7, 3 are tried in this order; 15 is empty, the
    hint 1 is placed and the next hint is the 2 of the bag. *)
Example random_placer_bagged0 :
  random_placer_take_action tt bagged0 = Some (placement_place 15 1 2, tt).
Proof. reflexivity. Qed.

Lemma random_placer_places_witness :
  exists (a : placement),
    random_placer_take_action tt bagged0 = Some (a, tt).
Proof.
  assert (Hlast : 0 <= last bagged0 <= 4) by (cbn; lia).
  pose proof (random_placer_places tt bagged0 Hlast) as H.
  destruct (random_placer_take_action tt bagged0) as [[a []]|] eqn:Hrun.
  - now exists a.
  - exfalso. destruct H as [_ [Hbig|Hfew]]; [cbn in Hbig|cbn in Hfew]; lia.
Defined.

(** Two calls on [board0] with slides 1 and 2 legal record slide 1
    twice. *)
Example play_two_slides :
  play (S := two_slides) zero_net open_episode [board0; board0]
  = [ {| after := board1; reward := 3 |}; {| after := board1; reward := 3 |} ].
Proof. reflexivity. Qed.

End Tuple.

Module MCTS.

Local Open Scope nat_scope.

(** ** What the player uses of board.h and action.h *)

(** The values of [board::piece_type] the player names. *)
Inductive piece_type := black | white | empty.

Definition piece_eqb (a b : piece_type) : bool :=
  match a, b with
  | black, black | white, white | empty, empty => true
  | _, _ => false
  end.

(** [action::place(position, piece)]. *)
Record place := { position : nat; piece : piece_type }.

(** [action()] and a placement seen as an action. *)
Inductive action :=
| action_default
| action_place (move : place).

(** [cells] is [board::size_x * board::size_y]; [apply_place move b] is
    [move.apply(b)]: the board after a legal placement, [None] when the
    result is not [board::legal]. *)
Class Board (board : Type) := {
  cells : nat;
  apply_place : place -> board -> option board
}.

(** A placement game that ends: a legal placement fills an empty cell. *)
Class Filling (board : Type) {B : Board board} := {
  empty_cells : board -> nat;
  apply_place_fills :
    forall move b b',
      apply_place move b = Some b' -> (empty_cells b' < empty_cells b)%nat
}.

(** [std::shuffle(first, last, engine)] on [std::default_random_engine]:
    the shuffled sequence and the engine afterwards. *)
Class Engine (engine : Type) := {
  shuffle : forall {A : Type}, engine -> list A -> list A * engine;
  shuffle_perm :
    forall (A : Type) (g : engine) (l : list A),
      Permutation (fst (shuffle g l)) l
}.

(** Storing a [double] in a [float]: monotone, and exact on the integers
    up to [2^24]. *)
Class Rounding := {
  to_float : R -> R;
  to_float_mono : forall x y : R, (x <= y)%R -> (to_float x <= to_float y)%R;
  to_float_int :
    forall z : Z, (Z.abs z <= 2 ^ 24)%Z -> to_float (IZR z) = IZR z
}.

(** [clock()] read for the [k]-th time, and [CLOCKS_PER_SEC]. *)
Class Clock := {
  clock : nat -> Z;
  CLOCKS_PER_SEC : Z
}.

(** ** The player *)

(** [who] and [opponent] of [mcts_player]. *)
Record player := { who : piece_type; opponent : piece_type }.

(** The constructor, from [role()]; [None] when it throws
    [invalid_argument] for the role.  The test on [name()] does not bear
    on the search and is left out. *)
Definition mcts_player (role : String.string) : option player :=
  let p := {| who := empty; opponent := empty |} in
  let p := if String.eqb role "black"
           then {| who := black; opponent := white |} else p in
  let p := if String.eqb role "white"
           then {| who := white; opponent := black |} else p in
  if piece_eqb (who p) empty then None else Some p.

Definition my_opponent (myself : piece_type) : piece_type :=
  if piece_eqb myself black then white else black.

Section Search.

Context {board : Type} {B : Board board}.
Context {engine : Type} {E : Engine engine}.
Context {F : Rounding}.

(** [space] and [myop_space]: one placement per cell. *)
Definition space (pl : player) : list place :=
  map (fun i => {| position := i; piece := who pl |}) (seq 0 cells).

Definition myop_space (pl : player) : list place :=
  map (fun i => {| position := i; piece := opponent pl |}) (seq 0 cells).

(** *** Nodes

    A [node*] is an index into the list of the nodes allocated so far;
    a [new node] is put at its end. *)
Record node := {
  parent : option nat;
  childrens : list nat;
  wi : Z;
  si : Z;
  isleaf : bool;
  state : board;
  self : piece_type;
  move_placed : action;
  is_terminal : bool
}.

Definition tree := list node.

(** [node(p, s, me)] with the member initializers. *)
Definition new_node (p : option nat) (s : board) (me : piece_type) : node :=
  {| parent := p; childrens := []; wi := 0%Z; si := 0%Z; isleaf := true;
     state := s; self := me; move_placed := action_default;
     is_terminal := false |}.

(** [*current = n]. *)
Fixpoint set_node (t : tree) (current : nat) (n : node) : tree :=
  match t, current with
  | [], _ => []
  | _ :: t, O => n :: t
  | m :: t, S i => m :: set_node t i n
  end.

Definition set_move (n : node) (a : action) : node :=
  {| parent := parent n; childrens := childrens n; wi := wi n; si := si n;
     isleaf := isleaf n; state := state n; self := self n;
     move_placed := a; is_terminal := is_terminal n |}.

Definition set_terminal (n : node) : node :=
  {| parent := parent n; childrens := childrens n; wi := wi n; si := si n;
     isleaf := isleaf n; state := state n; self := self n;
     move_placed := move_placed n; is_terminal := true |}.

(** [childrens] replaced and [isleaf=false]. *)
Definition set_childrens (n : node) (cs : list nat) : node :=
  {| parent := parent n; childrens := cs; wi := wi n; si := si n;
     isleaf := false; state := state n; self := self n;
     move_placed := move_placed n; is_terminal := is_terminal n |}.

(** [wi+=score; si++]. *)
Definition visit (n : node) (score : Z) : node :=
  {| parent := parent n; childrens := childrens n;
     wi := (wi n + score)%Z; si := (si n + 1)%Z;
     isleaf := isleaf n; state := state n; self := self n;
     move_placed := move_placed n; is_terminal := is_terminal n |}.

(** *** Selection *)

(** [float exploration_c=0.8]. *)
Definition exploration_c : R := to_float (8 / 10).

(** [child->parent->si]. *)
Definition parent_si (t : tree) (child : node) : Z :=
  match parent child with
  | Some p => match nth_error t p with Some pn => si pn | None => 0%Z end
  | None => 0%Z
  end.

Definition best_child (pl : player) (t : tree) (child : node) : R :=
  if piece_eqb (who pl) (self child) then
    if (si child =? 0)%Z then 1000000%R
    else (IZR (wi child) / IZR (si child)
          + exploration_c
            * sqrt (ln (IZR (parent_si t child)) / IZR (si child)))%R
  else
    if (si child =? 0)%Z then 1000000%R
    else ((1 - IZR (wi child) / IZR (si child))
          + exploration_c
            * sqrt (ln (IZR (parent_si t child)) / IZR (si child)))%R.

(** The loop over [current->childrens] from turn [i] on, with the
    locals [best] and [best_index]. *)
Fixpoint best_index_from (pl : player) (t : tree) (cs : list nat) (i : nat)
         (best : R) (best_index : nat) : nat :=
  match cs with
  | [] => best_index
  | c :: cs =>
      match nth_error t c with
      | Some child =>
          if Rlt_dec best (best_child pl t child)
          then best_index_from pl t cs (S i)
                 (to_float (best_child pl t child)) i
          else best_index_from pl t cs (S i) best best_index
      | None => best_index_from pl t cs (S i) best best_index
      end
  end.

Definition best_index (pl : player) (t : tree) (cs : list nat) : nat :=
  best_index_from pl t cs 0 0%R 0.

(** [selection]: [fuel] bounds the turns of [while(!current->isleaf)];
    [None] when it runs out or a pointer is not a node. *)
Fixpoint selection (fuel : nat) (pl : player) (t : tree) (current : nat)
  : option nat :=
  match fuel with
  | O => None
  | S fuel =>
      match nth_error t current with
      | None => None
      | Some n =>
          if isleaf n then Some current
          else
            match nth_error (childrens n) (best_index pl t (childrens n)) with
            | Some c => selection fuel pl t c
            | None => None
            end
      end
  end.

(** *** Expansion *)

(** The nodes one loop of [expand] allocates: a child for every cell
    [i < count] where the placement of [op] is legal on [s]. *)
Definition new_nodes (current : nat) (s : board) (op : piece_type) (count : nat)
  : list node :=
  flat_map
    (fun i =>
       let placement := {| position := i; piece := op |} in
       match apply_place placement s with
       | Some temp =>
           [ set_move (new_node (Some current) temp op) (action_place placement) ]
       | None => []
       end)
    (seq 0 count).

(** [expand]: the nodes, the engine and the node returned. *)
Definition expand (pl : player) (g : engine) (t : tree) (current : nat)
  : option (tree * engine * nat) :=
  match nth_error t current with
  | None => None
  | Some n =>
      if is_terminal n then Some (t, g, current)
      else
        let op := my_opponent (self n) in
        let count :=
          if piece_eqb op (who pl) then length (space pl)
          else length (myop_space pl) in
        let added := new_nodes current (state n) op count in
        let cs := childrens n ++ seq (length t) (length added) in
        match cs with
        | [] => Some (set_node t current (set_terminal n), g, current)
        | _ :: _ =>
            let (shuffled, g') := shuffle g cs in
            match shuffled with
            | front :: _ =>
                Some (set_node (t ++ added) current (set_childrens n shuffled),
                      g', front)
            | [] => None
            end
        end
  end.

(** *** Rollout *)

(** The scan [for (move : *current_space)]: the board after the first
    legal move, if there is one. *)
Fixpoint first_legal (current_space : list place) (temp : board) : option board :=
  match current_space with
  | [] => None
  | move :: rest =>
      match apply_place move temp with
      | Some temp' => Some temp'
      | None => first_legal rest temp
      end
  end.

(** The loop [while(1)] of [rollout]; [fuel] bounds its turns. *)
Fixpoint rollout_loop (fuel : nat) (pl : player) (my_space op_space : list place)
         (temp : board) (myop : piece_type) : option Z :=
  match fuel with
  | O => None
  | S fuel =>
      let current_space :=
        if piece_eqb myop (who pl) then my_space else op_space in
      let next := if piece_eqb myop (who pl) then opponent pl else who pl in
      match first_legal current_space temp with
      | Some temp' => rollout_loop fuel pl my_space op_space temp' next
      | None => Some (if piece_eqb myop (who pl) then 0%Z else 1%Z)
      end
  end.

(** [rollout]: the score, the two shuffled spaces and the engine. *)
Definition rollout (fuel : nat) (pl : player) (g : engine) (current : node)
           (my_space op_space : list place)
  : option (Z * list place * list place * engine) :=
  let myop := my_opponent (self current) in
  let (my_space', g1) := shuffle g my_space in
  let (op_space', g2) := shuffle g1 op_space in
  if is_terminal current
  then Some (if piece_eqb (who pl) myop then 0%Z else 1%Z,
             my_space', op_space', g2)
  else
    match rollout_loop fuel pl my_space' op_space' (state current) myop with
    | Some score => Some (score, my_space', op_space', g2)
    | None => None
    end.

(** *** Backpropagation *)

(** [backpropogation]: [fuel] bounds the turns of
    [while(current!=nullptr)]. *)
Fixpoint backpropogation (fuel : nat) (t : tree) (current : option nat)
         (score : Z) : option tree :=
  match current with
  | None => Some t
  | Some c =>
      match fuel with
      | O => None
      | S fuel =>
          match nth_error t c with
          | None => None
          | Some n =>
              backpropogation fuel (set_node t c (visit n score)) (parent n) score
          end
      end
  end.

(** *** The search loop *)

(** The nodes, the engine, the locals [my_space] and [opponent_space] of
    [take_action], and the nodes passed to [backpropogation] so far. *)
Record search := {
  nodes : tree;
  rng : engine;
  my_space : list place;
  opponent_space : list place;
  leaves : list nat
}.

(** One turn of the loop body: selection, expansion, rollout,
    backpropagation. *)
Definition iteration (rollout_fuel : nat) (pl : player) (st : search)
  : option search :=
  match selection (length (nodes st)) pl (nodes st) 0 with
  | None => None
  | Some best_leaf =>
      match expand pl (rng st) (nodes st) best_leaf with
      | None => None
      | Some (t, g, new_leaf) =>
          match nth_error t new_leaf with
          | None => None
          | Some n =>
              match rollout rollout_fuel pl g n (my_space st) (opponent_space st) with
              | None => None
              | Some (score, ms, os, g') =>
                  match backpropogation (length t) t (Some new_leaf) score with
                  | None => None
                  | Some t' =>
                      Some {| nodes := t'; rng := g'; my_space := ms;
                              opponent_space := os;
                              leaves := leaves st ++ [new_leaf] |}
                  end
              end
          end
      end
  end.

(** [n] turns of the loop body. *)
Fixpoint iterations (rollout_fuel : nat) (pl : player) (n : nat) (st : search)
  : option search :=
  match n with
  | O => Some st
  | S n =>
      match iteration rollout_fuel pl st with
      | Some st' => iterations rollout_fuel pl n st'
      | None => None
      end
  end.

(** The state [take_action] enters its loop with. *)
Definition search_init (pl : player) (g : engine) (s : board) : search :=
  {| nodes := [ new_node None s (opponent pl) ];
     rng := g;
     my_space := space pl;
     opponent_space := myop_space pl;
     leaves := [] |}.

(** The loop after the search: the move of the child of the root with
    the most visits. *)
Fixpoint best_move_from (t : tree) (cs : list nat) (bestcount : Z)
         (best_move : action) : action :=
  match cs with
  | [] => best_move
  | c :: cs =>
      match nth_error t c with
      | Some child =>
          if (si child >? bestcount)%Z
          then best_move_from t cs (si child) (move_placed child)
          else best_move_from t cs bestcount best_move
      | None => best_move_from t cs bestcount best_move
      end
  end.

Definition best_move (t : tree) : action :=
  match nth_error t 0 with
  | Some root => best_move_from t (childrens root) (-1)%Z action_default
  | None => action_default
  end.

Section Timed.

Context {C : Clock}.

(** [(end-start)/CLOCKS_PER_SEC>0.999999], the quotient being one of
    integers. *)
Definition expired (start end_ : Z) : bool :=
  (1 <=? Z.quot (end_ - start) CLOCKS_PER_SEC)%Z.

(** The loop [while(1)] of [take_action]: [fuel] bounds its turns,
    [checks] counts the readings of the clock so far. *)
Fixpoint search_loop (fuel rollout_fuel : nat) (pl : player) (start : Z)
         (simulation_count : Z) (checks : nat) (st : search) : option search :=
  match fuel with
  | O => None
  | S fuel =>
      let simulation_count := (simulation_count + 1)%Z in
      match iteration rollout_fuel pl st with
      | None => None
      | Some st' =>
          if (Z.rem simulation_count 500 =? 0)%Z then
            if expired start (clock checks) then Some st'
            else search_loop fuel rollout_fuel pl start simulation_count
                   (S checks) st'
          else search_loop fuel rollout_fuel pl start simulation_count checks st'
      end
  end.

Definition take_action (fuel rollout_fuel : nat) (pl : player) (g : engine)
           (s : board) : option action :=
  let start := clock 0 in
  match search_loop fuel rollout_fuel pl start 0%Z 1 (search_init pl g s) with
  | Some st => Some (best_move (nodes st))
  | None => None
  end.

End Timed.

End Search.

(** *** The random player *)

Section RandomPlayer.

Context {board : Type} {B : Board board}.
Context {engine : Type} {E : Engine engine}.

(** The scan [for (move : space)] of [player::take_action]. *)
Fixpoint first_legal_move (space : list place) (state : board) : action :=
  match space with
  | [] => action_default
  | move :: rest =>
      match apply_place move state with
      | Some _ => action_place move
      | None => first_legal_move rest state
      end
  end.

(** [player::take_action]: the action, and the member [space] and the
    engine afterwards. *)
Definition player_take_action (g : engine) (space : list place) (state : board)
  : action * list place * engine :=
  let (space', g') := shuffle g space in
  (first_legal_move space' state, space', g').

End RandomPlayer.

(** *** Deleting the nodes *)

(** [deletenode]: [deleted] lists the nodes deleted so far, last first.
    [fuel] bounds the depth of the recursion; [None] when it runs out,
    when a pointer is not a node, or when the call reads or deletes a
    node that is deleted already. *)
Fixpoint deletenode {board : Type} (fuel : nat) (t : list (@node board))
         (deleted : list nat) (current : nat) : option (list nat) :=
  match fuel with
  | O => None
  | S fuel =>
      if existsb (Nat.eqb current) deleted then None
      else
        match nth_error t current with
        | None => None
        | Some n =>
            match
              fold_left
                (fun acc c =>
                   match acc with
                   | Some d => deletenode fuel t d c
                   | None => None
                   end)
                (childrens n) (Some deleted)
            with
            | Some d =>
                if existsb (Nat.eqb current) d then None
                else Some (current :: d)
            | None => None
            end
        end
  end.

(** ** Definitions used in the statements *)

(** The side to act at a node: the one whose placements [expand] tries
    on the node's board and that [rollout] lets move first.  [self] is
    the other side, the one that placed the move leading to the node. *)
Definition to_move {board : Type} (n : @node board) : piece_type :=
  my_opponent (self n).

(** The nodes [backpropogation] walks from [current]: the node, its
    parent, and so on to the root. *)
Fixpoint path {board : Type} (fuel : nat) (t : list (@node board))
         (current : option nat) : list nat :=
  match current, fuel with
  | Some c, S fuel =>
      match nth_error t c with
      | Some n => c :: path fuel t (parent n)
      | None => []
      end
  | _, _ => []
  end.

(** Node [x] is on the walk from [leaf] to the root. *)
Definition on_path {board : Type} (t : list (@node board)) (leaf x : nat) : bool :=
  existsb (Nat.eqb x) (path (S leaf) t (Some leaf)).

(** Number of walks, among those started at [ls], that pass node [x]. *)
Definition walks_through {board : Type} (t : list (@node board))
           (ls : list nat) (x : nat) : nat :=
  length (filter (fun leaf => on_path t leaf x) ls).

(** A parent is allocated before its children. *)
Definition parents_before {board : Type} (t : list (@node board)) : Prop :=
  forall i n p, nth_error t i = Some n -> parent n = Some p -> p < i.

(** The shape of the nodes of a search: the root is node 0 and the only
    node without a parent, children are nodes allocated after their
    parent, a node that is no leaf has children, and no node has more
    wins than visits. *)
Record wf_node {board : Type} (t : list (@node board)) (i : nat) (n : @node board)
  : Prop := {
  wf_parent : match parent n with None => i = 0 | Some p => p < i end;
  wf_childrens : Forall (fun c => i < c < length t) (childrens n);
  wf_inner : isleaf n = false -> childrens n <> [];
  wf_counters : (0 <= wi n <= si n)%Z
}.

Definition wf_tree {board : Type} (t : list (@node board)) : Prop :=
  t <> [] /\ forall i n, nth_error t i = Some n -> wf_node t i n.

(** What holds of a search between two turns of its loop: the nodes are
    well-formed, no board has more than [bound] empty cells, the walks
    recorded started at nodes, and the visits of a node count the walks
    through it. *)
Definition search_inv {board : Type} {B : Board board} {Fl : Filling board}
           {engine : Type} (bound : nat) (st : @search board engine) : Prop :=
  wf_tree (nodes st)
  /\ (forall x n, nth_error (nodes st) x = Some n ->
                  empty_cells (state n) <= bound)
  /\ Forall (fun leaf => leaf < length (nodes st)) (leaves st)
  /\ (forall x n, nth_error (nodes st) x = Some n ->
                  si n = Z.of_nat (walks_through (nodes st) (leaves st) x)).


(** *** The nodes against the rules of the game *)

(** What a node of a search keeps about the game: a leaf has no
    children; the children are distinct nodes that name the node as
    their parent and carry distinct moves; a node with a parent is
    listed by it and holds the board after a legal placement, on the
    parent's board, by the side to act there; a node marked terminal is
    a leaf where the side to act has no legal placement; a node that is
    no leaf has a child for every legal placement. *)
Record game_node {board : Type} {B : Board board} (t : list (@node board))
       (i : nat) (n : @node board) : Prop := {
  gn_leaf : isleaf n = true -> childrens n = [];
  gn_nodup : NoDup (childrens n);
  gn_child :
    forall c, In c (childrens n) ->
              exists m, nth_error t c = Some m /\ parent m = Some i;
  gn_placed :
    forall p, parent n = Some p ->
              exists pn mv,
                nth_error t p = Some pn /\ In i (childrens pn)
                /\ move_placed n = action_place mv
                /\ piece mv = to_move pn /\ position mv < cells
                /\ self n = to_move pn
                /\ apply_place mv (state pn) = Some (state n);
  gn_distinct :
    forall c1 c2 m1 m2,
      In c1 (childrens n) -> In c2 (childrens n) ->
      nth_error t c1 = Some m1 -> nth_error t c2 = Some m2 ->
      move_placed m1 = move_placed m2 -> c1 = c2;
  gn_terminal :
    is_terminal n = true ->
    isleaf n = true
    /\ forall j, j < cells ->
                 apply_place {| position := j; piece := to_move n |} (state n)
                 = None;
  gn_complete :
    isleaf n = false ->
    forall j b', j < cells ->
      apply_place {| position := j; piece := to_move n |} (state n) = Some b' ->
      exists c m, In c (childrens n) /\ nth_error t c = Some m
                  /\ move_placed m
                     = action_place {| position := j; piece := to_move n |}
}.

(** The nodes of a search for [pl] on board [s]: the root holds [s] with
    [pl] to act, and every node agrees with the game. *)
Definition game_tree {board : Type} {B : Board board} (pl : player) (s : board)
           (t : list (@node board)) : Prop :=
  (exists root, nth_error t 0 = Some root /\ state root = s
                /\ self root = opponent pl)
  /\ forall i n, nth_error t i = Some n -> game_node t i n.

(** Two nodes that differ in their counters at most. *)
Definition same_game {board : Type} (n n' : @node board) : Prop :=
  parent n' = parent n /\ childrens n' = childrens n /\ isleaf n' = isleaf n
  /\ state n' = state n /\ self n' = self n
  /\ move_placed n' = move_placed n /\ is_terminal n' = is_terminal n.

(** Nodes [t'] that keep, of every node of [t], the parent, the board,
    the side and the move, and at least its children. *)
Definition extends {board : Type} (t t' : list (@node board)) : Prop :=
  forall x m,
    nth_error t x = Some m ->
    exists m', nth_error t' x = Some m'
               /\ parent m' = parent m /\ incl (childrens m) (childrens m')
               /\ state m' = state m /\ self m' = self m
               /\ move_placed m' = move_placed m.

(** What holds of a search for [pl] on board [s] between two turns of
    its loop, beside [search_inv]: the nodes agree with the game, the
    two spaces still hold one placement per cell, and after the first
    turn the root is expanded or terminal. *)
Definition game_search {board : Type} {B : Board board} {engine : Type}
           (pl : player) (s : board) (st : @search board engine) : Prop :=
  game_tree pl s (nodes st)
  /\ Permutation (my_space st) (space pl)
  /\ Permutation (opponent_space st) (myop_space pl)
  /\ (leaves st <> [] ->
      exists root, nth_error (nodes st) 0 = Some root
                   /\ (isleaf root = false \/ is_terminal root = true)).

(** The cells where [op] may place on [s], in increasing order. *)
Definition legal_cells {board : Type} {B : Board board} (s : board)
           (op : piece_type) : list nat :=
  filter (fun i =>
            match apply_place {| position := i; piece := op |} s with
            | Some _ => true
            | None => false
            end)
         (seq 0 cells).

(** ** UCB1 selection *)

(** Largest [int]. *)
Definition int_max : Z := (2 ^ 31 - 1)%Z.

(** The counters of a visited child, as [backpropogation] leaves them:
    at least one visit, no more wins than visits, and a parent visited
    at least once. *)
Definition visited {board : Type} (t : list (@node board)) (child : @node board)
  : Prop :=
  (1 <= si child <= int_max)%Z
  /\ (0 <= wi child <= si child)%Z
  /\ (1 <= parent_si t child <= int_max)%Z.

Lemma ln_nonneg_le (x : R) : (1 <= x)%R -> (0 <= ln x <= x)%R.
Proof.
  intros Hx. split.
  - destruct (Rle_lt_or_eq_dec 1 x Hx) as [Hlt | <-].
    + rewrite <- ln_1. left. apply ln_increasing; lra.
    + rewrite ln_1. lra.
  - pose proof (exp_ineq1 x ltac:(lra)) as Hexp.
    assert (Hln : (ln x < ln (exp x))%R) by (apply ln_increasing; lra).
    rewrite ln_exp in Hln. lra.
Qed.

Lemma sqrt_le_65536 (x : R) : (0 <= x <= 4294967296)%R -> (0 <= sqrt x <= 65536)%R.
Proof.
  intros [H0 H1]. split; [apply sqrt_pos |].
  replace 65536%R with (sqrt (65536 * 65536)) by (apply sqrt_square; lra).
  apply sqrt_le_1_alt. lra.
Qed.

Lemma ratio_bounds (w s : R) : (0 <= w <= s)%R -> (1 <= s)%R -> (0 <= w / s <= 1)%R.
Proof.
  intros Hw Hs.
  assert (Hinv : (0 < / s)%R) by (apply Rinv_0_lt_compat; lra).
  assert (Hone : (s * / s = 1)%R) by (apply Rinv_r; lra).
  unfold Rdiv. split; nra.
Qed.

Lemma explore_bounds (n s : R) :
  (1 <= n <= 2147483647)%R -> (1 <= s)%R -> (0 <= sqrt (ln n / s) <= 65536)%R.
Proof.
  intros Hn Hs. apply sqrt_le_65536.
  pose proof (ln_nonneg_le n ltac:(lra)) as Hln.
  assert (Hinv : (0 < / s <= 1)%R).
  { split; [apply Rinv_0_lt_compat; lra |].
    rewrite <- Rinv_1. apply Rinv_le_contravar; lra. }
  unfold Rdiv. split; nra.
Qed.

(** The two sides of a player the constructor accepts. *)
Lemma mcts_player_sides (role : String.string) (pl : player) :
  mcts_player role = Some pl ->
  my_opponent (opponent pl) = who pl /\ my_opponent (who pl) = opponent pl.
Proof.
  unfold mcts_player.
  destruct (String.eqb role "black"), (String.eqb role "white"); cbn;
    intros H; try discriminate; injection H as <-; now split.
Qed.

Lemma mcts_player_eqb (role : String.string) (pl : player) :
  mcts_player role = Some pl ->
  piece_eqb (who pl) (who pl) = true /\ piece_eqb (who pl) (opponent pl) = false.
Proof.
  unfold mcts_player.
  destruct (String.eqb role "black"), (String.eqb role "white"); cbn;
    intros H; try discriminate; injection H as <-; now split.
Qed.

Section SelectionProofs.

Context {board : Type} {F : Rounding}.

#[local] Abbreviation node := (@node board).
#[local] Abbreviation tree := (@tree board).

Lemma to_float_0 : to_float 0 = 0%R.
Proof. apply (to_float_int 0). cbn. lia. Qed.

Lemma to_float_1 : to_float 1 = 1%R.
Proof. apply (to_float_int 1). cbn. lia. Qed.

Lemma to_float_65537 : to_float 65537 = 65537%R.
Proof. apply (to_float_int 65537). cbn. lia. Qed.

Lemma to_float_sentinel : to_float 1000000 = 1000000%R.
Proof. apply (to_float_int 1000000). cbn. lia. Qed.

Lemma exploration_c_bounds : (0 <= exploration_c <= 1)%R.
Proof.
  unfold exploration_c. split.
  - rewrite <- to_float_0. apply to_float_mono. lra.
  - rewrite <- to_float_1. apply to_float_mono. lra.
Qed.

Lemma best_child_unvisited (pl : player) (t : tree) (child : node) :
  si child = 0%Z -> best_child pl t child = 1000000%R.
Proof.
  intros H0. unfold best_child. rewrite H0. cbn.
  now destruct (piece_eqb (who pl) (self child)).
Qed.

Lemma best_child_visited (pl : player) (t : tree) (child : node) :
  visited t child -> (0 <= best_child pl t child <= 65537)%R.
Proof.
  intros (Hs & Hw & Hp). unfold int_max in *.
  assert (HsR : (1 <= IZR (si child))%R) by (apply IZR_le; lia).
  assert (HwR : (0 <= IZR (wi child) <= IZR (si child))%R)
    by (split; apply IZR_le; lia).
  assert (HpR : (1 <= IZR (parent_si t child) <= 2147483647)%R)
    by (split; apply IZR_le; lia).
  pose proof (ratio_bounds _ _ HwR HsR) as Hratio.
  pose proof (explore_bounds _ _ HpR HsR) as Hexp.
  pose proof exploration_c_bounds as Hc.
  unfold best_child.
  destruct (Z.eqb_spec (si child) 0) as [E | _]; [lia |].
  destruct (piece_eqb (who pl) (self child)); split; nra.
Qed.

(** Children that do not score above [best] leave the locals alone. *)
Lemma best_index_from_keep (pl : player) (t : tree) (cs : list nat) (i : nat)
      (best : R) (bi : nat) :
  (forall c child, In c cs -> nth_error t c = Some child ->
                   (best_child pl t child <= best)%R) ->
  best_index_from pl t cs i best bi = bi.
Proof.
  revert i. induction cs as [| c cs IH]; intros i H; cbn; [reflexivity |].
  destruct (nth_error t c) as [child |] eqn:Ec.
  - destruct (Rlt_dec best (best_child pl t child)) as [Hlt | _].
    + pose proof (H c child (or_introl eq_refl) Ec). lra.
    + apply IH. intros c' child' Hin. apply H. now right.
  - apply IH. intros c' child' Hin. apply H. now right.
Qed.

(** The loop reaches the first unvisited child with [best] below the
    sentinel and keeps that child to the end. *)
Lemma best_index_from_unvisited (pl : player) (t : tree) (pre post : list nat)
      (zc : nat) (z : node) (i : nat) (best : R) (bi : nat) :
  (best <= 65537)%R ->
  (forall c, In c pre -> exists child, nth_error t c = Some child /\ visited t child) ->
  nth_error t zc = Some z -> si z = 0%Z ->
  (forall c child, In c post -> nth_error t c = Some child ->
                   si child = 0%Z \/ visited t child) ->
  best_index_from pl t (pre ++ zc :: post) i best bi = i + length pre.
Proof.
  revert i best bi. induction pre as [| c pre IH]; intros i best bi Hb Hpre Hz Hz0 Hpost.
  - cbn [app best_index_from length]. rewrite Hz.
    rewrite (best_child_unvisited pl t z Hz0).
    destruct (Rlt_dec best 1000000) as [_ | Hn]; [| lra].
    rewrite to_float_sentinel.
    rewrite best_index_from_keep; [lia |].
    intros c child Hin Hc.
    destruct (Hpost c child Hin Hc) as [H0 | Hv].
    + rewrite (best_child_unvisited pl t child H0). lra.
    + pose proof (best_child_visited pl t child Hv). lra.
  - cbn [app best_index_from length].
    destruct (Hpre c (or_introl eq_refl)) as (child & Hc & Hv).
    rewrite Hc.
    pose proof (best_child_visited pl t child Hv) as Hscore.
    assert (Hpre' : forall c', In c' pre ->
              exists child', nth_error t c' = Some child' /\ visited t child')
      by (intros c' Hin; apply Hpre; now right).
    destruct (Rlt_dec best (best_child pl t child)) as [_ | _].
    + rewrite IH; [lia | | assumption ..].
      rewrite <- to_float_65537. apply to_float_mono. lra.
    + rewrite IH; [lia | assumption ..].
Qed.

(** C2 (as amended). For a child with visits, [best_child] is
    [wi/si + c*sqrt(ln(parent si)/si)] when the child's [self] is the
    player's side [who], that is when [who] placed the move leading to
    the child and the opponent is to act there, and
    [(1 - wi/si) + c*sqrt(ln(parent si)/si)] when [self] is the
    opponent and [who] is to act there; a child with no visit scores
    1000000.  In a node whose children are unvisited or carry the
    counters of visited nodes (at least one visit, wins between 0 and
    the visits, a parent visited at least once, all within [int]), the
    scan of [selection] stops on the first unvisited child in the order
    of [childrens], and the descent goes on from that child. *)
Theorem unvisited_child_first
        (role : String.string) (pl : player) (t : tree) (current : nat) (n : node)
        (k zc : nat) (z : node) (fuel : nat) :
  mcts_player role = Some pl ->
  nth_error t current = Some n -> isleaf n = false ->
  (forall c, In c (childrens n) ->
             exists child, nth_error t c = Some child
                           /\ (si child = 0%Z \/ visited t child)) ->
  nth_error (childrens n) k = Some zc ->
  nth_error t zc = Some z -> si z = 0%Z ->
  (forall j c child, j < k -> nth_error (childrens n) j = Some c ->
                     nth_error t c = Some child -> si child <> 0%Z) ->
  (forall child : node,
      si child <> 0%Z ->
      (self child = who pl ->
       to_move child = opponent pl
       /\ best_child pl t child =
          (IZR (wi child) / IZR (si child)
           + exploration_c
             * sqrt (ln (IZR (parent_si t child)) / IZR (si child)))%R)
      /\ (self child = opponent pl ->
          to_move child = who pl
          /\ best_child pl t child =
             ((1 - IZR (wi child) / IZR (si child))
              + exploration_c
                * sqrt (ln (IZR (parent_si t child)) / IZR (si child)))%R))
  /\ best_child pl t z = 1000000%R
  /\ (forall child : node, visited t child ->
                           (best_child pl t child < 1000000)%R)
  /\ best_index pl t (childrens n) = k
  /\ selection (S fuel) pl t current = selection fuel pl t zc.
Proof.
  intros Hrole Hn Hleaf Hcs Hk Hz Hz0 Hfirst.
  assert (Hindex : best_index pl t (childrens n) = k).
  { destruct (nth_error_split (childrens n) k Hk) as (pre & post & Hsplit & Hlen).
    unfold best_index. rewrite Hsplit.
    rewrite (best_index_from_unvisited pl t pre post zc z); try assumption.
    - lra.
    - intros c Hin.
      destruct (Hcs c) as (child & Hc & [H0 | Hv]).
      + rewrite Hsplit. apply in_or_app. now left.
      + exfalso. destruct (In_nth_error pre c Hin) as [j Hj].
        assert (Hjk : j < k).
        { rewrite <- Hlen. apply nth_error_Some. congruence. }
        apply (Hfirst j c child Hjk); [| exact Hc | exact H0].
        rewrite Hsplit, nth_error_app1; [exact Hj | lia].
      + exists child. now split.
    - intros c child Hin Hc.
      destruct (Hcs c) as (child' & Hc' & Hor).
      + rewrite Hsplit. apply in_or_app. right. now right.
      + congruence. }
  destruct (mcts_player_sides role pl Hrole) as [Hopp Hwho].
  destruct (mcts_player_eqb role pl Hrole) as [Hsame Hdiff].
  split; [| split; [| split; [| split]]].
  - intros child Hs. unfold best_child, to_move.
    destruct (Z.eqb_spec (si child) 0); [contradiction |].
    split; intros ->.
    + rewrite Hsame. now split.
    + rewrite Hdiff. now split.
  - now apply best_child_unvisited.
  - intros child Hv. pose proof (best_child_visited pl t child Hv). lra.
  - exact Hindex.
  - cbn [selection]. rewrite Hn, Hleaf, Hindex, Hk. reflexivity.
Qed.

End SelectionProofs.

(** ** Nodes and backpropagation *)

Section TreeProofs.

Context {board : Type}.

#[local] Abbreviation node := (@node board).
#[local] Abbreviation tree := (@tree board).

Lemma length_set_node (t : tree) (i : nat) (n : node) :
  length (set_node t i n) = length t.
Proof.
  revert i. induction t as [| m t IH]; intros [| i]; cbn; try reflexivity.
  now rewrite IH.
Qed.

Lemma nth_error_set_node_eq (t : tree) (i : nat) (n : node) :
  i < length t -> nth_error (set_node t i n) i = Some n.
Proof.
  revert i. induction t as [| m t IH]; intros [| i] Hi; cbn in *; try lia.
  - reflexivity.
  - apply IH. lia.
Qed.

Lemma nth_error_set_node_ne (t : tree) (i j : nat) (n : node) :
  i <> j -> nth_error (set_node t i n) j = nth_error t j.
Proof.
  revert i j. induction t as [| m t IH]; intros [| i] [| j] Hij; cbn;
    try reflexivity; try lia.
  apply IH. lia.
Qed.

(** Where [set_node] writes a node with the same parent, the parents of
    all nodes are as before. *)
Lemma parent_set_node (t : tree) (i x : nat) (n m : node) :
  nth_error t i = Some n -> parent m = parent n ->
  option_map parent (nth_error (set_node t i m) x)
  = option_map parent (nth_error t x).
Proof.
  intros Hn Hp. destruct (Nat.eq_dec i x) as [<- | Hne].
  - rewrite nth_error_set_node_eq by (apply nth_error_Some; congruence).
    rewrite Hn. cbn. now rewrite Hp.
  - now rewrite nth_error_set_node_ne.
Qed.

Lemma path_bound (fuel : nat) (t : tree) (c x : nat) :
  parents_before t -> In x (path fuel t (Some c)) -> x <= c.
Proof.
  intros Hpb. revert c. induction fuel as [| fuel IH]; intros c; cbn; [tauto |].
  destruct (nth_error t c) as [n |] eqn:En; [| cbn; tauto].
  intros [<- | Hin]; [lia |].
  destruct (parent n) as [p |] eqn:Ep.
  - specialize (IH p Hin). pose proof (Hpb c n p En Ep). lia.
  - destruct fuel; cbn in Hin; tauto.
Qed.

(** The walk from [c] reads the parents of the nodes up to [c] only. *)
Lemma path_agree (fuel : nat) (t t' : tree) (c : nat) :
  parents_before t ->
  (forall x, x <= c ->
             option_map parent (nth_error t' x) = option_map parent (nth_error t x)) ->
  path fuel t' (Some c) = path fuel t (Some c).
Proof.
  intros Hpb. revert c. induction fuel as [| fuel IH]; intros c Hagree;
    cbn; [reflexivity |].
  pose proof (Hagree c (le_n c)) as Hc.
  destruct (nth_error t c) as [n |] eqn:En;
    destruct (nth_error t' c) as [n' |] eqn:En'; cbn in Hc; try discriminate;
    [| reflexivity].
  injection Hc as Hc. rewrite Hc. f_equal.
  destruct (parent n) as [p |] eqn:Ep.
  - apply IH. intros x Hx. apply Hagree.
    pose proof (Hpb c n p En Ep). lia.
  - destruct fuel; reflexivity.
Qed.

(** More fuel than the walk needs does not change it. *)
Lemma path_fuel (fuel fuel' : nat) (t : tree) (c : nat) :
  parents_before t -> c < fuel -> c < fuel' ->
  path fuel t (Some c) = path fuel' t (Some c).
Proof.
  intros Hpb. revert fuel' c.
  induction fuel as [| fuel IH]; intros [| fuel'] c Hc Hc'; try lia.
  cbn [path]. destruct (nth_error t c) as [n |] eqn:En; [| reflexivity].
  f_equal. destruct (parent n) as [p |] eqn:Ep.
  - pose proof (Hpb c n p En Ep) as Hp. apply IH; lia.
  - destruct fuel, fuel'; reflexivity.
Qed.

Lemma path_self (t : tree) (c : nat) :
  c < length t -> In c (path (S c) t (Some c)).
Proof.
  intros Hc. cbn. destruct (nth_error t c) eqn:E.
  - now left.
  - apply nth_error_None in E. lia.
Qed.

(** In a well-formed tree every walk ends at the root. *)
Lemma path_root (t : tree) (c : nat) :
  wf_tree t -> c < length t -> In 0 (path (S c) t (Some c)).
Proof.
  intros [_ Hwf]. induction c as [c IH] using lt_wf_ind. intros Hc.
  cbn [path]. destruct (nth_error t c) as [n |] eqn:En;
    [| apply nth_error_None in En; lia].
  pose proof (wf_parent t c n (Hwf c n En)) as Hp.
  destruct (parent n) as [p |] eqn:Ep.
  - right. assert (Hpb : parents_before t).
    { intros i m q Hm Hq. pose proof (wf_parent t i m (Hwf i m Hm)) as H.
      now rewrite Hq in H. }
    rewrite (path_fuel c (S p)) by (assumption || lia). apply IH; lia.
  - left. exact Hp.
Qed.

Lemma wf_parents_before (t : tree) : wf_tree t -> parents_before t.
Proof.
  intros [_ Hwf] i m q Hm Hq.
  pose proof (wf_parent t i m (Hwf i m Hm)) as H. now rewrite Hq in H.
Qed.

Lemma existsb_eqb_In (x : nat) (l : list nat) :
  existsb (Nat.eqb x) l = true <-> In x l.
Proof.
  rewrite existsb_exists. split.
  - intros (y & Hin & Heq). apply Nat.eqb_eq in Heq. now subst.
  - intros Hin. exists x. split; [exact Hin | apply Nat.eqb_refl].
Qed.

Lemma existsb_eqb_not_In (x : nat) (l : list nat) :
  ~ In x l -> existsb (Nat.eqb x) l = false.
Proof.
  intros Hn. destruct (existsb (Nat.eqb x) l) eqn:E; [| reflexivity].
  apply existsb_eqb_In in E. contradiction.
Qed.

Lemma parents_before_set_node (t : tree) (i : nat) (n m : node) :
  parents_before t -> nth_error t i = Some n -> parent m = parent n ->
  parents_before (set_node t i m).
Proof.
  intros Hpb Hn Hp j k q Hk Hq.
  destruct (Nat.eq_dec i j) as [<- | Hne].
  - rewrite nth_error_set_node_eq in Hk by (apply nth_error_Some; congruence).
    injection Hk as <-. apply (Hpb i n q Hn). congruence.
  - rewrite nth_error_set_node_ne in Hk by assumption. now apply (Hpb j k q).
Qed.

(** [backpropogation] from node [c] returns, and what it returns is the
    nodes it was given with [wi+=score; si++] done once on every node of
    the walk from [c] to the root and nothing else changed. *)
Lemma backpropogation_walk (fuel : nat) (t : tree) (c : nat) (score : Z) :
  parents_before t -> c < length t -> c < fuel ->
  exists t' : tree,
    backpropogation fuel t (Some c) score = Some t'
    /\ length t' = length t
    /\ forall x,
        nth_error t' x =
        option_map
          (fun n => if existsb (Nat.eqb x) (path fuel t (Some c))
                    then visit n score else n)
          (nth_error t x).
Proof.
  revert t c. induction fuel as [| fuel IH]; intros t c Hpb Hc Hf; [lia |].
  cbn [backpropogation path].
  destruct (nth_error t c) as [n |] eqn:En;
    [| apply nth_error_None in En; lia].
  set (t1 := set_node t c (visit n score)).
  assert (Hc1 : nth_error t1 c = Some (visit n score))
    by (apply nth_error_set_node_eq; exact Hc).
  assert (Hother : forall x, x <> c -> nth_error t1 x = nth_error t x)
    by (intros x Hx; apply nth_error_set_node_ne; congruence).
  destruct (parent n) as [p |] eqn:Ep.
  - pose proof (Hpb c n p En Ep) as Hp.
    assert (Hpb1 : parents_before t1)
      by (apply (parents_before_set_node t c n); auto).
    destruct (IH t1 p Hpb1) as (t' & Hrun & Hlen & Hnodes).
    { unfold t1. rewrite length_set_node. lia. }
    { lia. }
    exists t'. split; [exact Hrun |]. split.
    { rewrite Hlen. apply length_set_node. }
    assert (Hpath : path fuel t1 (Some p) = path fuel t (Some p)).
    { apply path_agree; [exact Hpb |]. intros x _.
      apply (parent_set_node t c x n); auto. }
    intros x. rewrite Hnodes, Hpath.
    destruct (Nat.eq_dec x c) as [-> | Hne].
    + rewrite Hc1, En. cbn [option_map existsb]. rewrite Nat.eqb_refl.
      cbn [orb]. rewrite existsb_eqb_not_In; [reflexivity |].
      intros Hin. apply (path_bound fuel t p c Hpb) in Hin. lia.
    + rewrite (Hother x Hne). cbn [existsb].
      replace (x =? c) with false by (symmetry; now apply Nat.eqb_neq).
      reflexivity.
  - exists t1. split; [destruct fuel; reflexivity |]. split.
    { apply length_set_node. }
    intros x. replace (path fuel t None) with (@nil nat) by (destruct fuel; reflexivity).
    destruct (Nat.eq_dec x c) as [-> | Hne].
    + rewrite Hc1, En. cbn. now rewrite Nat.eqb_refl.
    + rewrite (Hother x Hne). cbn [existsb].
      replace (x =? c) with false by (symmetry; now apply Nat.eqb_neq).
      cbn. now destruct (nth_error t x).
Qed.

Lemma wf_node_longer (t t' : tree) (i : nat) (n : node) :
  wf_node t i n -> length t <= length t' -> wf_node t' i n.
Proof.
  intros [Hp Hc Hi Hw] Hlen. split; try assumption.
  eapply Forall_impl; [| exact Hc]. cbn. intros c Hcl. lia.
Qed.

(** [wi+=score; si++] with a score of 0 or 1 keeps the shape. *)
Lemma wf_node_visit (t : tree) (i : nat) (n : node) (score : Z) :
  wf_node t i n -> (score = 0 \/ score = 1)%Z -> wf_node t i (visit n score).
Proof.
  intros [Hp Hc Hi Hw] Hs. split; cbn; try assumption. lia.
Qed.

Lemma backpropogation_wf (t t' : tree) (c : nat) (score : Z) :
  wf_tree t -> c < length t -> (score = 0 \/ score = 1)%Z ->
  backpropogation (length t) t (Some c) score = Some t' ->
  wf_tree t'.
Proof.
  intros Hwf Hc Hs Hrun.
  destruct (backpropogation_walk (length t) t c score
              (wf_parents_before t Hwf) Hc Hc) as (t2 & Hrun2 & Hlen & Hnodes).
  rewrite Hrun in Hrun2. injection Hrun2 as <-.
  destruct Hwf as [Hne Hwf]. split.
  - intros ->. cbn in Hlen. destruct t; [congruence | discriminate].
  - intros i m Hm. rewrite Hnodes in Hm.
    destruct (nth_error t i) as [n |] eqn:En; [| discriminate].
    cbn in Hm. injection Hm as <-.
    apply (wf_node_longer t); [| lia].
    destruct (existsb _ _); [apply wf_node_visit |]; auto.
Qed.

End TreeProofs.

(** ** Expansion *)

Section ExpandProofs.

Context {board : Type} {B : Board board} {engine : Type} {E : Engine engine}.

#[local] Abbreviation node := (@node board).
#[local] Abbreviation tree := (@tree board).

(** A node [expand] allocates under [current]. *)
Lemma new_nodes_In (current : nat) (s : board) (op : piece_type) (count : nat)
      (m : node) :
  In m (new_nodes current s op count) ->
  parent m = Some current /\ childrens m = [] /\ wi m = 0%Z /\ si m = 0%Z
  /\ isleaf m = true
  /\ exists move, apply_place move s = Some (state m)
                  /\ move_placed m = action_place move.
Proof.
  unfold new_nodes. rewrite in_flat_map. intros (i & _ & Hin).
  destruct (apply_place {| position := i; piece := op |} s) as [temp |] eqn:Ea;
    [| destruct Hin].
  destruct Hin as [<- | []]. cbn. repeat split.
  exists {| position := i; piece := op |}. now split.
Qed.

(** The children allocated under a node are reached by a placement of
    the side to act at the node, which becomes their [self]; the side
    to act at a child is the other side. *)
Lemma new_nodes_to_move (current : nat) (n m : node) (count : nat) :
  In m (new_nodes current (state n) (to_move n) count) ->
  self m = to_move n
  /\ to_move m = my_opponent (to_move n)
  /\ exists i, move_placed m
               = action_place {| position := i; piece := to_move n |}.
Proof.
  unfold new_nodes. rewrite in_flat_map. intros (i & _ & Hin).
  destruct (apply_place {| position := i; piece := to_move n |} (state n))
    as [temp |]; [| destruct Hin].
  destruct Hin as [<- | []]. cbn. repeat split. now exists i.
Qed.

(** What [expand] returns on a node of a well-formed tree: a
    well-formed tree that keeps the old nodes with their parent,
    counters, board and move, whose new nodes are unvisited children of
    old nodes reached by a legal placement, and a node of that tree. *)
Lemma expand_wf (pl : player) (g : engine) (t : tree) (l : nat) :
  wf_tree t -> l < length t ->
  exists (t' : tree) (g' : engine) (leaf' : nat),
    expand pl g t l = Some (t', g', leaf')
    /\ wf_tree t'
    /\ leaf' < length t'
    /\ length t <= length t'
    /\ (forall x n, nth_error t x = Some n ->
          exists n', nth_error t' x = Some n'
                     /\ parent n' = parent n /\ si n' = si n /\ wi n' = wi n
                     /\ state n' = state n /\ move_placed n' = move_placed n)
    /\ (forall x n', length t <= x -> nth_error t' x = Some n' ->
          si n' = 0%Z /\ wi n' = 0%Z
          /\ exists pn move, nth_error t l = Some pn
                             /\ parent n' = Some l
                             /\ apply_place move (state pn) = Some (state n')).
Proof.
  intros Hwf Hl. pose proof Hwf as [Hne Hnodes].
  destruct (nth_error t l) as [n |] eqn:En;
    [| apply nth_error_None in En; lia].
  pose proof (Hnodes l n En) as [Hp Hc Hi Hw].
  unfold expand. rewrite En.
  destruct (is_terminal n) eqn:Et.
  { exists t, g, l.
    split; [reflexivity |]. split; [exact Hwf |]. split; [exact Hl |].
    split; [lia |]. split.
    - intros x m Hm. exists m. now repeat split.
    - intros x m Hx Hm. exfalso.
      assert (x < length t) by (apply nth_error_Some; congruence). lia. }
  set (added := new_nodes l (state n) (my_opponent (self n)) _).
  assert (Hcs : Forall (fun c => l < c < length t + length added)
                       (childrens n ++ seq (length t) (length added))).
  { apply Forall_app. split.
    - eapply Forall_impl; [| exact Hc]. cbn. intros c Hcl. lia.
    - apply Forall_forall. intros c Hin. apply in_seq in Hin. lia. }
  destruct (childrens n ++ seq (length t) (length added)) as [| c0 cs0].
  { (* no child: the node becomes terminal *)
    exists (set_node t l (set_terminal n)), g, l.
    assert (Hlen : length (set_node t l (set_terminal n)) = length t)
      by apply length_set_node.
    split; [reflexivity |]. split; [| split; [lia | split; [lia | split]]].
    - split.
      + intros H0. rewrite H0 in Hlen. cbn in Hlen. destruct t; [congruence | discriminate].
      + intros i m Hm. destruct (Nat.eq_dec l i) as [<- | Hneq].
        * rewrite nth_error_set_node_eq in Hm by exact Hl. injection Hm as <-.
          apply (wf_node_longer t); [| lia]. now split.
        * rewrite nth_error_set_node_ne in Hm by exact Hneq.
          apply (wf_node_longer t); [now apply Hnodes | lia].
    - intros x m Hm. destruct (Nat.eq_dec l x) as [<- | Hneq].
      + rewrite nth_error_set_node_eq by exact Hl.
        exists (set_terminal n). rewrite En in Hm. injection Hm as <-.
        now repeat split.
      + rewrite nth_error_set_node_ne by exact Hneq. exists m. now repeat split.
    - intros x m Hx Hm. exfalso.
      assert (x < length (set_node t l (set_terminal n)))
        by (apply nth_error_Some; congruence). lia. }
  pose proof (shuffle_perm nat g (c0 :: cs0)) as Hperm.
  destruct (shuffle g (c0 :: cs0)) as [shuffled g']. cbn [fst] in Hperm.
  destruct shuffled as [| front rest].
  { apply Permutation_nil in Hperm. discriminate. }
  set (t' := set_node (t ++ added) l (set_childrens n (front :: rest))).
  assert (Hlen : length t' = length t + length added).
  { unfold t'. rewrite length_set_node. apply length_app. }
  assert (Hsh : Forall (fun c => l < c < length t + length added) (front :: rest)).
  { eapply Permutation_Forall; [| exact Hcs]. now apply Permutation_sym. }
  assert (Hl' : l < length (t ++ added)) by (rewrite length_app; lia).
  assert (Hold : forall x, x <> l -> x < length t ->
                           nth_error t' x = nth_error t x).
  { intros x Hx Hxl. unfold t'. rewrite nth_error_set_node_ne by congruence.
    now apply nth_error_app1. }
  assert (Hnew : forall x m, length t <= x -> nth_error t' x = Some m ->
                             In m added).
  { intros x m Hx Hm. unfold t' in Hm.
    rewrite nth_error_set_node_ne in Hm by lia.
    rewrite nth_error_app2 in Hm by exact Hx.
    now apply nth_error_In in Hm. }
  exists t', g', front.
  split; [reflexivity |].
  split; [| split; [| split; [lia | split]]].
  - split.
    + intros H0. rewrite H0 in Hlen. cbn in Hlen. lia.
    + intros i m Hm. destruct (Nat.eq_dec i l) as [-> | Hneq].
      * unfold t' in Hm. rewrite nth_error_set_node_eq in Hm by exact Hl'.
        injection Hm as <-. split; cbn; try assumption.
        -- now rewrite Hlen.
        -- discriminate.
      * destruct (Nat.lt_ge_cases i (length t)) as [Hlt | Hge].
        -- rewrite (Hold i Hneq Hlt) in Hm.
           apply (wf_node_longer t); [now apply Hnodes | lia].
        -- apply (Hnew i m Hge) in Hm as Hin.
           apply new_nodes_In in Hin
             as (Hpar & Hch & Hwi & Hsi & Hleaf & _).
           split.
           ++ rewrite Hpar. lia.
           ++ rewrite Hch. constructor.
           ++ rewrite Hleaf. discriminate.
           ++ rewrite Hwi, Hsi. lia.
  - rewrite Hlen. apply Forall_inv in Hsh. lia.
  - intros x m Hm. destruct (Nat.eq_dec x l) as [-> | Hneq].
    + unfold t'. rewrite nth_error_set_node_eq by exact Hl'.
      exists (set_childrens n (front :: rest)). rewrite En in Hm.
      injection Hm as <-. now repeat split.
    + rewrite Hold; [| exact Hneq | apply nth_error_Some; congruence].
      exists m. now repeat split.
  - intros x m Hx Hm. apply (Hnew x m Hx) in Hm as Hin.
    apply new_nodes_In in Hin
      as (Hpar & Hch & Hwi & Hsi & Hleaf & move & Hmove & _).
    split; [exact Hsi |]. split; [exact Hwi |].
    exists n, move. now repeat split.
Qed.

End ExpandProofs.

(** ** Rollout *)

Section RolloutProofs.

Context {board : Type} {B : Board board} {Fl : Filling board}.
Context {engine : Type} {E : Engine engine}.

#[local] Abbreviation node := (@node board).

Lemma first_legal_fills (current_space : list place) (temp temp' : board) :
  first_legal current_space temp = Some temp' ->
  empty_cells temp' < empty_cells temp.
Proof.
  induction current_space as [| move rest IH]; cbn; [discriminate |].
  destruct (apply_place move temp) as [b |] eqn:Ea; [| exact IH].
  intros H. injection H as <-. now apply (apply_place_fills move).
Qed.

Lemma rollout_loop_returns (fuel : nat) (pl : player) (ms os : list place)
      (temp : board) (myop : piece_type) :
  empty_cells temp < fuel ->
  exists score : Z,
    rollout_loop fuel pl ms os temp myop = Some score
    /\ (score = 0 \/ score = 1)%Z.
Proof.
  revert temp myop. induction fuel as [| fuel IH]; intros temp myop Hf; [lia |].
  cbn [rollout_loop].
  destruct (first_legal _ temp) as [temp' |] eqn:Efl.
  - apply IH. apply first_legal_fills in Efl. lia.
  - eexists. split; [reflexivity |].
    destruct (piece_eqb myop (who pl)); [now left | now right].
Qed.

Lemma rollout_loop_fuel (fuel fuel' : nat) (pl : player) (ms os : list place)
      (temp : board) (myop : piece_type) :
  empty_cells temp < fuel -> empty_cells temp < fuel' ->
  rollout_loop fuel pl ms os temp myop = rollout_loop fuel' pl ms os temp myop.
Proof.
  revert fuel' temp myop.
  induction fuel as [| fuel IH]; intros [| fuel'] temp myop Hf Hf'; try lia.
  cbn [rollout_loop].
  destruct (first_legal _ temp) as [temp' |] eqn:Efl; [| reflexivity].
  apply first_legal_fills in Efl. apply IH; lia.
Qed.

Lemma rollout_returns (fuel : nat) (pl : player) (g : engine) (current : node)
      (ms os : list place) :
  empty_cells (state current) < fuel ->
  exists (score : Z) (ms' os' : list place) (g' : engine),
    rollout fuel pl g current ms os = Some (score, ms', os', g')
    /\ (score = 0 \/ score = 1)%Z.
Proof.
  intros Hf. unfold rollout.
  destruct (shuffle g ms) as [ms' g1]. destruct (shuffle g1 os) as [os' g2].
  destruct (is_terminal current).
  - eexists _, ms', os', g2. split; [reflexivity |].
    destruct (piece_eqb (who pl) _); [now left | now right].
  - destruct (rollout_loop_returns fuel pl ms' os' (state current)
                (my_opponent (self current)) Hf) as (score & -> & Hs).
    now exists score, ms', os', g2.
Qed.

(** C10. When a legal placement fills an empty cell, [rollout] returns:
    every turn of its loop either plays the first legal placement of the
    side to move, which leaves fewer empty cells, or finds none and
    leaves the loop with the score 0 or 1.  A bound on the turns above
    the number of empty cells of the node's board is never reached, and
    the result does not depend on it. *)
Theorem rollout_terminates
        (fuel : nat) (pl : player) (g : engine) (current : node)
        (ms os : list place) :
  empty_cells (state current) < fuel ->
  (exists (score : Z) (ms' os' : list place) (g' : engine),
      rollout fuel pl g current ms os = Some (score, ms', os', g')
      /\ (score = 0 \/ score = 1)%Z)
  /\ (forall fuel', empty_cells (state current) < fuel' ->
                    rollout fuel' pl g current ms os
                    = rollout fuel pl g current ms os)
  /\ (forall (f : nat) (ms' os' : list place) (temp : board) (myop : piece_type),
        let current_space := if piece_eqb myop (who pl) then ms' else os' in
        match first_legal current_space temp with
        | Some temp' =>
            empty_cells temp' < empty_cells temp
            /\ rollout_loop (S f) pl ms' os' temp myop
               = rollout_loop f pl ms' os' temp'
                   (if piece_eqb myop (who pl) then opponent pl else who pl)
        | None =>
            rollout_loop (S f) pl ms' os' temp myop
            = Some (if piece_eqb myop (who pl) then 0 else 1)%Z
        end).
Proof.
  intros Hf. split; [| split].
  - now apply rollout_returns.
  - intros fuel' Hf'. unfold rollout.
    destruct (shuffle g ms) as [ms' g1]. destruct (shuffle g1 os) as [os' g2].
    destruct (is_terminal current); [reflexivity |].
    now rewrite (rollout_loop_fuel fuel' fuel).
  - intros f ms' os' temp myop current_space. subst current_space.
    cbn [rollout_loop].
    destruct (first_legal _ temp) as [temp' |] eqn:Efl; [| reflexivity].
    split; [now apply first_legal_fills in Efl | reflexivity].
Qed.

End RolloutProofs.

(** ** The descent returns a node *)

Section DescentProofs.

Context {board : Type} {F : Rounding}.

#[local] Abbreviation node := (@node board).
#[local] Abbreviation tree := (@tree board).

Lemma best_index_from_range (pl : player) (t : tree) (cs : list nat) (i : nat)
      (best : R) (bi : nat) :
  best_index_from pl t cs i best bi = bi
  \/ i <= best_index_from pl t cs i best bi < i + length cs.
Proof.
  revert i best bi. induction cs as [| c cs IH]; intros i best bi; cbn;
    [now left |].
  destruct (nth_error t c) as [child |].
  - destruct (Rlt_dec best (best_child pl t child)).
    + right. destruct (IH (S i) (to_float (best_child pl t child)) i) as [-> | H]; lia.
    + destruct (IH (S i) best bi) as [-> | H]; [now left | right; lia].
  - destruct (IH (S i) best bi) as [-> | H]; [now left | right; lia].
Qed.

Lemma best_index_lt (pl : player) (t : tree) (cs : list nat) :
  cs <> [] -> best_index pl t cs < length cs.
Proof.
  intros Hne. unfold best_index.
  destruct (best_index_from_range pl t cs 0 0%R 0) as [-> | H]; [| lia].
  destruct cs; [congruence | cbn; lia].
Qed.

Lemma selection_returns (fuel : nat) (pl : player) (t : tree) (current : nat) :
  wf_tree t -> current < length t -> length t <= fuel + current ->
  exists l, selection fuel pl t current = Some l /\ l < length t.
Proof.
  intros Hwf. pose proof Hwf as [_ Hnodes].
  revert current. induction fuel as [| fuel IH]; intros current Hc Hf; [lia |].
  cbn [selection].
  destruct (nth_error t current) as [n |] eqn:En;
    [| apply nth_error_None in En; lia].
  destruct (isleaf n) eqn:El; [now exists current |].
  pose proof (Hnodes current n En) as [_ Hch Hin _].
  pose proof (best_index_lt pl t (childrens n) (Hin El)) as Hbi.
  destruct (nth_error (childrens n) (best_index pl t (childrens n))) as [c |] eqn:Ec;
    [| apply nth_error_None in Ec; lia].
  apply nth_error_In in Ec. rewrite Forall_forall in Hch.
  specialize (Hch c Ec). apply IH; lia.
Qed.

End DescentProofs.

(** ** Counting the walks *)

Section WalkProofs.

Context {board : Type}.

#[local] Abbreviation node := (@node board).
#[local] Abbreviation tree := (@tree board).

Lemma walks_through_app (t : tree) (ls : list nat) (leaf x : nat) :
  walks_through t (ls ++ [leaf]) x
  = walks_through t ls x + (if on_path t leaf x then 1 else 0).
Proof.
  unfold walks_through. rewrite filter_app, length_app. cbn [filter].
  now destruct (on_path t leaf x).
Qed.

Lemma walks_through_ext (t t' : tree) (ls : list nat) (x : nat) :
  (forall leaf, In leaf ls -> on_path t' leaf x = on_path t leaf x) ->
  walks_through t' ls x = walks_through t ls x.
Proof.
  intros H. unfold walks_through. f_equal. now apply filter_ext_in.
Qed.

(** The old walks are the same in a tree that keeps the old nodes'
    parents. *)
Lemma on_path_agree (t t' : tree) (leaf x : nat) :
  parents_before t -> leaf < length t ->
  (forall y n, nth_error t y = Some n ->
               exists n', nth_error t' y = Some n' /\ parent n' = parent n) ->
  on_path t' leaf x = on_path t leaf x.
Proof.
  intros Hpb Hleaf Hkeep. unfold on_path. f_equal.
  apply path_agree; [exact Hpb |]. intros y Hy.
  destruct (nth_error t y) as [n |] eqn:En;
    [| apply nth_error_None in En; lia].
  destruct (Hkeep y n En) as (n' & -> & Hp). cbn. now rewrite Hp.
Qed.

Lemma on_path_le (t : tree) (leaf x : nat) :
  parents_before t -> on_path t leaf x = true -> x <= leaf.
Proof.
  intros Hpb H. apply existsb_eqb_In in H.
  now apply (path_bound (S leaf) t leaf x Hpb).
Qed.

Lemma walks_through_new (t : tree) (ls : list nat) (x bound : nat) :
  parents_before t -> Forall (fun leaf => leaf < bound) ls -> bound <= x ->
  walks_through t ls x = 0.
Proof.
  intros Hpb Hls Hx. unfold walks_through.
  induction Hls as [| leaf ls Hleaf _ IH]; [reflexivity |].
  cbn [filter]. destruct (on_path t leaf x) eqn:Eo; [| exact IH].
  apply on_path_le in Eo; [lia | exact Hpb].
Qed.


End WalkProofs.

(** ** The search loop *)

Section SearchProofs.

Context {board : Type} {B : Board board} {Fl : Filling board}.
Context {engine : Type} {E : Engine engine} {F : Rounding}.

#[local] Abbreviation node := (@node board).
#[local] Abbreviation tree := (@tree board).
#[local] Abbreviation search := (@search board engine).

Lemma search_init_inv (pl : player) (g : engine) (s : board) :
  search_inv (empty_cells s) (search_init pl g s).
Proof.
  unfold search_inv, search_init. cbn [nodes leaves].
  split; [| split; [| split]].
  - split; [discriminate |]. intros [| i] n Hn; cbn in Hn.
    + injection Hn as <-. split; cbn; auto; try lia; try discriminate.
    + destruct i; discriminate.
  - intros [| i] n Hn; cbn in Hn.
    + injection Hn as <-. cbn. lia.
    + destruct i; discriminate.
  - constructor.
  - intros [| i] n Hn; cbn in Hn.
    + injection Hn as <-. reflexivity.
    + destruct i; discriminate.
Qed.

(** One turn of the loop body returns and keeps [search_inv]; it
    records one more walk, and the old nodes keep their place, parent,
    board and move. *)
Lemma iteration_inv (rollout_fuel bound : nat) (pl : player) (st : search) :
  search_inv bound st -> bound < rollout_fuel ->
  exists st' : search,
    iteration rollout_fuel pl st = Some st'
    /\ search_inv bound st'
    /\ length (leaves st') = S (length (leaves st)).
Proof.
  intros (Hwf & Hemp & Hleaves & Hsi) Hfuel.
  set (t := nodes st) in *.
  assert (Hpb : parents_before t) by now apply wf_parents_before.
  assert (Hpos : 0 < length t).
  { destruct Hwf as [Hne _]. destruct t; [congruence | cbn; lia]. }
  destruct (selection_returns (length t) pl t 0 Hwf Hpos ltac:(lia))
    as (l & Hsel & Hl).
  destruct (expand_wf pl (rng st) t l Hwf Hl)
    as (t1 & g1 & leaf1 & Hexp & Hwf1 & Hleaf1 & Hlen1 & Hold & Hnew).
  assert (Hpb1 : parents_before t1) by now apply wf_parents_before.
  destruct (nth_error t1 leaf1) as [n1 |] eqn:En1;
    [| apply nth_error_None in En1; lia].
  assert (Hemp1 : forall x n, nth_error t1 x = Some n ->
                              empty_cells (state n) <= bound).
  { intros x n Hn. destruct (Nat.lt_ge_cases x (length t)) as [Hlt | Hge].
    - destruct (nth_error t x) as [m |] eqn:Em;
        [| apply nth_error_None in Em; lia].
      destruct (Hold x m Em) as (n' & Hn' & _ & _ & _ & Hst & _).
      rewrite Hn in Hn'. injection Hn' as <-. rewrite Hst. now apply (Hemp x).
    - destruct (Hnew x n Hge Hn) as (_ & _ & pn & move & Hpn & _ & Hmove).
      apply apply_place_fills in Hmove. pose proof (Hemp l pn Hpn). lia. }
  destruct (rollout_returns rollout_fuel pl g1 n1 (my_space st)
              (opponent_space st)) as (score & ms & os & g2 & Hroll & Hscore).
  { pose proof (Hemp1 leaf1 n1 En1). lia. }
  destruct (backpropogation_walk (length t1) t1 leaf1 score Hpb1 Hleaf1 Hleaf1)
    as (t2 & Hback & Hlen2 & Hnodes2).
  eexists. split.
  { unfold iteration. fold t. rewrite Hsel, Hexp, En1, Hroll, Hback. reflexivity. }
  unfold search_inv. cbn [nodes leaves].
  split; [| now rewrite length_app, Nat.add_comm].
  assert (Hkeep2 : forall y n, nth_error t1 y = Some n ->
            exists n', nth_error t2 y = Some n' /\ parent n' = parent n).
  { intros y n Hn. rewrite Hnodes2, Hn. cbn.
    eexists. split; [reflexivity |]. now destruct (existsb _ _). }
  assert (Hkeep1 : forall y n, nth_error t y = Some n ->
            exists n', nth_error t1 y = Some n' /\ parent n' = parent n).
  { intros y n Hn. destruct (Hold y n Hn) as (n' & Hn' & Hp & _).
    now exists n'. }
  split; [| split; [| split]].
  - now apply (backpropogation_wf t1 t2 leaf1 score).
  - intros x n Hn. rewrite Hnodes2 in Hn.
    destruct (nth_error t1 x) as [m |] eqn:Em; [| discriminate].
    cbn in Hn. injection Hn as <-.
    pose proof (Hemp1 x m Em). now destruct (existsb _ _).
  - apply Forall_app. split.
    + eapply Forall_impl; [| exact Hleaves]. cbn. intros leaf Hleaf. fold t in Hleaf. lia.
    + constructor; [lia | constructor].
  - intros x n Hn. rewrite Hnodes2 in Hn.
    destruct (nth_error t1 x) as [m |] eqn:Em; [| discriminate].
    cbn in Hn. injection Hn as <-.
    rewrite walks_through_app.
    rewrite (on_path_agree t1 t2 leaf1 x Hpb1 Hleaf1 Hkeep2).
    assert (Hwalks : walks_through t2 (leaves st) x = walks_through t1 (leaves st) x).
    { apply walks_through_ext. intros leaf Hin.
      rewrite Forall_forall in Hleaves. specialize (Hleaves leaf Hin). fold t in Hleaves.
      apply on_path_agree; [exact Hpb1 | lia | exact Hkeep2]. }
    rewrite Hwalks.
    assert (Hm : si m = Z.of_nat (walks_through t1 (leaves st) x)).
    { destruct (Nat.lt_ge_cases x (length t)) as [Hlt | Hge].
      - destruct (nth_error t x) as [m0 |] eqn:Em0;
          [| apply nth_error_None in Em0; lia].
        destruct (Hold x m0 Em0) as (n' & Hn' & _ & Hsi' & _).
        rewrite Em in Hn'. injection Hn' as <-. rewrite Hsi'.
        rewrite (Hsi x m0 Em0). f_equal.
        symmetry. apply walks_through_ext. intros leaf Hin.
        rewrite Forall_forall in Hleaves. specialize (Hleaves leaf Hin).
        now apply on_path_agree.
      - destruct (Hnew x m Hge Em) as (-> & _).
        rewrite (walks_through_new t1 (leaves st) x (length t)); auto. }
    unfold on_path.
    rewrite (path_fuel (S leaf1) (length t1) t1 leaf1 Hpb1) by lia.
    destruct (existsb (Nat.eqb x) (path (length t1) t1 (Some leaf1))); cbn [si visit].
    + rewrite Hm. lia.
    + rewrite Hm. lia.
Qed.




End SearchProofs.

(** ** The move returned *)

Lemma rem_500 (j r : nat) :
  r < 500 ->
  (Z.rem (Z.of_nat (500 * j + r) + 1) 500 =? 0)%Z = (r =? 499).
Proof.
  intros Hr. rewrite Z.rem_mod_nonneg by lia.
  destruct (Nat.eqb_spec r 499) as [-> | Hne].
  - apply Z.eqb_eq. Z.div_mod_to_equations. lia.
  - apply Z.eqb_neq. Z.div_mod_to_equations. lia.
Qed.

Section MoveProofs.

Context {board : Type}.

#[local] Abbreviation node := (@node board).
#[local] Abbreviation tree := (@tree board).




End MoveProofs.

Section TimedProofs.

Context {board : Type} {B : Board board} {Fl : Filling board}.
Context {engine : Type} {E : Engine engine} {F : Rounding} {C : Clock}.

#[local] Abbreviation node := (@node board).
#[local] Abbreviation tree := (@tree board).
#[local] Abbreviation search := (@search board engine).

(** The loop of [take_action] leaves at the first reading of the clock,
    taken every 500 turns, that is a second or more after the start. *)
Lemma search_loop_runs (rollout_fuel : nat) (pl : player) (start : Z)
      (k m : nat) :
  expired start (clock k) = true ->
  (forall q, 1 <= q < k -> expired start (clock q) = false) ->
  forall (j r fuel : nat) (st st' : search),
    r < 500 -> 500 * j + r + m = 500 * k -> 1 <= m -> m <= fuel ->
    iterations rollout_fuel pl m st = Some st' ->
    search_loop fuel rollout_fuel pl start (Z.of_nat (500 * j + r)) (S j) st
    = Some st'.
Proof.
  intros Hexp Hnot. induction m as [| m IH]; intros j r fuel st st' Hr Hsum Hm Hf Hrun;
    [lia |].
  destruct fuel as [| fuel]; [lia |].
  cbn [search_loop iterations] in *.
  destruct (iteration rollout_fuel pl st) as [st1 |]; [| discriminate].
  rewrite (rem_500 j r Hr).
  destruct (Nat.eqb_spec r 499) as [-> | Hne].
  - destruct (Nat.eq_dec (S j) k) as [Hk | Hk].
    + rewrite Hk, Hexp. assert (m = 0) by lia. subst m. exact Hrun.
    + rewrite (Hnot (S j)) by lia.
      replace (Z.of_nat (500 * j + 499) + 1)%Z with (Z.of_nat (500 * S j + 0)) by lia.
      apply IH; try lia. exact Hrun.
  - replace (Z.of_nat (500 * j + r) + 1)%Z with (Z.of_nat (500 * j + S r)) by lia.
    apply IH; try lia. exact Hrun.
Qed.


Lemma expand_count (pl : player) (op : piece_type) :
  (if piece_eqb op (who pl) then length (space pl) else length (myop_space pl))
  = cells.
Proof.
  unfold space, myop_space.
  destruct (piece_eqb op (who pl)); now rewrite length_map, length_seq.
Qed.




End TimedProofs.

(** ** The nodes against the rules of the game *)

Section GameProofs.

Context {board : Type} {B : Board board}.

#[local] Abbreviation node := (@node board).
#[local] Abbreviation tree := (@tree board).

Lemma new_nodes_iff (current : nat) (s : board) (op : piece_type) (count : nat)
      (m : node) :
  In m (new_nodes current s op count) <->
  exists i temp,
    i < count
    /\ apply_place {| position := i; piece := op |} s = Some temp
    /\ m = set_move (new_node (Some current) temp op)
                    (action_place {| position := i; piece := op |}).
Proof.
  unfold new_nodes. rewrite in_flat_map. split.
  - intros [i [Hi Hm]]. apply in_seq in Hi.
    destruct (apply_place _ s) as [temp|] eqn:Ha; [|contradiction].
    destruct Hm as [Hm|[]]. exists i, temp. repeat split; auto. lia.
  - intros [i [temp [Hi [Ha Hm]]]]. exists i. split.
    + apply in_seq. lia.
    + rewrite Ha. left. now symmetry.
Qed.

Lemma new_nodes_nil (current : nat) (s : board) (op : piece_type) (count : nat) :
  new_nodes current s op count = [] ->
  forall i, i < count -> apply_place {| position := i; piece := op |} s = None.
Proof.
  intros Hnil i Hi.
  destruct (apply_place _ s) as [temp|] eqn:Ha; [|reflexivity].
  assert (Hin : In (set_move (new_node (Some current) temp op)
                             (action_place {| position := i; piece := op |}))
                   (new_nodes current s op count)).
  { apply new_nodes_iff. exists i, temp. auto. }
  rewrite Hnil in Hin. destruct Hin.
Qed.

(** The moves of the nodes of one expansion, in the order of the
    cells. *)
Lemma new_nodes_moves (current : nat) (s : board) (op : piece_type)
      (start count : nat) :
  map move_placed
      (flat_map
         (fun i =>
            let placement := {| position := i; piece := op |} in
            match apply_place placement s with
            | Some temp =>
                [ set_move (new_node (Some current) temp op)
                           (action_place placement) ]
            | None => []
            end)
         (seq start count))
  = map (fun i => action_place {| position := i; piece := op |})
        (filter (fun i =>
                   match apply_place {| position := i; piece := op |} s with
                   | Some _ => true | None => false end)
                (seq start count)).
Proof.
  revert start. induction count as [|count IH]; intros start; [reflexivity|].
  cbn [seq flat_map filter]. rewrite map_app, IH.
  destruct (apply_place _ s); reflexivity.
Qed.

Lemma new_nodes_NoDup (current : nat) (s : board) (op : piece_type) (count : nat) :
  NoDup (map move_placed (new_nodes current s op count)).
Proof.
  unfold new_nodes. rewrite new_nodes_moves.
  apply Finite.Injective_map_NoDup.
  - intros i j Hij. now inversion Hij.
  - apply NoDup_filter, seq_NoDup.
Qed.

Lemma new_nodes_same_move (current : nat) (s : board) (op : piece_type)
      (count k1 k2 : nat) (m1 m2 : node) :
  nth_error (new_nodes current s op count) k1 = Some m1 ->
  nth_error (new_nodes current s op count) k2 = Some m2 ->
  move_placed m1 = move_placed m2 -> k1 = k2.
Proof.
  intros H1 H2 Hmv.
  pose proof (new_nodes_NoDup current s op count) as Hnd.
  rewrite NoDup_nth_error in Hnd. apply Hnd.
  - rewrite length_map. apply nth_error_Some. now rewrite H1.
  - rewrite !nth_error_map, H1, H2. cbn. now rewrite Hmv.
Qed.

Lemma expand_cases {engine : Type} {E : Engine engine} (pl : player)
      (g : engine) (t : tree) (l : nat) (n : node) :
  nth_error t l = Some n ->
  (is_terminal n = true /\ expand pl g t l = Some (t, g, l))
  \/ (is_terminal n = false
      /\ childrens n ++ seq (length t)
           (length (new_nodes l (state n) (to_move n) cells)) = []
      /\ expand pl g t l = Some (set_node t l (set_terminal n), g, l))
  \/ (is_terminal n = false
      /\ exists front rest g',
           Permutation (front :: rest)
             (childrens n ++ seq (length t)
                (length (new_nodes l (state n) (to_move n) cells)))
           /\ expand pl g t l
              = Some (set_node (t ++ new_nodes l (state n) (to_move n) cells) l
                               (set_childrens n (front :: rest)),
                      g', front)).
Proof.
  intros Hn. unfold expand. rewrite Hn.
  destruct (is_terminal n) eqn:Hterm; [left; auto|right].
  pose proof (expand_count pl (my_opponent (self n))) as Hcount.
  rewrite Hcount. fold (to_move n).
  set (added := new_nodes l (state n) (to_move n) cells).
  destruct (childrens n ++ seq (length t) (length added)) as [|c cs] eqn:Hcs.
  - left. auto.
  - right. split; [reflexivity|].
    pose proof (shuffle_perm _ g (c :: cs)) as Hperm.
    destruct (shuffle g (c :: cs)) as [shuffled g'] eqn:Hsh. cbn [fst] in Hperm.
    destruct shuffled as [|front rest].
    + apply Permutation_nil in Hperm. discriminate.
    + exists front, rest, g'. split; [assumption|reflexivity].
Qed.

Lemma selection_leaf {F : Rounding} (fuel : nat) (pl : player) (t : tree)
      (current l : nat) :
  selection fuel pl t current = Some l ->
  exists n, nth_error t l = Some n /\ isleaf n = true.
Proof.
  revert current. induction fuel as [|fuel IH]; intros current; cbn [selection];
    [discriminate|].
  destruct (nth_error t current) as [n|] eqn:Hn; [|discriminate].
  destruct (isleaf n) eqn:Hleaf.
  - intros H. injection H as <-. eauto.
  - destruct (nth_error (childrens n) _); [apply IH|discriminate].
Qed.

Lemma game_node_extends (t t' : tree) (i : nat) (n : node) :
  extends t t' -> game_node t i n -> game_node t' i n.
Proof.
  intros Hext [Hleaf Hnd Hchild Hplaced Hdist Hterm Hcomp].
  split; auto.
  - intros c Hc. destruct (Hchild c Hc) as [m [Hm Hp]].
    destruct (Hext c m Hm) as [m' [Hm' [Hp' _]]].
    exists m'. split; [assumption|congruence].
  - intros p Hp. destruct (Hplaced p Hp) as [pn [mv [Hpn [Hin [Hmv [Hpc [Hpos [Hself Happ]]]]]]]].
    destruct (Hext p pn Hpn) as [pn' [Hpn' [_ [Hincl [Hst [Hsf _]]]]]].
    exists pn', mv. unfold to_move in *. rewrite Hsf, Hst.
    repeat split; auto.
  - intros c1 c2 m1 m2 Hc1 Hc2 Hm1 Hm2 Hmv.
    destruct (Hchild c1 Hc1) as [o1 [Ho1 _]].
    destruct (Hchild c2 Hc2) as [o2 [Ho2 _]].
    destruct (Hext c1 o1 Ho1) as [o1' [Ho1' [_ [_ [_ [_ Hmv1]]]]]].
    destruct (Hext c2 o2 Ho2) as [o2' [Ho2' [_ [_ [_ [_ Hmv2]]]]]].
    apply (Hdist c1 c2 o1 o2); auto. congruence.
  - intros Hl j b' Hj Ha.
    destruct (Hcomp Hl j b' Hj Ha) as [c [m [Hc [Hm Hmv]]]].
    destruct (Hext c m Hm) as [m' [Hm' [_ [_ [_ [_ Hmv']]]]]].
    exists c, m'. repeat split; auto. congruence.
Qed.

Lemma game_node_same (t : tree) (i : nat) (n n' : node) :
  same_game n n' -> game_node t i n -> game_node t i n'.
Proof.
  intros [Hp [Hc [Hl [Hs [Hsf [Hm Ht]]]]]] [Hleaf Hnd Hchild Hplaced Hdist Hterm Hcomp].
  unfold to_move in *.
  split; unfold to_move; rewrite ?Hp, ?Hc, ?Hl, ?Hs, ?Hsf, ?Hm, ?Ht; auto.
Qed.

Lemma extends_refl (t : tree) : extends t t.
Proof.
  intros x m Hm. exists m. repeat split; auto. apply incl_refl.
Qed.

(** The nodes after [backpropogation], or any change of the counters
    alone, agree with the game as before. *)
Lemma game_tree_counters (pl : player) (s : board) (t t' : tree) :
  (forall x, exists f,
      nth_error t' x = option_map f (nth_error t x)
      /\ forall m, same_game m (f m)) ->
  game_tree pl s t -> game_tree pl s t'.
Proof.
  intros Hsame [[root [Hroot [Hs Hself]]] Hnodes].
  assert (Hext : extends t t').
  { intros x m Hm. destruct (Hsame x) as [f [Hx Hf]].
    rewrite Hm in Hx. cbn [option_map] in Hx. exists (f m). split; [assumption|].
    destruct (Hf m) as [Hp [Hc [_ [Hst [Hsf [Hmv _]]]]]].
    repeat split; auto. rewrite Hc. apply incl_refl. }
  split.
  - destruct (Hsame 0) as [f [Hx Hf]]. rewrite Hroot in Hx. cbn [option_map] in Hx.
    destruct (Hf root) as [_ [_ [_ [Hst [Hsf _]]]]].
    exists (f root). repeat split; congruence.
  - intros i n' Hn'. destruct (Hsame i) as [f [Hx Hf]]. rewrite Hn' in Hx.
    destruct (nth_error t i) as [n|] eqn:Hn; [|discriminate].
    cbn [option_map] in Hx. injection Hx as ->.
    apply (game_node_same t' i n); [apply Hf|].
    apply (game_node_extends t); auto.
Qed.

Lemma expand_game {engine : Type} {E : Engine engine} (pl : player) (s : board)
      (g g' : engine) (t t' : tree) (l leaf' : nat) (n : node) :
  game_tree pl s t ->
  nth_error t l = Some n ->
  isleaf n = true ->
  expand pl g t l = Some (t', g', leaf') ->
  game_tree pl s t'
  /\ exists n', nth_error t' l = Some n'
                /\ (isleaf n' = false \/ is_terminal n' = true).
Proof.
  intros [[root [Hroot [Hs Hself]]] Hnodes] Hn Hleaf Hexp.
  pose proof (Hnodes l n Hn) as Hgn.
  pose proof (gn_leaf _ _ _ Hgn Hleaf) as Hnil.
  assert (Hl : l < length t) by (apply nth_error_Some; now rewrite Hn).
  destruct (expand_cases pl g t l n Hn)
    as [[Hterm He]|[[Hterm [Hcs He]]|[Hterm [front [rest [g1 [Hperm He]]]]]]];
    rewrite He in Hexp; injection Hexp as <- <- <-.
  - split; [split; eauto|]. exists n. auto.
  - rewrite Hnil in Hcs. cbn [app] in Hcs.
    assert (Hadded : new_nodes l (state n) (to_move n) cells = []).
    { destruct (new_nodes l (state n) (to_move n) cells); [reflexivity|].
      cbn in Hcs. discriminate. }
    assert (Hext : extends t (set_node t l (set_terminal n))).
    { intros x m Hm. destruct (Nat.eq_dec l x) as [<-|Hne].
      - rewrite nth_error_set_node_eq by assumption.
        exists (set_terminal n). rewrite Hn in Hm. injection Hm as <-.
        repeat split. apply incl_refl.
      - rewrite nth_error_set_node_ne by assumption.
        exists m. repeat split; auto. apply incl_refl. }
    split; [split|].
    + destruct (Hext 0 root Hroot) as [r' [Hr' [_ [_ [Hst [Hsf _]]]]]].
      exists r'. repeat split; congruence.
    + intros i m Hm. destruct (Nat.eq_dec l i) as [<-|Hne].
      * rewrite nth_error_set_node_eq in Hm by assumption. injection Hm as <-.
        pose proof (game_node_extends _ _ _ _ Hext Hgn) as Hgn'.
        destruct Hgn' as [H1 H2 H3 H4 H5 H6 H7].
        split; cbn [set_terminal isleaf childrens parent is_terminal state
                    move_placed]; auto.
        intros _. split; [assumption|]. intros j Hj.
        exact (new_nodes_nil l (state n) (to_move n) cells Hadded j Hj).
      * rewrite nth_error_set_node_ne in Hm by assumption.
        apply (game_node_extends t); auto.
    + exists (set_terminal n). split; [now apply nth_error_set_node_eq|].
      right. reflexivity.
  - rewrite Hnil in Hperm. cbn [app] in Hperm.
    set (added := new_nodes l (state n) (to_move n) cells) in *.
    set (sh := front :: rest) in *.
    assert (Hlookup : forall x,
               nth_error (set_node (t ++ added) l (set_childrens n sh)) x
               = if Nat.eqb l x then Some (set_childrens n sh)
                 else nth_error (t ++ added) x).
    { intros x. destruct (Nat.eqb_spec l x) as [<-|Hne].
      - apply nth_error_set_node_eq. rewrite length_app. lia.
      - now apply nth_error_set_node_ne. }
    assert (Hext : extends t (set_node (t ++ added) l (set_childrens n sh))).
    { intros x m Hm. rewrite Hlookup. destruct (Nat.eqb_spec l x) as [<-|Hne].
      - exists (set_childrens n sh). rewrite Hn in Hm. injection Hm as <-.
        repeat split. rewrite Hnil. intros c [].
      - exists m. rewrite nth_error_app1
          by (apply nth_error_Some; now rewrite Hm).
        repeat split; auto. apply incl_refl. }
    assert (Hsh : forall c, In c sh <->
                            exists k, c = length t + k /\ k < length added).
    { intros c. split.
      - intros Hc. apply (Permutation_in _ Hperm), in_seq in Hc.
        exists (c - length t). lia.
      - intros [k [-> Hk]]. apply (Permutation_in _ (Permutation_sym Hperm)).
        apply in_seq. lia. }
    assert (Hnew : forall k m, nth_error added k = Some m ->
                     nth_error (set_node (t ++ added) l (set_childrens n sh))
                               (length t + k) = Some m).
    { intros k m Hm. rewrite Hlookup.
      destruct (Nat.eqb_spec l (length t + k)) as [Heq|_]; [lia|].
      rewrite nth_error_app2 by lia.
      now replace (length t + k - length t) with k by lia. }
    split; [split|].
    + destruct (Hext 0 root Hroot) as [r' [Hr' [_ [_ [Hst [Hsf _]]]]]].
      exists r'. repeat split; congruence.
    + intros i m Hm. rewrite Hlookup in Hm.
      destruct (Nat.eqb_spec l i) as [<-|Hne].
      * injection Hm as <-.
        pose proof (game_node_extends _ _ _ _ Hext Hgn) as Hgn'.
        destruct Hgn' as [H1 H2 H3 H4 H5 H6 H7].
        split; cbn [set_childrens isleaf childrens parent is_terminal state
                    move_placed]; auto; try discriminate.
        -- apply (Permutation_NoDup (Permutation_sym Hperm)), seq_NoDup.
        -- intros c Hc. apply Hsh in Hc. destruct Hc as [k [-> Hk]].
           destruct (nth_error added k) as [m|] eqn:Hm;
             [|apply nth_error_None in Hm; lia].
           exists m. split; [now apply Hnew|].
           apply nth_error_In, new_nodes_iff in Hm.
           destruct Hm as [j [temp [_ [_ ->]]]]. reflexivity.
        -- intros c1 c2 m1 m2 Hc1 Hc2 Hm1 Hm2 Hmv.
           apply Hsh in Hc1, Hc2.
           destruct Hc1 as [k1 [-> Hk1]]. destruct Hc2 as [k2 [-> Hk2]].
           destruct (nth_error added k1) as [o1|] eqn:Ho1;
             [|apply nth_error_None in Ho1; lia].
           destruct (nth_error added k2) as [o2|] eqn:Ho2;
             [|apply nth_error_None in Ho2; lia].
           rewrite (Hnew k1 o1 Ho1) in Hm1. rewrite (Hnew k2 o2 Ho2) in Hm2.
           injection Hm1 as <-. injection Hm2 as <-.
           f_equal. apply (new_nodes_same_move l (state n) (to_move n) cells k1 k2 o1 o2);
             assumption.
        -- rewrite Hterm. discriminate.
        -- intros _ j b' Hj Ha.
           assert (Hin : In (set_move (new_node (Some l) b' (to_move n))
                               (action_place {| position := j; piece := to_move n |}))
                            added).
           { apply new_nodes_iff. exists j, b'. auto. }
           apply In_nth_error in Hin. destruct Hin as [k Hk].
           exists (length t + k), (set_move (new_node (Some l) b' (to_move n))
                               (action_place {| position := j; piece := to_move n |})).
           split; [|split; [now apply Hnew|reflexivity]].
           apply Hsh. exists k. split; [reflexivity|].
           apply nth_error_Some. now rewrite Hk.
      * destruct (Nat.lt_ge_cases i (length t)) as [Hlt|Hge].
        -- rewrite nth_error_app1 in Hm by assumption.
           apply (game_node_extends t); auto.
        -- rewrite nth_error_app2 in Hm by assumption.
           pose proof Hm as Hin. apply nth_error_In, new_nodes_iff in Hin.
           destruct Hin as [j [temp [Hj [Ha ->]]]].
           split; cbn [set_move new_node isleaf childrens parent is_terminal
                       state move_placed self].
           ++ reflexivity.
           ++ constructor.
           ++ intros c [].
           ++ intros p Hp. injection Hp as <-.
              exists (set_childrens n sh), {| position := j; piece := to_move n |}.
              rewrite Hlookup, Nat.eqb_refl.
              repeat split; auto.
              apply Hsh. exists (i - length t). split; [lia|].
              apply nth_error_Some. now rewrite Hm.
           ++ intros c1 c2 m1 m2 [].
           ++ discriminate.
           ++ discriminate.
    + exists (set_childrens n sh). rewrite Hlookup, Nat.eqb_refl.
      split; [reflexivity|]. left. reflexivity.
Qed.

End GameProofs.

Section GameSearchProofs.

Context {board : Type} {B : Board board}.
Context {engine : Type} {E : Engine engine}.
Context {F : Rounding}.

#[local] Abbreviation node := (@node board).
#[local] Abbreviation tree := (@tree board).
#[local] Abbreviation search := (@search board engine).

Lemma iteration_steps (rollout_fuel : nat) (pl : player) (st st' : search) :
  iteration rollout_fuel pl st = Some st' ->
  exists l t g leaf n score ms os g' t',
    selection (length (nodes st)) pl (nodes st) 0 = Some l
    /\ expand pl (rng st) (nodes st) l = Some (t, g, leaf)
    /\ nth_error t leaf = Some n
    /\ rollout rollout_fuel pl g n (my_space st) (opponent_space st)
       = Some (score, ms, os, g')
    /\ backpropogation (length t) t (Some leaf) score = Some t'
    /\ st' = {| nodes := t'; rng := g'; my_space := ms; opponent_space := os;
                leaves := leaves st ++ [leaf] |}.
Proof.
  unfold iteration.
  destruct (selection _ pl (nodes st) 0) as [l|] eqn:Hsel; [|discriminate].
  destruct (expand pl (rng st) (nodes st) l) as [[[t g] leaf]|] eqn:Hexp;
    [|discriminate].
  destruct (nth_error t leaf) as [n|] eqn:Hn; [|discriminate].
  destruct (rollout rollout_fuel pl g n _ _) as [[[[score ms] os] g']|] eqn:Hroll;
    [|discriminate].
  destruct (backpropogation _ t (Some leaf) score) as [t'|] eqn:Hback;
    [|discriminate].
  intros H. injection H as <-.
  exists l, t, g, leaf, n, score, ms, os, g', t'. repeat split; assumption.
Qed.

Lemma rollout_spaces (fuel : nat) (pl : player) (g g' : engine) (current : node)
      (ms os ms' os' : list place) (score : Z) :
  rollout fuel pl g current ms os = Some (score, ms', os', g') ->
  Permutation ms' ms /\ Permutation os' os.
Proof.
  unfold rollout.
  pose proof (shuffle_perm _ g ms) as H1.
  destruct (shuffle g ms) as [ms1 g1].
  pose proof (shuffle_perm _ g1 os) as H2.
  destruct (shuffle g1 os) as [os1 g2]. cbn [fst] in H1, H2.
  destruct (is_terminal current).
  - intros H. injection H as _ <- <- _. auto.
  - destruct (rollout_loop _ _ _ _ _ _); [|discriminate].
    intros H. injection H as _ <- <- _. auto.
Qed.

Lemma expand_other (pl : player) (g g' : engine) (t t' : tree) (l leaf' x : nat) :
  expand pl g t l = Some (t', g', leaf') ->
  x <> l -> x < length t -> nth_error t' x = nth_error t x.
Proof.
  intros Hexp Hx Hlt.
  destruct (nth_error t l) as [n|] eqn:Hn;
    [|unfold expand in Hexp; rewrite Hn in Hexp; discriminate].
  destruct (expand_cases pl g t l n Hn)
    as [[_ He]|[[_ [_ He]]|[_ [front [rest [g1 [_ He]]]]]]];
    rewrite He in Hexp; injection Hexp as <- <- <-.
  - reflexivity.
  - apply nth_error_set_node_ne. auto.
  - rewrite nth_error_set_node_ne by auto. now apply nth_error_app1.
Qed.

Lemma selection_root (fuel : nat) (pl : player) (t : tree) (l : nat) :
  selection fuel pl t 0 = Some l -> l <> 0 ->
  exists root, nth_error t 0 = Some root /\ isleaf root = false.
Proof.
  destruct fuel as [|fuel]; cbn [selection]; [discriminate|].
  destruct (nth_error t 0) as [root|]; [|discriminate].
  destruct (isleaf root) eqn:Hleaf.
  - intros H Hl. injection H as <-. now elim Hl.
  - intros _ _. eauto.
Qed.

Lemma search_init_game (pl : player) (g : engine) (s : board) :
  game_search pl s (search_init pl g s).
Proof.
  split; [split|split; [|split]]; cbn [search_init nodes my_space opponent_space leaves].
  - exists (new_node None s (opponent pl)). auto.
  - intros [|i] n Hn; [|destruct i; discriminate].
    cbn in Hn. injection Hn as <-.
    split; cbn [new_node isleaf childrens parent is_terminal]; auto;
      try discriminate; try constructor.
    + intros c [].
    + intros c1 c2 m1 m2 [].
  - apply Permutation_refl.
  - apply Permutation_refl.
  - intros H. now elim H.
Qed.

Lemma iteration_game (rollout_fuel : nat) (pl : player) (s : board)
      (st st' : search) :
  wf_tree (nodes st) ->
  game_search pl s st ->
  iteration rollout_fuel pl st = Some st' ->
  game_search pl s st'.
Proof.
  intros Hwf [Hgame [Hms [Hos Hroot]]] Hit.
  destruct (iteration_steps _ _ _ _ Hit)
    as (l & t & g & leaf & n & score & ms & os & g' & t' &
        Hsel & Hexp & Hn & Hroll & Hback & ->).
  destruct (selection_leaf _ _ _ _ _ Hsel) as [nl [Hnl Hleaf]].
  assert (Hl : l < length (nodes st))
    by (apply nth_error_Some; now rewrite Hnl).
  destruct (expand_game pl s _ _ _ _ _ _ _ Hgame Hnl Hleaf Hexp)
    as [Hgame1 [nl' [Hnl' Hdone]]].
  destruct (expand_wf pl (rng st) (nodes st) l Hwf Hl)
    as (t1 & g1 & leaf1 & Hexp1 & Hwf1 & Hleaf1 & _).
  rewrite Hexp in Hexp1. injection Hexp1 as <- <- <-.
  destruct (backpropogation_walk (length t) t leaf score
              (wf_parents_before t Hwf1) Hleaf1 Hleaf1)
    as (t2 & Hback2 & Hlen2 & Hnodes2).
  rewrite Hback in Hback2. injection Hback2 as <-.
  assert (Hsame : forall x, exists f,
             nth_error t' x = option_map f (nth_error t x)
             /\ forall m : node, same_game m (f m)).
  { intros x. eexists. split; [apply Hnodes2|].
    intros m. cbv beta. destruct (existsb _ _); repeat split. }
  destruct (rollout_spaces _ _ _ _ _ _ _ _ _ _ Hroll) as [Hms' Hos'].
  split; [|split; [|split]]; cbn [nodes my_space opponent_space leaves].
  - apply (game_tree_counters pl s t t'); assumption.
  - apply (Permutation_trans Hms' Hms).
  - apply (Permutation_trans Hos' Hos).
  - intros _.
    assert (Hroot1 : exists root, nth_error t 0 = Some root
                       /\ (isleaf root = false \/ is_terminal root = true)).
    { destruct (Nat.eq_dec l 0) as [->|Hne]; [eauto|].
      destruct (selection_root _ _ _ _ Hsel Hne) as [root [Hr Hrl]].
      exists root. split; [|auto].
      rewrite (expand_other _ _ _ _ _ _ _ 0 Hexp); auto. lia. }
    destruct Hroot1 as [root [Hr Hrl]].
    destruct (Hsame 0) as [f [Hx Hf]]. rewrite Hr in Hx. cbn [option_map] in Hx.
    exists (f root). split; [assumption|].
    destruct (Hf root) as [_ [_ [Hl' [_ [_ [_ Ht']]]]]]. rewrite Hl', Ht'.
    assumption.
Qed.

End GameSearchProofs.

Section GameRunProofs.

Context {board : Type} {B : Board board} {Fl : Filling board}.
Context {engine : Type} {E : Engine engine}.
Context {F : Rounding}.

#[local] Abbreviation search := (@search board engine).

Lemma iterations_game (rollout_fuel bound : nat) (pl : player) (s : board)
      (n : nat) (st : search) :
  search_inv bound st ->
  bound < rollout_fuel ->
  game_search pl s st ->
  exists st',
    iterations rollout_fuel pl n st = Some st'
    /\ search_inv bound st'
    /\ length (leaves st') = n + length (leaves st)
    /\ game_search pl s st'.
Proof.
  intros Hinv Hfuel. revert st Hinv.
  induction n as [|n IH]; intros st Hinv Hgame.
  - exists st. auto.
  - destruct (iteration_inv rollout_fuel bound pl st Hinv Hfuel)
      as (st1 & Hit & Hinv1 & Hlen1).
    pose proof (iteration_game _ _ _ _ _ (proj1 Hinv) Hgame Hit) as Hgame1.
    destruct (IH st1 Hinv1 Hgame1) as (st' & Hrun & Hinv' & Hlen' & Hgame').
    exists st'. cbn [iterations]. rewrite Hit.
    split; [assumption|]. split; [assumption|]. split; [|assumption].
    rewrite Hlen', Hlen1. apply Nat.add_succ_r.
Qed.

(** The search of [take_action] after [n] turns of its loop. *)
Lemma search_run (rollout_fuel : nat) (pl : player) (g : engine) (s : board)
      (n : nat) :
  empty_cells s < rollout_fuel ->
  exists st,
    iterations rollout_fuel pl n (search_init pl g s) = Some st
    /\ search_inv (empty_cells s) st
    /\ length (leaves st) = n
    /\ game_search pl s st.
Proof.
  intros Hfuel.
  destruct (iterations_game rollout_fuel (empty_cells s) pl s n
              (search_init pl g s) (search_init_inv pl g s) Hfuel
              (search_init_game pl g s))
    as (st & Hrun & Hinv & Hlen & Hgame).
  exists st. split; [assumption|]. split; [assumption|].
  split; [|assumption]. rewrite Hlen. cbn. apply Nat.add_0_r.
Qed.

End GameRunProofs.

(** ** Visits along the tree *)

Section VisitProofs.

Context {board : Type}.

#[local] Abbreviation node := (@node board).
#[local] Abbreviation tree := (@tree board).

(** A walk that passes a node passes its parent next. *)
Lemma path_parent (t : tree) (c p : nat) (m : node) :
  parents_before t ->
  nth_error t c = Some m -> parent m = Some p -> p < length t ->
  forall fuel leaf,
    leaf < fuel ->
    In c (path fuel t (Some leaf)) -> In p (path fuel t (Some leaf)).
Proof.
  intros Hpb Hm Hp Hlt. induction fuel as [|fuel IH]; intros leaf Hfuel Hin;
    [lia|].
  cbn [path] in *. destruct (nth_error t leaf) as [nl|] eqn:Hnl; [|destruct Hin].
  destruct Hin as [<-|Hin].
  - right. rewrite Hm in Hnl. injection Hnl as <-. rewrite Hp.
    pose proof (Hpb _ _ _ Hm Hp) as Hlt'.
    destruct fuel as [|fuel]; [lia|]. cbn [path].
    destruct (nth_error t p) eqn:Hnp; [now left|].
    apply nth_error_None in Hnp. lia.
  - right. destruct (parent nl) as [q|] eqn:Hq;
      [|destruct fuel; destruct Hin].
    pose proof (Hpb _ _ _ Hnl Hq) as Hlt'.
    apply IH; [lia|assumption].
Qed.

Lemma on_path_parent (t : tree) (leaf c p : nat) (m : node) :
  parents_before t ->
  nth_error t c = Some m -> parent m = Some p -> p < length t ->
  on_path t leaf c = true -> on_path t leaf p = true.
Proof.
  intros Hpb Hm Hp Hlt. unfold on_path. rewrite !existsb_eqb_In.
  apply (path_parent t c p m); auto.
Qed.

End VisitProofs.

Lemma filter_length_incl (A : Type) (f g : A -> bool) (l : list A) :
  (forall x, In x l -> f x = true -> g x = true) ->
  length (filter f l) <= length (filter g l).
Proof.
  induction l as [|a l IH]; intros H; [auto|].
  assert (IH' : length (filter f l) <= length (filter g l))
    by (apply IH; intros x Hx; apply H; now right).
  cbn [filter]. destruct (f a) eqn:Hf.
  - rewrite (H a (or_introl eq_refl) Hf). cbn [length].
    apply le_n_S, IH'.
  - destruct (g a); cbn [length]; auto.
Qed.

Lemma filter_length_all (A : Type) (f : A -> bool) (l : list A) :
  length (filter f l) <= length l.
Proof.
  induction l as [|a l IH]; [auto|].
  cbn [filter]. destruct (f a); cbn [length]; auto using le_n_S.
Qed.

(** ** What a search keeps of the game *)

Section GameTheorems.

Context {board : Type} {B : Board board} {Fl : Filling board}.
Context {engine : Type} {E : Engine engine}.
Context {F : Rounding}.

(** X6.  After any number of turns of the loop of [take_action], the
    root is node 0, holds the board given and has no parent; every other
    node has a parent allocated before it that lists it among its
    children, and holds the board reached from the parent's board by its
    own move, a legal placement on a cell of the board by the side to
    act at the parent; the side to act alternates from parent to
    child. *)
Theorem search_nodes_placed (rollout_fuel : nat) (pl : player) (g : engine)
        (s : board) (n : nat) :
  empty_cells s < rollout_fuel ->
  exists st,
    iterations rollout_fuel pl n (search_init pl g s) = Some st
    /\ (exists root,
          nth_error (nodes st) 0 = Some root /\ state root = s
          /\ parent root = None /\ to_move root = my_opponent (opponent pl))
    /\ forall x m,
         nth_error (nodes st) x = Some m -> x <> 0 ->
         exists p pn mv,
           parent m = Some p /\ p < x /\ nth_error (nodes st) p = Some pn
           /\ In x (childrens pn)
           /\ move_placed m = action_place mv
           /\ piece mv = to_move pn /\ position mv < cells
           /\ apply_place mv (state pn) = Some (state m)
           /\ to_move m = my_opponent (to_move pn).
Proof.
  intros Hfuel.
  destruct (search_run rollout_fuel pl g s n Hfuel)
    as (st & Hrun & [[_ Hwf] _] & _ & [[[root [Hroot [Hs Hself]]] Hgame] _]).
  exists st. split; [assumption|]. split.
  - exists root. repeat split; auto.
    + pose proof (wf_parent _ _ _ (Hwf 0 root Hroot)) as Hp.
      destruct (parent root); [inversion Hp|reflexivity].
    + unfold to_move. now rewrite Hself.
  - intros x m Hm Hx.
    pose proof (wf_parent _ _ _ (Hwf x m Hm)) as Hp.
    destruct (parent m) as [p|] eqn:Hpm; [|contradiction].
    destruct (gn_placed _ _ _ (Hgame x m Hm) p Hpm)
      as (pn & mv & Hpn & Hin & Hmv & Hpc & Hpos & Hsf & Happ).
    exists p, pn, mv. repeat split; auto.
    unfold to_move at 1. now rewrite Hsf.
Qed.

(** X7.  After any number of turns of the loop of [take_action]: a leaf
    has no children; a node marked terminal is a leaf on whose board the
    side to act has no legal placement; a node that is no leaf has, for
    every cell where the side to act may place, exactly one child, which
    carries that placement and the board after it, and no child for a
    cell where it may not. *)
Theorem search_children_legal (rollout_fuel : nat) (pl : player) (g : engine)
        (s : board) (n : nat) :
  empty_cells s < rollout_fuel ->
  exists st,
    iterations rollout_fuel pl n (search_init pl g s) = Some st
    /\ forall x m,
         nth_error (nodes st) x = Some m ->
         (isleaf m = true -> childrens m = [])
         /\ (is_terminal m = true ->
             isleaf m = true
             /\ forall j, j < cells ->
                  apply_place {| position := j; piece := to_move m |} (state m)
                  = None)
         /\ (isleaf m = false ->
             NoDup (childrens m)
             /\ forall j, j < cells ->
                  match apply_place {| position := j; piece := to_move m |}
                                    (state m) with
                  | Some b' =>
                      exists c child,
                        In c (childrens m)
                        /\ nth_error (nodes st) c = Some child
                        /\ move_placed child
                           = action_place {| position := j; piece := to_move m |}
                        /\ state child = b'
                        /\ forall c' child',
                             In c' (childrens m) ->
                             nth_error (nodes st) c' = Some child' ->
                             move_placed child' = move_placed child -> c' = c
                  | None =>
                      forall c child,
                        In c (childrens m) ->
                        nth_error (nodes st) c = Some child ->
                        move_placed child
                        <> action_place {| position := j; piece := to_move m |}
                  end).
Proof.
  intros Hfuel.
  destruct (search_run rollout_fuel pl g s n Hfuel)
    as (st & Hrun & _ & _ & [[_ Hgame] _]).
  exists st. split; [assumption|]. intros x m Hm.
  pose proof (Hgame x m Hm) as Hgn.
  split; [apply Hgn|]. split; [apply Hgn|]. intros Hleaf.
  split; [apply Hgn|]. intros j Hj.
  assert (Hchild : forall c child,
             In c (childrens m) -> nth_error (nodes st) c = Some child ->
             forall mv, move_placed child = action_place mv ->
                        apply_place mv (state m) = Some (state child)).
  { intros c child Hc Hchild mv Hmv.
    destruct (gn_child _ _ _ Hgn c Hc) as [child' [Hchild' Hp]].
    rewrite Hchild in Hchild'. injection Hchild' as <-.
    destruct (gn_placed _ _ _ (Hgame c child Hchild) x Hp)
      as (pn & mv' & Hpn & _ & Hmv' & _ & _ & _ & Happ).
    rewrite Hm in Hpn. injection Hpn as <-.
    rewrite Hmv in Hmv'. injection Hmv' as <-. assumption. }
  destruct (apply_place _ (state m)) as [b'|] eqn:Ha.
  - destruct (gn_complete _ _ _ Hgn Hleaf j b' Hj Ha) as [c [child [Hc [Hcn Hmv]]]].
    exists c, child. repeat split; auto.
    + pose proof (Hchild c child Hc Hcn _ Hmv) as Hb. rewrite Ha in Hb.
      now injection Hb.
    + intros c' child' Hc' Hcn' Hmv'.
      apply (gn_distinct _ _ _ Hgn c' c child' child); auto.
  - intros c child Hc Hcn Hmv.
    pose proof (Hchild c child Hc Hcn _ Hmv) as Hb. rewrite Ha in Hb.
    discriminate.
Qed.

(** X8.  After [n] turns of the loop of [take_action], [n] within the
    range of [int], a child has no more visits than its parent, and is
    either unvisited or has the counters [best_child] computes with: at
    least one visit, no more wins than visits, and a parent visited at
    least once. *)
Theorem search_visits_decrease (rollout_fuel : nat) (pl : player) (g : engine)
        (s : board) (n : nat) :
  empty_cells s < rollout_fuel ->
  (Z.of_nat n <= int_max)%Z ->
  exists st,
    iterations rollout_fuel pl n (search_init pl g s) = Some st
    /\ forall x m c child,
         nth_error (nodes st) x = Some m ->
         In c (childrens m) ->
         nth_error (nodes st) c = Some child ->
         parent child = Some x
         /\ (si child <= si m <= Z.of_nat n)%Z
         /\ (si child = 0%Z \/ visited (nodes st) child).
Proof.
  intros Hfuel Hn.
  destruct (search_run rollout_fuel pl g s n Hfuel)
    as (st & Hrun & [Hwf [_ [Hleaves Hsi]]] & Hlen & [[_ Hgame] _]).
  exists st. split; [assumption|]. intros x m c child Hm Hc Hchild.
  destruct (gn_child _ _ _ (Hgame x m Hm) c Hc) as [child' [Hchild' Hp]].
  rewrite Hchild in Hchild'. injection Hchild' as <-.
  assert (Hx : x < length (nodes st))
    by (apply nth_error_Some; now rewrite Hm).
  assert (Hle : walks_through (nodes st) (leaves st) c
                <= walks_through (nodes st) (leaves st) x).
  { apply filter_length_incl. intros leaf _.
    apply (on_path_parent (nodes st) leaf c x child); auto.
    now apply wf_parents_before. }
  assert (Hall : walks_through (nodes st) (leaves st) x <= n).
  { rewrite <- Hlen. apply filter_length_all. }
  pose proof (Hsi x m Hm) as Hsm. pose proof (Hsi c child Hchild) as Hsc.
  pose proof (wf_counters _ _ _ (proj2 Hwf c child Hchild)) as Hcnt.
  assert (Hpsi : parent_si (nodes st) child = si m).
  { unfold parent_si. now rewrite Hp, Hm. }
  split; [assumption|]. split; [lia|].
  destruct (Z.eq_dec (si child) 0) as [Hz|Hnz]; [now left|right].
  unfold visited. rewrite Hpsi. lia.
Qed.

End GameTheorems.

(** ** The move returned is legal *)

Section LegalMoveProofs.

Context {board : Type}.

#[local] Abbreviation tree := (@tree board).

(** The move kept by the loop after the search is the one it started
    with or the move of a child. *)
Lemma best_move_from_cases (t : tree) (cs : list nat) (bestcount : Z)
      (mv : action) :
  best_move_from t cs bestcount mv = mv
  \/ exists c child, In c cs /\ nth_error t c = Some child
                     /\ best_move_from t cs bestcount mv = move_placed child.
Proof.
  revert bestcount mv. induction cs as [|c cs IH]; intros bestcount mv;
    [now left|].
  cbn [best_move_from]. destruct (nth_error t c) as [child|] eqn:Hc.
  - destruct (si child >? bestcount)%Z.
    + right. destruct (IH (si child) (move_placed child))
        as [Hkeep|[c' [child' [Hin [Hc' Hres]]]]].
      * exists c, child. repeat split; auto. now left.
      * exists c', child'. repeat split; auto. now right.
    + destruct (IH bestcount mv) as [Hkeep|[c' [child' [Hin [Hc' Hres]]]]];
        [now left|right].
      exists c', child'. repeat split; auto. now right.
  - destruct (IH bestcount mv) as [Hkeep|[c' [child' [Hin [Hc' Hres]]]]];
      [now left|right].
    exists c', child'. repeat split; auto. now right.
Qed.

(** With a first child above [bestcount], the move kept is a
    child's. *)
Lemma best_move_from_child (t : tree) (c : nat) (cs : list nat) (child : node)
      (bestcount : Z) (mv : action) :
  nth_error t c = Some child ->
  (bestcount < si child)%Z ->
  exists c' child', In c' (c :: cs) /\ nth_error t c' = Some child'
                    /\ best_move_from t (c :: cs) bestcount mv
                       = move_placed child'.
Proof.
  intros Hc Hlt. cbn [best_move_from]. rewrite Hc.
  replace (si child >? bestcount)%Z with true by (symmetry; apply Z.gtb_lt; lia).
  destruct (best_move_from_cases t cs (si child) (move_placed child))
    as [Hkeep|[c' [child' [Hin [Hc' Hres]]]]].
  - exists c, child. repeat split; auto. now left.
  - exists c', child'. repeat split; auto. now right.
Qed.

End LegalMoveProofs.

Section LegalMoveTheorems.

Context {board : Type} {B : Board board} {Fl : Filling board}.
Context {engine : Type} {E : Engine engine}.
Context {F : Rounding} {C : Clock}.

(** X9.  [take_action] of a player made for black or white, when the
    clock check first succeeds at its [k]-th reading: the action
    returned is a placement of the player's own piece on a cell of the
    board that is legal on the board given; it is [action()] only when
    the player has no legal placement at all. *)
Theorem take_action_legal (role : String.string) (pl : player) (g : engine)
        (s : board) (rollout_fuel k fuel : nat) :
  mcts_player role = Some pl ->
  empty_cells s < rollout_fuel ->
  1 <= k ->
  expired (clock 0) (clock k) = true ->
  (forall q, 1 <= q < k -> expired (clock 0) (clock q) = false) ->
  500 * k <= fuel ->
  exists a,
    take_action fuel rollout_fuel pl g s = Some a
    /\ match a with
       | action_place mv =>
           piece mv = who pl /\ position mv < cells
           /\ exists b', apply_place mv s = Some b'
       | action_default =>
           forall i, i < cells ->
                     apply_place {| position := i; piece := who pl |} s = None
       end.
Proof.
  intros Hrole Hfuel Hk Hexp Hnot Hbound.
  destruct (mcts_player_sides role pl Hrole) as [Hopp _].
  destruct (search_run rollout_fuel pl g s (500 * k) Hfuel)
    as (st & Hrun & [[_ Hwf] _] & Hlen & [[[root [Hroot [Hs Hself]]] Hgame]
                                            [_ [_ Hdone]]]).
  assert (Hloop : search_loop fuel rollout_fuel pl (clock 0) 0%Z 1
                              (search_init pl g s) = Some st).
  { apply (search_loop_runs rollout_fuel pl (clock 0) k (500 * k) Hexp Hnot
             0 0 fuel (search_init pl g s) st); auto; lia. }
  exists (best_move (nodes st)). split.
  { unfold take_action. now rewrite Hloop. }
  assert (Hto : to_move root = who pl)
    by (unfold to_move; now rewrite Hself).
  destruct Hdone as [root' [Hroot' Hcase]].
  { intros Hnil. rewrite Hnil in Hlen. cbn in Hlen. lia. }
  rewrite Hroot in Hroot'. injection Hroot' as <-.
  pose proof (Hgame 0 root Hroot) as Hgn.
  unfold best_move. rewrite Hroot.
  destruct (childrens root) as [|c cs] eqn:Hcs.
  - cbn [best_move_from]. destruct Hcase as [Hleaf|Hterm].
    + elim (wf_inner _ _ _ (Hwf 0 root Hroot) Hleaf Hcs).
    + destruct (gn_terminal _ _ _ Hgn Hterm) as [_ Hnone].
      rewrite Hto, Hs in Hnone. exact Hnone.
  - destruct (gn_child _ _ _ Hgn c) as [child [Hchild _]];
      [rewrite Hcs; now left|].
    pose proof (wf_counters _ _ _ (Hwf c child Hchild)) as Hcnt.
    destruct (best_move_from_child (nodes st) c cs child (-1) action_default
                Hchild)
      as (c' & child' & Hin & Hchild' & ->); [lia|].
    rewrite <- Hcs in Hin.
    destruct (gn_child _ _ _ Hgn c' Hin) as [child2 [Hchild2 Hp]].
    rewrite Hchild' in Hchild2. injection Hchild2 as <-.
    destruct (gn_placed _ _ _ (Hgame c' child' Hchild') 0 Hp)
      as (pn & mv & Hpn & _ & -> & Hpc & Hpos & _ & Happ).
    rewrite Hroot in Hpn. injection Hpn as <-.
    rewrite Hto in Hpc. rewrite Hs in Happ. eauto.
Qed.

End LegalMoveTheorems.

(** ** Deleting the nodes *)

Section DeleteProofs.

Context {board : Type} {B : Board board}.

#[local] Abbreviation node := (@node board).
#[local] Abbreviation tree := (@tree board).

(** The walk from a node: the node, then the walk from its parent. *)
Lemma on_path_step (t : tree) (x a : nat) (nx : node) :
  parents_before t ->
  nth_error t x = Some nx ->
  on_path t x a
  = (Nat.eqb a x
     || match parent nx with Some q => on_path t q a | None => false end).
Proof.
  intros Hpb Hnx. unfold on_path. cbn [path]. rewrite Hnx. cbn [existsb].
  f_equal. destruct (parent nx) as [q|] eqn:Hq.
  - pose proof (Hpb _ _ _ Hnx Hq) as Hlt.
    rewrite (path_fuel x (S q) t q Hpb); auto.
  - destruct x; reflexivity.
Qed.

(** Two nodes passed by one walk: the walk from the later one passes
    the earlier one. *)
Lemma on_path_chain (t : tree) (x a b : nat) :
  parents_before t ->
  on_path t x a = true -> on_path t x b = true -> b <= a ->
  on_path t a b = true.
Proof.
  intros Hpb. induction x as [x IH] using lt_wf_ind. intros Ha Hb Hle.
  destruct (nth_error t x) as [nx|] eqn:Hnx.
  - rewrite (on_path_step t x a nx Hpb Hnx) in Ha.
    rewrite (on_path_step t x b nx Hpb Hnx) in Hb.
    apply orb_true_iff in Ha. destruct Ha as [Ha|Ha].
    + apply Nat.eqb_eq in Ha. subst a.
      rewrite (on_path_step t x b nx Hpb Hnx). exact Hb.
    + destruct (parent nx) as [q|] eqn:Hq; [|discriminate].
      pose proof (Hpb _ _ _ Hnx Hq) as Hlt.
      pose proof (on_path_le t q a Hpb Ha) as Haq.
      apply orb_true_iff in Hb. destruct Hb as [Hb|Hb].
      * apply Nat.eqb_eq in Hb. lia.
      * apply (IH q); auto.
  - unfold on_path in Ha. cbn [path] in Ha. rewrite Hnx in Ha. discriminate.
Qed.


Lemma on_path_valid (t : tree) (x a : nat) :
  on_path t x a = true -> x < length t.
Proof.
  unfold on_path. cbn [path]. destruct (nth_error t x) eqn:Hx; [|discriminate].
  intros _. apply nth_error_Some. now rewrite Hx.
Qed.

Lemma on_path_self (t : tree) (x : nat) : x < length t -> on_path t x x = true.
Proof.
  intros Hx. unfold on_path. apply existsb_eqb_In. now apply path_self.
Qed.

(** A walk that passes a node without starting there passes one of its
    children. *)
Lemma on_path_child (t : tree) (i : nat) :
  parents_before t ->
  forall x,
    on_path t x i = true -> x <> i ->
    exists c m, nth_error t c = Some m /\ parent m = Some i
                /\ on_path t x c = true.
Proof.
  intros Hpb x. induction x as [x IH] using lt_wf_ind. intros Hon Hne.
  pose proof (on_path_valid t x i Hon) as Hx.
  destruct (nth_error t x) as [nx|] eqn:Hnx;
    [|apply nth_error_None in Hnx; lia].
  rewrite (on_path_step t x i nx Hpb Hnx) in Hon.
  apply orb_true_iff in Hon. destruct Hon as [Hon|Hon].
  { apply Nat.eqb_eq in Hon. congruence. }
  destruct (parent nx) as [q|] eqn:Hq; [|discriminate].
  pose proof (Hpb _ _ _ Hnx Hq) as Hlt.
  destruct (Nat.eq_dec q i) as [->|Hqi].
  - exists x, nx. repeat split; auto. now apply on_path_self.
  - destruct (IH q Hlt Hon Hqi) as (c & m & Hm & Hp & Hc).
    exists c, m. repeat split; auto.
    rewrite (on_path_step t x c nx Hpb Hnx), Hq, Hc. apply orb_true_r.
Qed.

(** No walk passes two children of one node. *)
Lemma on_path_siblings (t : tree) (i x c1 c2 : nat) (m1 m2 : node) :
  parents_before t ->
  nth_error t c1 = Some m1 -> parent m1 = Some i ->
  nth_error t c2 = Some m2 -> parent m2 = Some i ->
  on_path t x c1 = true -> on_path t x c2 = true -> c1 = c2.
Proof.
  intros Hpb Hm1 Hp1 Hm2 Hp2 H1 H2.
  assert (Hone : forall a b (ma : node),
             nth_error t a = Some ma -> parent ma = Some i ->
             i < b -> b <= a -> on_path t x a = true -> on_path t x b = true ->
             a = b).
  { intros a b ma Hma Hpa Hib Hba Ha Hb.
    pose proof (on_path_chain t x a b Hpb Ha Hb Hba) as Hab.
    rewrite (on_path_step t a b ma Hpb Hma), Hpa in Hab.
    apply orb_true_iff in Hab. destruct Hab as [Hab|Hab].
    - apply Nat.eqb_eq in Hab. auto.
    - apply (on_path_le t i b Hpb) in Hab. lia. }
  pose proof (Hpb _ _ _ Hm1 Hp1). pose proof (Hpb _ _ _ Hm2 Hp2).
  destruct (Nat.le_ge_cases c2 c1).
  - apply (Hone c1 c2 m1); auto.
  - symmetry. apply (Hone c2 c1 m2); auto.
Qed.

(** The loop of [deletenode] over the children [cs] of node [i], given
    what a call does on each of them. *)
Lemma deletenode_children (fuel : nat) (t : tree) (i : nat) :
  parents_before t ->
  (forall c deleted,
      i < c -> c < length t ->
      (forall x, In x deleted -> on_path t x c = false) ->
      exists ds, deletenode fuel t deleted c = Some (ds ++ deleted)
                 /\ NoDup ds /\ forall x, In x ds <-> on_path t x c = true) ->
  forall cs deleted,
    NoDup cs ->
    (forall c, In c cs -> exists m, nth_error t c = Some m /\ parent m = Some i) ->
    (forall x c, In x deleted -> In c cs -> on_path t x c = false) ->
    exists ds,
      fold_left
        (fun acc c =>
           match acc with
           | Some d => deletenode fuel t d c
           | None => None
           end)
        cs (Some deleted)
      = Some (ds ++ deleted)
      /\ NoDup ds
      /\ forall x, In x ds <-> exists c, In c cs /\ on_path t x c = true.
Proof.
  intros Hpb Hcall. induction cs as [|c cs IH]; intros deleted Hnd Hcs Hdel.
  - exists []. split; [reflexivity|]. split; [constructor|].
    intros x. split; [intros []|intros [c [[] _]]].
  - destruct (Hcs c (or_introl eq_refl)) as [m [Hm Hp]].
    pose proof (Hpb _ _ _ Hm Hp) as Hic.
    assert (Hc : c < length t) by (apply nth_error_Some; now rewrite Hm).
    destruct (Hcall c deleted Hic Hc) as (ds1 & Hrun1 & Hnd1 & Hin1).
    { intros x Hx. apply Hdel; [assumption|now left]. }
    inversion Hnd as [|c' cs' Hnotin Hnd']; subst.
    destruct (IH (ds1 ++ deleted) Hnd') as (ds2 & Hrun2 & Hnd2 & Hin2).
    { intros c' Hc'. apply Hcs. now right. }
    { intros x c' Hx Hc'. apply in_app_or in Hx. destruct Hx as [Hx|Hx].
      - destruct (on_path t x c') eqn:Hon; [|reflexivity]. exfalso.
        destruct (Hcs c' (or_intror Hc')) as [m' [Hm' Hp']].
        apply Hin1 in Hx.
        assert (c = c') by (apply (on_path_siblings t i x c c' m m'); auto).
        subst c'. contradiction.
      - apply Hdel; [assumption|now right]. }
    exists (ds2 ++ ds1). cbn [fold_left]. rewrite Hrun1, Hrun2.
    split; [now rewrite app_assoc|]. split.
    + apply NoDup_app; auto. intros x Hx2 Hx1.
      apply Hin2 in Hx2. destruct Hx2 as [c' [Hc' Hon']].
      apply Hin1 in Hx1.
      destruct (Hcs c' (or_intror Hc')) as [m' [Hm' Hp']].
      assert (c = c') by (apply (on_path_siblings t i x c c' m m'); auto).
      subst c'. contradiction.
    + intros x. rewrite in_app_iff, Hin1, Hin2. split.
      * intros [[c' [Hc' Hon]]|Hon]; [exists c'|exists c]; split; auto;
          [now right|now left].
      * intros [c' [[<-|Hc'] Hon]]; [now right|left]. exists c'. auto.
Qed.

(** A call of [deletenode] on node [i] deletes the nodes whose walk to
    the root passes [i], each once. *)
Lemma deletenode_subtree (pl : player) (s : board) (t : tree) :
  wf_tree t -> game_tree pl s t ->
  forall fuel i deleted,
    length t <= fuel + i -> i < length t ->
    (forall x, In x deleted -> on_path t x i = false) ->
    exists ds, deletenode fuel t deleted i = Some (ds ++ deleted)
               /\ NoDup ds /\ forall x, In x ds <-> on_path t x i = true.
Proof.
  intros Hwf [_ Hgame]. pose proof (wf_parents_before t Hwf) as Hpb.
  induction fuel as [|fuel IH]; intros i deleted Hfuel Hi Hdel; [lia|].
  cbn [deletenode].
  assert (Hnot : existsb (Nat.eqb i) deleted = false).
  { apply existsb_eqb_not_In. intros Hin. apply Hdel in Hin.
    rewrite (on_path_self t i Hi) in Hin. discriminate. }
  rewrite Hnot.
  destruct (nth_error t i) as [n|] eqn:Hn;
    [|apply nth_error_None in Hn; lia].
  pose proof (Hgame i n Hn) as Hgn.
  destruct (deletenode_children fuel t i Hpb) with (cs := childrens n)
                                                   (deleted := deleted)
    as (ds & Hrun & Hnd & Hin).
  - intros c del Hic Hc Hdc. apply IH; auto. lia.
  - apply Hgn.
  - apply Hgn.
  - intros x c Hx Hc. destruct (on_path t x c) eqn:Hon; [|reflexivity].
    destruct (gn_child _ _ _ Hgn c Hc) as [m [Hm Hp]].
    rewrite <- (Hdel x Hx). symmetry.
    apply (on_path_parent t x c i m); auto.
  - rewrite Hrun.
    assert (Hnotin : ~ In i ds).
    { intros Hi'. apply Hin in Hi'. destruct Hi' as [c [Hc Hon]].
      apply (on_path_le t i c Hpb) in Hon.
      destruct (gn_child _ _ _ Hgn c Hc) as [m [Hm Hp]].
      pose proof (Hpb _ _ _ Hm Hp). lia. }
    assert (Hnot' : existsb (Nat.eqb i) (ds ++ deleted) = false).
    { apply existsb_eqb_not_In. intros Hi'. apply in_app_or in Hi'.
      destruct Hi' as [Hi'|Hi']; [contradiction|].
      apply Hdel in Hi'. rewrite (on_path_self t i Hi) in Hi'. discriminate. }
    rewrite Hnot'. exists (i :: ds). split; [reflexivity|].
    split; [now constructor|]. intros x. cbn [In]. rewrite Hin. split.
    + intros [<-|[c [Hc Hon]]]; [now apply on_path_self|].
      destruct (gn_child _ _ _ Hgn c Hc) as [m [Hm Hp]].
      apply (on_path_parent t x c i m); auto.
    + intros Hon. destruct (Nat.eq_dec x i) as [->|Hne]; [now left|right].
      destruct (on_path_child t i Hpb x Hon Hne) as (c & m & Hm & Hp & Hc).
      exists c. split; [|assumption].
      destruct (gn_placed _ _ _ (Hgame c m Hm) i Hp)
        as (pn & mv & Hpn & Hinc & _).
      rewrite Hn in Hpn. now injection Hpn as <-.
Qed.

End DeleteProofs.

Section DeleteTheorems.

Context {board : Type} {B : Board board} {Fl : Filling board}.
Context {engine : Type} {E : Engine engine}.
Context {F : Rounding}.

(** X10.  [deletenode(root)] after any number of turns of the loop of
    [take_action] returns, having deleted every node allocated exactly
    once, the root last, and never read or deleted a node deleted
    before. *)
Theorem deletenode_once (rollout_fuel : nat) (pl : player) (g : engine)
        (s : board) (n : nat) :
  empty_cells s < rollout_fuel ->
  exists st deleted,
    iterations rollout_fuel pl n (search_init pl g s) = Some st
    /\ deletenode (length (nodes st)) (nodes st) [] 0 = Some (0 :: deleted)
    /\ Permutation (0 :: deleted) (seq 0 (length (nodes st))).
Proof.
  intros Hfuel.
  destruct (search_run rollout_fuel pl g s n Hfuel)
    as (st & Hrun & [Hwf _] & _ & [Hgame _]).
  assert (Hlen : 0 < length (nodes st)).
  { destruct Hwf as [Hne _]. destruct (nodes st); [now elim Hne|cbn; lia]. }
  destruct (deletenode_subtree pl s (nodes st) Hwf Hgame (length (nodes st)) 0 [])
    as (ds & Hdel & Hnd & Hin); [lia|assumption|intros x []|].
  rewrite app_nil_r in Hdel.
  assert (Hperm : Permutation ds (seq 0 (length (nodes st)))).
  { apply NoDup_Permutation; [assumption|apply seq_NoDup|].
    intros x. rewrite Hin, in_seq. split.
    - intros Hon. apply on_path_valid in Hon. lia.
    - intros [_ Hx]. unfold on_path. apply existsb_eqb_In.
      apply path_root; auto. }
  destruct ds as [|d ds].
  { apply Permutation_nil in Hperm.
    destruct (nodes st); [cbn in Hlen; lia|discriminate]. }
  assert (d = 0).
  { destruct (length (nodes st)) as [|k] eqn:Hk; [lia|].
    cbn [deletenode] in Hdel. destruct (nth_error (nodes st) 0); [|discriminate].
    cbn [existsb] in Hdel. destruct (fold_left _ _ _); [|discriminate].
    destruct (existsb _ _); [discriminate|]. now injection Hdel. }
  subst d. exists st, ds. auto.
Qed.

End DeleteTheorems.

(** ** One call of [expand] *)

Section ExpandTheorems.

Context {board : Type} {B : Board board}.

#[local] Abbreviation node := (@node board).
#[local] Abbreviation tree := (@tree board).

(** The nodes of one expansion, cell by cell. *)
Lemma new_nodes_cells (current : nat) (s : board) (op : piece_type)
      (start count : nat) :
  Forall2
    (fun j (m : node) =>
       exists b',
         apply_place {| position := j; piece := op |} s = Some b'
         /\ m = set_move (new_node (Some current) b' op)
                         (action_place {| position := j; piece := op |}))
    (filter (fun i =>
               match apply_place {| position := i; piece := op |} s with
               | Some _ => true
               | None => false
               end)
            (seq start count))
    (flat_map
       (fun i =>
          let placement := {| position := i; piece := op |} in
          match apply_place placement s with
          | Some temp =>
              [ set_move (new_node (Some current) temp op)
                         (action_place placement) ]
          | None => []
          end)
       (seq start count)).
Proof.
  revert start. induction count as [|count IH]; intros start; [constructor|].
  cbn [seq flat_map filter].
  destruct (apply_place {| position := start; piece := op |} s) as [b'|] eqn:Ha.
  - constructor; [|apply IH]. exists b'. auto.
  - apply IH.
Qed.

Lemma Forall2_nth (A C : Type) (R : A -> C -> Prop) (l : list A) (l' : list C) :
  Forall2 R l l' ->
  length l = length l'
  /\ forall k a, nth_error l k = Some a ->
                 exists c, nth_error l' k = Some c /\ R a c.
Proof.
  induction 1 as [|a c l l' Hac _ [IHlen IHnth]].
  - split; [reflexivity|]. intros [|k] a H; discriminate.
  - split; [cbn; now rewrite IHlen|].
    intros [|k] a' Hk; cbn in Hk |- *.
    + injection Hk as <-. eauto.
    + now apply IHnth.
Qed.

Lemma new_nodes_legal (current : nat) (s : board) (op : piece_type) :
  length (legal_cells s op) = length (new_nodes current s op cells)
  /\ forall k j,
       nth_error (legal_cells s op) k = Some j ->
       exists b',
         apply_place {| position := j; piece := op |} s = Some b'
         /\ nth_error (new_nodes current s op cells) k
            = Some (set_move (new_node (Some current) b' op)
                             (action_place {| position := j; piece := op |})).
Proof.
  destruct (Forall2_nth _ _ _ _ _ (new_nodes_cells current s op 0 cells))
    as [Hlen Hnth].
  split; [exact Hlen|]. intros k j Hk.
  destruct (Hnth k j Hk) as (m & Hm & b' & Ha & ->). eauto.
Qed.

(** X11.  [expand] on a node that is not marked terminal allocates one
    node for every cell where the side to act may place, in the order
    of the cells: an unvisited leaf holding the board after the
    placement, with the node as its parent.  It adds the new nodes to
    the children of the node, in a shuffled order, and leaves every
    other node as it was.  With no child at all the node is marked
    terminal and returned; otherwise it stops being a leaf and its
    first child is returned. *)
Theorem expand_allocates {engine : Type} {E : Engine engine} (pl : player)
        (g : engine) (t : tree) (l : nat) (n : node) :
  nth_error t l = Some n ->
  is_terminal n = false ->
  exists t' g' leaf' n',
    expand pl g t l = Some (t', g', leaf')
    /\ length t' = length t + length (legal_cells (state n) (to_move n))
    /\ (forall x, x < length t -> x <> l -> nth_error t' x = nth_error t x)
    /\ (forall k j,
           nth_error (legal_cells (state n) (to_move n)) k = Some j ->
           exists b',
             apply_place {| position := j; piece := to_move n |} (state n)
             = Some b'
             /\ nth_error t' (length t + k)
                = Some {| parent := Some l; childrens := []; wi := 0; si := 0;
                          isleaf := true; state := b'; self := to_move n;
                          move_placed :=
                            action_place
                              {| position := j; piece := to_move n |};
                          is_terminal := false |})
    /\ nth_error t' l = Some n'
    /\ parent n' = parent n /\ wi n' = wi n /\ si n' = si n
    /\ state n' = state n /\ self n' = self n
    /\ move_placed n' = move_placed n
    /\ Permutation (childrens n')
         (childrens n
          ++ seq (length t) (length (legal_cells (state n) (to_move n))))
    /\ match childrens n' with
       | [] => is_terminal n' = true /\ isleaf n' = isleaf n
               /\ leaf' = l /\ g' = g
       | front :: _ => is_terminal n' = false /\ isleaf n' = false
                       /\ leaf' = front
       end.
Proof.
  intros Hn Hterm.
  assert (Hl : l < length t) by (apply nth_error_Some; now rewrite Hn).
  destruct (new_nodes_legal l (state n) (to_move n)) as [Hlen Hnth].
  destruct (expand_cases pl g t l n Hn)
    as [[Hterm' _]|[[_ [Hcs He]]|[_ [front [rest [g1 [Hperm He]]]]]]].
  - congruence.
  - apply app_eq_nil in Hcs. destruct Hcs as [Hnil Hseq].
    assert (Hadded : length (new_nodes l (state n) (to_move n) cells) = 0).
    { destruct (length (new_nodes l (state n) (to_move n) cells));
        [reflexivity|discriminate]. }
    exists (set_node t l (set_terminal n)), g, l, (set_terminal n).
    rewrite Hlen, Hadded.
    split; [assumption|]. split; [rewrite length_set_node; lia|].
    split; [intros x _ Hx; apply nth_error_set_node_ne; auto|].
    split.
    { intros k j Hk. assert (k < 0); [|lia].
      rewrite <- Hadded, <- Hlen. apply nth_error_Some. now rewrite Hk. }
    split; [now apply nth_error_set_node_eq|].
    cbn [set_terminal parent wi si state self move_placed childrens
         is_terminal isleaf].
    rewrite Hnil. repeat split; auto.
  - set (added := new_nodes l (state n) (to_move n) cells) in *.
    exists (set_node (t ++ added) l (set_childrens n (front :: rest))), g1,
      front, (set_childrens n (front :: rest)).
    split; [assumption|].
    split; [rewrite length_set_node, length_app; lia|].
    split.
    { intros x Hx Hne. rewrite nth_error_set_node_ne by auto.
      now apply nth_error_app1. }
    split.
    { intros k j Hk. destruct (Hnth k j Hk) as (b' & Ha & Hm).
      exists b'. split; [assumption|].
      rewrite nth_error_set_node_ne by lia.
      rewrite nth_error_app2 by lia.
      replace (length t + k - length t) with k by lia. exact Hm. }
    split; [apply nth_error_set_node_eq; rewrite length_app; lia|].
    cbn [set_childrens parent wi si state self move_placed childrens
         is_terminal isleaf].
    rewrite Hlen. repeat split; auto.
Qed.

End ExpandTheorems.

(** ** A rollout from a board without a placement *)

Section StuckProofs.

Context {board : Type} {B : Board board}.

Lemma first_legal_none (current_space : list place) (temp : board) :
  (forall move, In move current_space -> apply_place move temp = None) ->
  first_legal current_space temp = None.
Proof.
  induction current_space as [|move rest IH]; intros H; [reflexivity|].
  cbn [first_legal]. rewrite (H move (or_introl eq_refl)).
  apply IH. intros m Hm. apply H. now right.
Qed.

Lemma space_none (op : piece_type) (temp : board) (sp : list place) :
  (forall i, i < cells ->
             apply_place {| position := i; piece := op |} temp = None) ->
  Permutation sp (map (fun i => {| position := i; piece := op |}) (seq 0 cells)) ->
  first_legal sp temp = None.
Proof.
  intros Hnone Hperm. apply first_legal_none. intros move Hin.
  apply (Permutation_in _ Hperm), in_map_iff in Hin.
  destruct Hin as [i [<- Hi]]. apply in_seq in Hi. apply Hnone. lia.
Qed.

(** X12.  [rollout] from a node on whose board the side to act has no
    legal placement, for a player made for black or white and with the
    two spaces as any earlier call left them: the score is 0 when the
    side to act is the player and 1 when it is the opponent, whether
    the node is marked terminal or not. *)
Theorem rollout_no_placement {engine : Type} {E : Engine engine}
        (role : String.string) (pl : player) (g : engine) (current : node)
        (ms os : list place) (fuel : nat) :
  mcts_player role = Some pl ->
  Permutation ms (space pl) ->
  Permutation os (myop_space pl) ->
  (forall i, i < cells ->
             apply_place {| position := i; piece := to_move current |}
                         (state current) = None) ->
  exists ms' os' g',
    rollout (S fuel) pl g current ms os
    = Some (if piece_eqb (to_move current) (who pl) then 0%Z else 1%Z,
            ms', os', g')
    /\ Permutation ms' (space pl) /\ Permutation os' (myop_space pl).
Proof.
  intros Hrole Hms Hos Hnone. unfold rollout. fold (to_move current).
  pose proof (shuffle_perm _ g ms) as H1.
  destruct (shuffle g ms) as [ms1 g1].
  pose proof (shuffle_perm _ g1 os) as H2.
  destruct (shuffle g1 os) as [os1 g2]. cbn [fst] in H1, H2.
  pose proof (Permutation_trans H1 Hms) as Hms1.
  pose proof (Permutation_trans H2 Hos) as Hos1.
  exists ms1, os1, g2. split; [|auto].
  assert (Hsides : (who pl = black /\ opponent pl = white)
                   \/ (who pl = white /\ opponent pl = black)).
  { unfold mcts_player in Hrole.
    destruct (String.eqb role "black"), (String.eqb role "white");
      cbn in Hrole; try discriminate; injection Hrole as <-; cbn; auto. }
  assert (Hto : to_move current = black \/ to_move current = white).
  { unfold to_move, my_opponent. destruct (piece_eqb (self current) black); auto. }
  assert (Hsym : piece_eqb (who pl) (to_move current)
                 = piece_eqb (to_move current) (who pl))
    by (destruct (who pl), (to_move current); reflexivity).
  destruct (is_terminal current).
  - now rewrite Hsym.
  - cbn [rollout_loop].
    assert (Hnolegal :
              first_legal (if piece_eqb (to_move current) (who pl)
                           then ms1 else os1) (state current) = None).
    { destruct (piece_eqb (to_move current) (who pl)) eqn:Heq.
      - apply (space_none (to_move current)); [assumption|].
        replace (to_move current) with (who pl); [exact Hms1|].
        destruct (who pl), (to_move current); try discriminate; reflexivity.
      - apply (space_none (to_move current)); [assumption|].
        replace (to_move current) with (opponent pl); [exact Hos1|].
        destruct Hsides as [[Hw Ho]|[Hw Ho]], Hto as [Ht|Ht];
          rewrite Hw, Ht in Heq; try discriminate; congruence. }
    now rewrite Hnolegal.
Qed.

End StuckProofs.

(** ** The random player *)

Section RandomPlayerProofs.

Context {board : Type} {B : Board board}.
Context {engine : Type} {E : Engine engine}.

Lemma first_legal_move_cases (sp : list place) (s : board) :
  match first_legal_move sp s with
  | action_place mv => In mv sp /\ exists b', apply_place mv s = Some b'
  | action_default => forall mv, In mv sp -> apply_place mv s = None
  end.
Proof.
  induction sp as [|move rest IH]; cbn [first_legal_move]; [intros mv []|].
  destruct (apply_place move s) as [b'|] eqn:Ha.
  - split; [now left|eauto].
  - destruct (first_legal_move rest s) as [|mv].
    + intros mv [<-|Hin]; auto.
    + destruct IH as [Hin Hlegal]. split; [now right|assumption].
Qed.

(** X13.  [player::take_action], with [space] as the constructor or any
    earlier call left it: the action returned is a placement of the
    player's piece on a cell of the board that is legal on the board
    given, and [action()] only when the player has no legal placement;
    [space] afterwards holds the same placements. *)
Theorem player_take_action_legal (pl : player) (g : engine) (sp : list place)
        (s : board) :
  Permutation sp (space pl) ->
  exists a sp' g',
    player_take_action g sp s = (a, sp', g')
    /\ Permutation sp' (space pl)
    /\ match a with
       | action_place mv =>
           piece mv = who pl /\ position mv < cells
           /\ exists b', apply_place mv s = Some b'
       | action_default =>
           forall i, i < cells ->
                     apply_place {| position := i; piece := who pl |} s = None
       end.
Proof.
  intros Hsp. unfold player_take_action.
  pose proof (shuffle_perm _ g sp) as Hperm.
  destruct (shuffle g sp) as [sp' g']. cbn [fst] in Hperm.
  pose proof (Permutation_trans Hperm Hsp) as Hsp'.
  exists (first_legal_move sp' s), sp', g'.
  split; [reflexivity|]. split; [assumption|].
  pose proof (first_legal_move_cases sp' s) as Hcases.
  destruct (first_legal_move sp' s) as [|mv].
  - intros i Hi. apply Hcases.
    apply (Permutation_in _ (Permutation_sym Hsp')).
    unfold space. apply in_map_iff. exists i. split; [reflexivity|].
    apply in_seq. lia.
  - destruct Hcases as [Hin Hlegal].
    apply (Permutation_in _ Hsp') in Hin. unfold space in Hin.
    apply in_map_iff in Hin. destruct Hin as [i [<- Hi]].
    apply in_seq in Hi. cbn. repeat split; auto. lia.
Qed.

End RandomPlayerProofs.

(** ** Size of the search *)

Section SizeTheorems.

Context {board : Type} {B : Board board} {Fl : Filling board}.
Context {engine : Type} {E : Engine engine}.
Context {F : Rounding}.

#[local] Abbreviation search := (@search board engine).

Lemma iteration_size (rollout_fuel : nat) (pl : player) (st st' : search) :
  wf_tree (nodes st) ->
  iteration rollout_fuel pl st = Some st' ->
  length (nodes st') <= length (nodes st) + cells.
Proof.
  intros Hwf Hit.
  destruct (iteration_steps _ _ _ _ Hit)
    as (l & t & g & leaf & n & score & ms & os & g' & t' &
        Hsel & Hexp & Hn & Hroll & Hback & ->).
  destruct (selection_leaf _ _ _ _ _ Hsel) as [nl [Hnl _]].
  assert (Hl : l < length (nodes st))
    by (apply nth_error_Some; now rewrite Hnl).
  destruct (expand_wf pl (rng st) (nodes st) l Hwf Hl)
    as (t1 & g1 & leaf1 & Hexp1 & Hwf1 & Hleaf1 & _).
  rewrite Hexp in Hexp1. injection Hexp1 as <- <- <-.
  destruct (backpropogation_walk (length t) t leaf score
              (wf_parents_before t Hwf1) Hleaf1 Hleaf1)
    as (t2 & Hback2 & Hlen2 & _).
  rewrite Hback in Hback2. injection Hback2 as <-.
  cbn [nodes]. rewrite Hlen2.
  destruct (expand_cases pl (rng st) (nodes st) l nl Hnl)
    as [[_ He]|[[_ [_ He]]|[_ [front [rest [g2 [_ He]]]]]]];
    rewrite He in Hexp; injection Hexp as <- _ _.
  - lia.
  - rewrite length_set_node. lia.
  - rewrite length_set_node, length_app.
    destruct (new_nodes_legal l (state nl) (to_move nl)) as [Hlen _].
    rewrite <- Hlen. unfold legal_cells.
    pose proof (filter_length_all _
                  (fun i => match apply_place
                                    {| position := i; piece := to_move nl |}
                                    (state nl) with
                            | Some _ => true
                            | None => false
                            end) (seq 0 cells)) as Hle.
    rewrite length_seq in Hle. lia.
Qed.

(** X14.  After [n] turns of the loop of [take_action] the search holds
    at least one node and at most [1 + n * cells], [cells] being the
    number of cells of the board; and [selection(root)] on these nodes
    returns a leaf, which has no children. *)
Theorem search_size (rollout_fuel : nat) (pl : player) (g : engine)
        (s : board) (n : nat) :
  empty_cells s < rollout_fuel ->
  exists st,
    iterations rollout_fuel pl n (search_init pl g s) = Some st
    /\ 1 <= length (nodes st) <= 1 + n * cells
    /\ exists l leaf,
         selection (length (nodes st)) pl (nodes st) 0 = Some l
         /\ nth_error (nodes st) l = Some leaf
         /\ isleaf leaf = true /\ childrens leaf = [].
Proof.
  intros Hfuel.
  assert (Hsize : forall k st,
             search_inv (empty_cells s) st ->
             forall st',
               iterations rollout_fuel pl k st = Some st' ->
               length (nodes st') <= length (nodes st) + k * cells).
  { induction k as [|k IH]; intros st Hinv st' Hrun; cbn [iterations] in Hrun.
    - injection Hrun as <-. lia.
    - destruct (iteration_inv rollout_fuel (empty_cells s) pl st Hinv Hfuel)
        as (st1 & Hit & Hinv1 & _).
      rewrite Hit in Hrun.
      pose proof (iteration_size _ _ _ _ (proj1 Hinv) Hit) as H1.
      pose proof (IH st1 Hinv1 st' Hrun) as H2. cbn [Nat.mul]. lia. }
  destruct (search_run rollout_fuel pl g s n Hfuel)
    as (st & Hrun & Hinv & _ & [[_ Hgame] _]).
  exists st. split; [assumption|].
  pose proof (Hsize n _ (search_init_inv pl g s) st Hrun) as Hle.
  cbn [search_init nodes length] in Hle.
  destruct Hinv as [Hwf _].
  assert (Hpos : 0 < length (nodes st)).
  { destruct Hwf as [Hne _]. destruct (nodes st); [now elim Hne|cbn; lia]. }
  split; [lia|].
  destruct (selection_returns (length (nodes st)) pl (nodes st) 0 Hwf Hpos)
    as [l [Hsel _]]; [lia|].
  destruct (selection_leaf _ _ _ _ _ Hsel) as [leaf [Hleaf Hisleaf]].
  exists l, leaf. repeat split; auto.
  apply (gn_leaf _ _ _ (Hgame l leaf Hleaf) Hisleaf).
Qed.

End SizeTheorems.

(** ** The child with the best score *)

Section BestIndexProofs.

Context {board : Type} {F : Rounding}.

#[local] Abbreviation tree := (@tree board).

Lemma best_index_from_cases (pl : player) (t : tree) (cs : list nat) :
  (forall c child,
      In c cs -> nth_error t c = Some child ->
      to_float (best_child pl t child) = best_child pl t child) ->
  forall (i : nat) (best : R) (best_index : nat),
    (best_index_from pl t cs i best best_index = best_index
     /\ forall c child,
          In c cs -> nth_error t c = Some child ->
          (best_child pl t child <= best)%R)
    \/ exists k c child,
         nth_error cs k = Some c /\ nth_error t c = Some child
         /\ best_index_from pl t cs i best best_index = i + k
         /\ (best < best_child pl t child)%R
         /\ forall j c' child',
              nth_error cs j = Some c' -> nth_error t c' = Some child' ->
              (best_child pl t child' <= best_child pl t child)%R
              /\ (j < k -> (best_child pl t child' < best_child pl t child)%R).
Proof.
  induction cs as [|c cs IH]; intros Hexact i best bi.
  - left. split; [reflexivity|]. intros c child [].
  - assert (Hexact' : forall c' child,
               In c' cs -> nth_error t c' = Some child ->
               to_float (best_child pl t child) = best_child pl t child)
      by (intros c' child Hin; apply Hexact; now right).
    cbn [best_index_from].
    destruct (nth_error t c) as [child|] eqn:Hc.
    + destruct (Rlt_dec best (best_child pl t child)) as [Hlt|Hge].
      * rewrite (Hexact c child (or_introl eq_refl) Hc).
        destruct (IH Hexact' (S i) (best_child pl t child) i)
          as [[Hkeep Hle]|(k & c2 & child2 & Hk & Hc2 & Hres & Hlt2 & Hall)].
        -- right. exists 0, c, child. rewrite Hkeep, Nat.add_0_r.
           repeat split; auto.
           ++ destruct j as [|j]; cbn in H.
              ** injection H as <-. rewrite Hc in H0. injection H0 as <-. lra.
              ** apply (Hle c' child'); [|assumption].
                 now apply nth_error_In in H.
           ++ intros Hj. lia.
        -- right. exists (S k), c2, child2. rewrite Hres.
           split; [exact Hk|]. split; [assumption|].
           split; [lia|]. split; [lra|].
           intros j c' child' Hj Hchild'. destruct j as [|j]; cbn in Hj.
           ++ injection Hj as <-. rewrite Hc in Hchild'. injection Hchild' as <-.
              split; [lra|intros _; lra].
           ++ destruct (Hall j c' child' Hj Hchild') as [H1 H2].
              split; [assumption|]. intros Hlt'. apply H2. lia.
      * destruct (IH Hexact' (S i) best bi)
          as [[Hkeep Hle]|(k & c2 & child2 & Hk & Hc2 & Hres & Hlt2 & Hall)].
        -- left. split; [assumption|]. intros c' child' [<-|Hin] Hchild'.
           ++ rewrite Hc in Hchild'. injection Hchild' as <-. lra.
           ++ now apply (Hle c' child').
        -- right. exists (S k), c2, child2. rewrite Hres.
           split; [exact Hk|]. split; [assumption|].
           split; [lia|]. split; [assumption|].
           intros j c' child' Hj Hchild'. destruct j as [|j]; cbn in Hj.
           ++ injection Hj as <-. rewrite Hc in Hchild'. injection Hchild' as <-.
              split; [lra|intros _; lra].
           ++ destruct (Hall j c' child' Hj Hchild') as [H1 H2].
              split; [assumption|]. intros Hlt'. apply H2. lia.
    + destruct (IH Hexact' (S i) best bi)
        as [[Hkeep Hle]|(k & c2 & child2 & Hk & Hc2 & Hres & Hlt2 & Hall)].
      * left. split; [assumption|]. intros c' child' [<-|Hin] Hchild'.
        -- rewrite Hc in Hchild'. discriminate.
        -- now apply (Hle c' child').
      * right. exists (S k), c2, child2. rewrite Hres.
        split; [exact Hk|]. split; [assumption|].
        split; [lia|]. split; [assumption|].
        intros j c' child' Hj Hchild'. destruct j as [|j]; cbn in Hj.
        -- injection Hj as <-. rewrite Hc in Hchild'. discriminate.
        -- destruct (Hall j c' child' Hj Hchild') as [H1 H2].
           split; [assumption|]. intros Hlt'. apply H2. lia.
Qed.

(** X21.  The loop of [selection] over the children of a node, when
    storing a score in the [float best] does not change it: with no
    child of a score above 0 the index kept is 0; otherwise it is the
    index of the first of the children with the largest score. *)
Theorem best_index_first_max (pl : player) (t : tree) (cs : list nat) :
  (forall c child,
      In c cs -> nth_error t c = Some child ->
      to_float (best_child pl t child) = best_child pl t child) ->
  (best_index pl t cs = 0
   /\ forall c child,
        In c cs -> nth_error t c = Some child ->
        (best_child pl t child <= 0)%R)
  \/ exists c child,
       nth_error cs (best_index pl t cs) = Some c
       /\ nth_error t c = Some child
       /\ (0 < best_child pl t child)%R
       /\ forall j c' child',
            nth_error cs j = Some c' -> nth_error t c' = Some child' ->
            (best_child pl t child' <= best_child pl t child)%R
            /\ (j < best_index pl t cs ->
                (best_child pl t child' < best_child pl t child)%R).
Proof.
  intros Hexact. unfold best_index.
  destruct (best_index_from_cases pl t cs Hexact 0 0%R 0)
    as [[Hkeep Hle]|(k & c & child & Hk & Hc & Hres & Hlt & Hall)].
  - left. split; assumption.
  - right. exists c, child. rewrite Hres. cbn [Nat.add].
    repeat split; auto; apply (Hall j c' child'); assumption.
Qed.

End BestIndexProofs.

(** ** A concrete game: placing on the empty cells of a strip *)

Definition strip := list piece_type.

(** Put piece [p] on cell [i] when it is empty. *)
Fixpoint put (i : nat) (p : piece_type) (b : strip) : option strip :=
  match b, i with
  | [], _ => None
  | empty :: b, O => Some (p :: b)
  | _ :: _, O => None
  | c :: b, S i => option_map (cons c) (put i p b)
  end.

Definition strip_place (move : place) (b : strip) : option strip :=
  if piece_eqb (piece move) empty then None
  else put (position move) (piece move) b.

Definition strip_empty_cells (b : strip) : nat :=
  length (filter (fun c => piece_eqb c empty) b).

#[export] Instance strip_board : Board strip :=
  {| cells := 3; apply_place := strip_place |}.

Lemma put_fills (i : nat) (p : piece_type) (b b' : strip) :
  piece_eqb p empty = false -> put i p b = Some b' ->
  strip_empty_cells b' < strip_empty_cells b.
Proof.
  intros Hp. unfold strip_empty_cells.
  revert i b'. induction b as [| c b IH]; intros i b' H;
    [destruct i; discriminate |].
  destruct i as [| i].
  - destruct c; cbn in H; try discriminate. injection H as <-.
    cbn. rewrite Hp. cbn. lia.
  - cbn [put] in H.
    assert (Hrec : option_map (cons c) (put i p b) = Some b')
      by (destruct c; exact H).
    destruct (put i p b) as [b1 |] eqn:Eb; [| discriminate].
    injection Hrec as <-. specialize (IH i b1 Eb).
    cbn. destruct (piece_eqb c empty); cbn; lia.
Qed.

Lemma strip_place_fills (move : place) (b b' : strip) :
  strip_place move b = Some b' ->
  strip_empty_cells b' < strip_empty_cells b.
Proof.
  unfold strip_place. destruct (piece_eqb (piece move) empty) eqn:Ep;
    [discriminate |].
  now apply put_fills.
Qed.

#[export] Instance strip_filling : Filling strip :=
  {| empty_cells := strip_empty_cells; apply_place_fills := strip_place_fills |}.

(** An engine that reverses what it is given to shuffle. *)
Lemma rev_perm (A : Type) (g : unit) (l : list A) :
  Permutation (fst (rev l, g)) l.
Proof. cbn. apply Permutation_sym, Permutation_rev. Qed.

#[export] Instance rev_engine : Engine unit :=
  {| shuffle := fun A g l => (rev l, g); shuffle_perm := rev_perm |}.

(** Rounding that changes nothing. *)
Lemma exact_mono (x y : R) : (x <= y)%R -> (x <= y)%R.
Proof. auto. Qed.

Lemma exact_int (z : Z) : (Z.abs z <= 2 ^ 24)%Z -> IZR z = IZR z.
Proof. reflexivity. Qed.

#[export] Instance exact_rounding : Rounding :=
  {| to_float := fun x => x; to_float_mono := exact_mono;
     to_float_int := exact_int |}.

(** A clock that advances one second between two readings. *)
#[export] Instance second_clock : Clock :=
  {| clock := fun k => (Z.of_nat k * 1000000)%Z; CLOCKS_PER_SEC := 1000000%Z |}.

Definition black_player : player := {| who := black; opponent := white |}.
Definition black_role : String.string := String.append "black" String.EmptyString.

Definition strip0 : strip := [empty; empty; empty].
Definition strip_full : strip := [black; white; white].

(** A child that black moved into, visited once and won. *)
Definition won_child : @node strip :=
  {| parent := Some 0; childrens := []; wi := 1; si := 1; isleaf := true;
     state := [black; empty; empty]; self := black;
     move_placed := action_place {| position := 0; piece := black |};
     is_terminal := false |}.

(** A root with a visited child and an unvisited one. *)
Definition tree3 : @tree strip :=
  [ {| parent := None; childrens := [1; 2]; wi := 1; si := 1; isleaf := false;
       state := strip0; self := white; move_placed := action_default;
       is_terminal := false |};
    won_child;
    {| parent := Some 0; childrens := []; wi := 0; si := 0; isleaf := true;
       state := [empty; black; empty]; self := black;
       move_placed := action_place {| position := 1; piece := black |};
       is_terminal := false |} ].

(** A rollout from the empty strip with black to act: black takes cell
    2, white cell 1, black cell 0, and white cannot move. *)
Example rollout_strip0 :
  rollout 4 black_player tt (new_node None strip0 white)
          (space black_player) (myop_space black_player)
  = Some (1%Z, rev (space black_player), rev (myop_space black_player), tt).
Proof. reflexivity. Qed.

(** On a full strip the loop leaves at once: black, to act, has lost. *)
Example rollout_strip_full :
  rollout_loop 1 black_player (space black_player) (myop_space black_player)
               strip_full black
  = Some 0%Z.
Proof. reflexivity. Qed.

(** A walk from the unvisited child of [tree3] with a score of 1. *)
Example backpropogation_tree3 :
  option_map (map (fun n => (wi n, si n))) (backpropogation 3 tree3 (Some 2) 1)
  = Some [(2, 2); (1, 1); (1, 1)]%Z.
Proof. reflexivity. Qed.

Example best_move_tree3 :
  best_move tree3 = action_place {| position := 0; piece := black |}.
Proof. reflexivity. Qed.

Example expand_strip0 :
  option_map (fun r => map childrens (fst (fst r)))
             (expand black_player tt [new_node None strip0 white] 0)
  = Some [[3; 2; 1]; []; []; []].
Proof. reflexivity. Qed.

Lemma unvisited_child_first_witness : best_index black_player tree3 [1; 2] = 1.
Proof.
  refine (proj1 (proj2 (proj2 (proj2
    (unvisited_child_first black_role black_player tree3 0 _ 1 2 _ 0
       eq_refl eq_refl eq_refl _ eq_refl eq_refl eq_refl _))))).
  - intros c [<- | [<- | []]]; eexists; (split; [reflexivity |]).
    + right. unfold visited, int_max. cbn. lia.
    + left. reflexivity.
  - intros [| j] c child Hj Hc Hchild; [| lia].
    cbn in Hc. injection Hc as <-. cbn in Hchild. injection Hchild as <-.
    cbn. lia.
Defined.

(** C2, counterexample.  Black is the player and placed the move
    leading to [won_child], so white, the opponent, is to act there; the
    child has one visit and one win under a root visited once.  Its
    score is [wi/si + c*sqrt(ln(1)/1) = 1], not the
    [(1 - wi/si) + c*sqrt(ln(1)/1) = 0] of a child where the opponent is
    to act. *)
Lemma best_child_opponent_to_act :
  mcts_player black_role = Some black_player
  /\ to_move won_child = opponent black_player
  /\ best_child black_player tree3 won_child = 1%R
  /\ ((1 - IZR (wi won_child) / IZR (si won_child))
      + exploration_c
        * sqrt (ln (IZR (parent_si tree3 won_child)) / IZR (si won_child)))%R
     = 0%R.
Proof.
  assert (Hsqrt : sqrt (ln 1 / 1) = 0%R).
  { rewrite ln_1. unfold Rdiv. rewrite Rmult_0_l. apply sqrt_0. }
  split; [reflexivity |]. split; [reflexivity |].
  unfold best_child. cbn. rewrite Hsqrt. split; lra.
Qed.



Lemma rollout_terminates_witness :
  exists (score : Z) (ms' os' : list place) (g' : unit),
    rollout 4 black_player tt (new_node None strip0 white)
            (space black_player) (myop_space black_player)
    = Some (score, ms', os', g')
    /\ (score = 0 \/ score = 1)%Z.
Proof.
  apply (rollout_terminates 4 black_player tt (new_node None strip0 white)
           (space black_player) (myop_space black_player)).
  cbn. lia.
Defined.

(** *** The search on the strip *)

Lemma expand_allocates_witness :
  exists (t' : @tree strip) (leaf' : nat),
    expand black_player tt [new_node None strip0 white] 0 = Some (t', tt, leaf')
    /\ length t' = 4.
Proof.
  destruct (expand_allocates black_player tt [new_node None strip0 white] 0
              (new_node None strip0 white) eq_refl eq_refl)
    as (t' & g' & leaf' & n' & Hexp & Hlen & _).
  exists t', leaf'. destruct g'. split; [exact Hexp|exact Hlen].
Defined.

Lemma search_nodes_placed_witness :
  exists (st : @search strip unit) (root : @node strip),
    iterations 4 black_player 3 (search_init black_player tt strip0) = Some st
    /\ nth_error (nodes st) 0 = Some root /\ state root = strip0.
Proof.
  assert (Hfuel : empty_cells strip0 < 4) by (cbn; lia).
  destruct (search_nodes_placed 4 black_player tt strip0 3 Hfuel)
    as (st & Hrun & (root & Hroot & Hstate & _) & _).
  exists st, root. auto.
Defined.

Lemma search_children_legal_witness :
  exists st : @search strip unit,
    iterations 4 black_player 3 (search_init black_player tt strip0) = Some st
    /\ forall x m, nth_error (nodes st) x = Some m ->
                   isleaf m = true -> childrens m = [].
Proof.
  assert (Hfuel : empty_cells strip0 < 4) by (cbn; lia).
  destruct (search_children_legal 4 black_player tt strip0 3 Hfuel)
    as (st & Hrun & Hnodes).
  exists st. split; [assumption|]. intros x m Hm. apply (Hnodes x m Hm).
Defined.

Lemma search_visits_decrease_witness :
  exists st : @search strip unit,
    iterations 4 black_player 3 (search_init black_player tt strip0) = Some st
    /\ forall x m c child,
         nth_error (nodes st) x = Some m -> In c (childrens m) ->
         nth_error (nodes st) c = Some child -> (si child <= si m)%Z.
Proof.
  assert (Hfuel : empty_cells strip0 < 4) by (cbn; lia).
  assert (Hn : (Z.of_nat 3 <= int_max)%Z) by (unfold int_max; lia).
  destruct (search_visits_decrease 4 black_player tt strip0 3 Hfuel Hn)
    as (st & Hrun & Hnodes).
  exists st. split; [assumption|]. intros x m c child Hm Hc Hchild.
  apply (Hnodes x m c child Hm Hc Hchild).
Defined.

Lemma take_action_legal_witness :
  exists a : action, take_action 500 4 black_player tt strip0 = Some a.
Proof.
  assert (Hfuel : empty_cells strip0 < 4) by (cbn; lia).
  assert (Hnot : forall q, 1 <= q < 1 ->
                           expired (clock 0) (clock q) = false)
    by (intros q Hq; lia).
  assert (Hrole : mcts_player black_role = Some black_player) by reflexivity.
  assert (Hexp : expired (clock 0) (clock 1) = true) by reflexivity.
  destruct (take_action_legal black_role black_player tt strip0 4 1 500
              Hrole Hfuel (le_n 1) Hexp Hnot (le_n 500))
    as (a & Hact & _).
  now exists a.
Defined.

Lemma deletenode_once_witness :
  exists (st : @search strip unit) (deleted : list nat),
    iterations 4 black_player 3 (search_init black_player tt strip0) = Some st
    /\ deletenode (length (nodes st)) (nodes st) [] 0 = Some (0 :: deleted).
Proof.
  assert (Hfuel : empty_cells strip0 < 4) by (cbn; lia).
  destruct (deletenode_once 4 black_player tt strip0 3 Hfuel)
    as (st & deleted & Hrun & Hdel & _).
  exists st, deleted. auto.
Defined.

Lemma rollout_no_placement_witness :
  exists (ms' os' : list place),
    rollout 1 black_player tt (new_node None strip_full white)
            (space black_player) (myop_space black_player)
    = Some (0%Z, ms', os', tt).
Proof.
  assert (Hrole : mcts_player black_role = Some black_player) by reflexivity.
  assert (Hnone : forall i, i < cells ->
                    apply_place
                      {| position := i;
                         piece := to_move (new_node None strip_full white) |}
                      (state (new_node None strip_full white)) = None).
  { intros i Hi. cbn in Hi. destruct i as [|[|[|i]]]; try reflexivity. lia. }
  destruct (rollout_no_placement black_role black_player tt
              (new_node None strip_full white)
              (space black_player) (myop_space black_player) 0 Hrole
              (Permutation_refl _) (Permutation_refl _) Hnone)
    as (ms' & os' & g' & Hroll & _).
  exists ms', os'. destruct g'. exact Hroll.
Defined.

Lemma player_take_action_legal_witness :
  exists (a : action) (sp' : list place),
    player_take_action tt (space black_player) strip0 = (a, sp', tt).
Proof.
  destruct (player_take_action_legal black_player tt (space black_player) strip0
              (Permutation_refl _))
    as (a & sp' & g' & Hact & _).
  exists a, sp'. destruct g'. exact Hact.
Defined.

Lemma search_size_witness :
  exists st : @search strip unit,
    iterations 4 black_player 3 (search_init black_player tt strip0) = Some st
    /\ length (nodes st) <= 10.
Proof.
  assert (Hfuel : empty_cells strip0 < 4) by (cbn; lia).
  destruct (search_size 4 black_player tt strip0 3 Hfuel)
    as (st & Hrun & [_ Hle] & _).
  exists st. split; [assumption|exact Hle].
Defined.

Lemma best_index_first_max_witness :
  (best_index black_player tree3 [1; 2] = 0
   /\ forall c child,
        In c [1; 2] -> nth_error tree3 c = Some child ->
        (best_child black_player tree3 child <= 0)%R)
  \/ exists c child,
       nth_error [1; 2] (best_index black_player tree3 [1; 2]) = Some c
       /\ nth_error tree3 c = Some child
       /\ (0 < best_child black_player tree3 child)%R
       /\ forall j c' child',
            nth_error [1; 2] j = Some c' -> nth_error tree3 c' = Some child' ->
            (best_child black_player tree3 child'
             <= best_child black_player tree3 child)%R
            /\ (j < best_index black_player tree3 [1; 2] ->
                (best_child black_player tree3 child'
                 < best_child black_player tree3 child)%R).
Proof.
  apply (best_index_first_max black_player tree3 [1; 2]).
  intros c child _ _. reflexivity.
Defined.

End MCTS.

(** * Arguments, properties and constructors

    The class [agent] of both agent.h, [init_weights] of [tuple_player]
    and [weight_agent], and the constructor of [mcts_player]. *)

Module Agent.

Import Ascii String.

Local Open Scope string_scope.
Local Open Scope nat_scope.

(** ** Arguments and properties

    [std::string] is a string of 8-bit characters.  [std::map<key,
    value> meta] is read through [at], [find] and [operator[]] only, and
    is the function from a key to the value bound to it, if any. *)

(** [std::isspace] in the "C" locale, which [ss >> pair] skips and
    stops at: space, and the characters 9 to 13. *)
Definition is_space (c : ascii) : bool :=
  let n := nat_of_ascii c in
  (n =? 32) || ((9 <=? n) && (n <=? 13)).

(** The strings [ss >> pair] reads in turn from what is left of the
    stream, [pair] holding the characters of the current one. *)
Fixpoint words_from (pair : string) (s : string) : list string :=
  match s with
  | EmptyString =>
      match pair with EmptyString => [] | _ => [pair] end
  | String c s' =>
      if is_space c then
        match pair with
        | EmptyString => words_from EmptyString s'
        | _ => pair :: words_from EmptyString s'
        end
      else words_from (pair ++ String c EmptyString) s'
  end.

Definition words (s : string) : list string := words_from EmptyString s.

(** [pair.substr(0, pair.find('='))]: all of [pair] when it has no
    ['=']. *)
Fixpoint key_of (pair : string) : string :=
  match pair with
  | EmptyString => EmptyString
  | String c rest =>
      if Ascii.eqb c "=" then EmptyString else String c (key_of rest)
  end.

(** What follows the first ['='], if there is one. *)
Fixpoint after_eq (pair : string) : option string :=
  match pair with
  | EmptyString => None
  | String c rest => if Ascii.eqb c "=" then Some rest else after_eq rest
  end.

(** [pair.substr(pair.find('=') + 1)]: without ['='], [npos + 1] is 0
    and the value is all of [pair]. *)
Definition value_of (pair : string) : string :=
  match after_eq pair with
  | Some value => value
  | None => pair
  end.

Definition meta := string -> option string.

Definition meta_empty : meta := fun _ => None.

(** [meta[key] = { value }] *)
Definition meta_set (m : meta) (key value : string) : meta :=
  fun k => if String.eqb k key then Some value else m k.

(** [agent::agent(args)]: the map [meta] it leaves. *)
Definition agent (args : string) : meta :=
  fold_left (fun m pair => meta_set m (key_of pair) (value_of pair))
            (words ("name=unknown role=unknown " ++ args)) meta_empty.

(** [property(key)]: [None] when [meta.at] throws [out_of_range]. *)
Definition property (m : meta) (key : string) : option string := m key.

Definition notify (m : meta) (msg : string) : meta :=
  meta_set m (key_of msg) (value_of msg).

Definition name (m : meta) : option string := property m "name".
Definition role (m : meta) : option string := property m "role".

(** No character of [s] satisfies [p]. *)
Fixpoint none_of (p : ascii -> bool) (s : string) : bool :=
  match s with
  | EmptyString => true
  | String c s' => negb (p c) && none_of p s'
  end.

(** ** Sizes of the weight tables *)

(** [std::isdigit]: the characters 48 to 57.  On a [char] above 127
    the call is not defined; such a character is taken as no digit. *)
Definition is_digit (c : ascii) : bool :=
  let n := nat_of_ascii c in (48 <=? n) && (n <=? 57).

(** [for (char& ch : res) if (!std::isdigit(ch)) ch = ' ';] *)
Fixpoint blank_non_digits (res : string) : string :=
  match res with
  | EmptyString => EmptyString
  | String ch rest =>
      String (if is_digit ch then ch else " "%char) (blank_non_digits rest)
  end.

(** The number a string of digits stands for, after the digits that
    gave [acc]. *)
Fixpoint read_digits (s : string) (acc : N) : N :=
  match s with
  | EmptyString => acc
  | String c s' =>
      read_digits s' (10 * acc + N.of_nat (nat_of_ascii c - 48))%N
  end.

(** Largest [size_t], of 64 bits. *)
Definition size_max : N := (2 ^ 64 - 1)%N.

(** [for (size_t size; in >> size; net.emplace_back(size));] on the
    strings of digits left in the stream: a number above [size_max]
    makes [in >> size] fail and ends the loop.  A table is given by its
    size. *)
Fixpoint read_sizes (tokens : list string) (net : list N) : list N :=
  match tokens with
  | [] => net
  | token :: rest =>
      let size := read_digits token 0 in
      if (size <=? size_max)%N then read_sizes rest (net ++ [size])%list else net
  end.

(** [init_weights(info)] on the tables [net]. *)
Definition init_weights (info : string) (net : list N) : list N :=
  read_sizes (words (blank_non_digits info)) net.

(** ** The constructor of the MCTS player *)

(** The characters [name().find_first_of("[]():; ")] looks for. *)
Definition reserved (c : ascii) : bool :=
  existsb (Ascii.eqb c) (list_ascii_of_string "[]():; ").

(** What a constructor ends with: the player made, or the exception
    thrown. *)
Inductive made (A : Type) :=
| made_ok (a : A)
| invalid_seed
| out_of_range
| invalid_name (name : string)
| invalid_role (role : string).

Arguments made_ok {A} a.
Arguments invalid_seed {A}.
Arguments out_of_range {A}.
Arguments invalid_name {A} name.
Arguments invalid_role {A} role.

Section Constructors.

(** Whether [int(meta["seed"])], that is [int(std::stod(value))],
    returns: [std::stod] throws on a string that is no number. *)
Context (seed_converts : string -> bool).

(** [random_agent::random_agent(args)]: the map [meta], the engine it
    seeds being left out. *)
Definition random_agent (args : string) : made meta :=
  let m := agent args in
  match m "seed" with
  | Some value => if seed_converts value then made_ok m else invalid_seed
  | None => made_ok m
  end.

(** [mcts_player::mcts_player(args)]: [who] and [opponent]. *)
Definition mcts_player_of_args (args : string) : made MCTS.player :=
  match random_agent ("name=random role=unknown " ++ args) with
  | made_ok m =>
      match name m, role m with
      | Some nm, Some rl =>
          if negb (none_of reserved nm) then invalid_name nm
          else
            match MCTS.mcts_player rl with
            | Some pl => made_ok pl
            | None => invalid_role rl
            end
      | _, _ => out_of_range
      end
  | invalid_seed => invalid_seed
  | out_of_range => out_of_range
  | invalid_name nm => invalid_name nm
  | invalid_role rl => invalid_role rl
  end.

End Constructors.

(** ** Definitions used in the statements *)

(** The character ['=']. *)
Definition is_eq (c : ascii) : bool := Ascii.eqb c "=".

(** A key and a value as one argument, [key=value]. *)
Definition pair_of (kv : string * string) : string :=
  fst kv ++ "=" ++ snd kv.

(** A key free of blanks and of ['='], and a value free of blanks. *)
Definition clean (kv : string * string) : bool :=
  none_of is_space (fst kv) && none_of is_eq (fst kv)
  && none_of is_space (snd kv).

(** The value the last pair with key [key] gives it. *)
Fixpoint last_value (key : string) (kvs : list (string * string))
  : option string :=
  match kvs with
  | [] => None
  | (k, v) :: kvs =>
      match last_value key kvs with
      | Some v' => Some v'
      | None => if String.eqb key k then Some v else None
      end
  end.

(** The decimal numeral of a number. *)
Definition decimal (n : N) : string :=
  DecimalString.NilZero.string_of_uint (N.to_uint n).

(** The value an argument list gives a key, [default] without one. *)
Definition value_or (default key : string) (kvs : list (string * string))
  : string :=
  match last_value key kvs with
  | Some v => v
  | None => default
  end.

(** ** Reading the arguments back *)

Lemma words_from_token (w : string) (pair rest : string) :
  none_of is_space w = true ->
  words_from pair (w ++ String " " rest)
  = match pair ++ w with
    | EmptyString => words rest
    | _ => (pair ++ w) :: words rest
    end.
Proof.
  revert pair. induction w as [|c w IH]; intros pair Hw.
  - cbn. replace (pair ++ EmptyString) with pair; [reflexivity|].
    clear. induction pair as [|c p IHp]; cbn; [reflexivity|now rewrite <- IHp].
  - cbn [none_of] in Hw. apply andb_true_iff in Hw. destruct Hw as [Hc Hw].
    apply negb_true_iff in Hc. cbn [append words_from]. rewrite Hc.
    rewrite (IH _ Hw).
    replace ((pair ++ String c EmptyString) ++ w) with (pair ++ String c w);
      [reflexivity|].
    clear. induction pair as [|d p IHp]; cbn; [reflexivity|now rewrite IHp].
Qed.

Lemma words_from_last (w : string) (pair : string) :
  none_of is_space w = true ->
  words_from pair w
  = match pair ++ w with
    | EmptyString => []
    | _ => [pair ++ w]
    end.
Proof.
  revert pair. induction w as [|c w IH]; intros pair Hw.
  - cbn. replace (pair ++ EmptyString) with pair; [reflexivity|].
    clear. induction pair as [|c p IHp]; cbn; [reflexivity|now rewrite <- IHp].
  - cbn [none_of] in Hw. apply andb_true_iff in Hw. destruct Hw as [Hc Hw].
    apply negb_true_iff in Hc. cbn [words_from]. rewrite Hc.
    rewrite (IH _ Hw).
    replace ((pair ++ String c EmptyString) ++ w) with (pair ++ String c w);
      [reflexivity|].
    clear. induction pair as [|d p IHp]; cbn; [reflexivity|now rewrite IHp].
Qed.

(** Strings without blanks, none of them empty, joined by single
    spaces, are read back one by one. *)
Lemma words_concat (ws : list string) :
  Forall (fun w => none_of is_space w = true /\ w <> EmptyString) ws ->
  words (concat " " ws) = ws.
Proof.
  induction 1 as [|w ws [Hw Hne] Hws IH]; [reflexivity|].
  cbn [concat]. destruct ws as [|w' ws].
  - unfold words. rewrite (words_from_last w EmptyString Hw). cbn [append].
    destruct w; [now elim Hne|reflexivity].
  - change (w ++ " " ++ concat " " (w' :: ws))
      with (w ++ String " " (concat " " (w' :: ws))).
    unfold words at 1. rewrite (words_from_token w EmptyString _ Hw).
    cbn [append]. rewrite IH. destruct w; [now elim Hne|reflexivity].
Qed.

Lemma none_of_app (p : ascii -> bool) (s s' : string) :
  none_of p (s ++ s') = none_of p s && none_of p s'.
Proof.
  induction s as [|c s IH]; cbn; [reflexivity|].
  now rewrite IH, andb_assoc.
Qed.

Lemma key_of_pair (k v : string) :
  none_of is_eq k = true -> key_of (k ++ "=" ++ v) = k.
Proof.
  induction k as [|c k IH]; intros Hk; [reflexivity|].
  cbn [none_of] in Hk. apply andb_true_iff in Hk. destruct Hk as [Hc Hk].
  apply negb_true_iff in Hc. unfold is_eq in Hc.
  cbn [append key_of]. rewrite Hc. f_equal. now apply IH.
Qed.

Lemma value_of_pair (k v : string) :
  none_of is_eq k = true -> value_of (k ++ "=" ++ v) = v.
Proof.
  intros Hk. unfold value_of.
  assert (H : after_eq (k ++ "=" ++ v) = Some v).
  { induction k as [|c k IH]; [reflexivity|].
    cbn [none_of] in Hk. apply andb_true_iff in Hk. destruct Hk as [Hc Hk].
    apply negb_true_iff in Hc. unfold is_eq in Hc.
    cbn [append after_eq]. rewrite Hc. now apply IH. }
  now rewrite H.
Qed.

(** A string without ['='] is its own key and its own value. *)
Lemma key_value_of_plain (s : string) :
  none_of is_eq s = true -> key_of s = s /\ value_of s = s.
Proof.
  intros Hs. unfold value_of.
  assert (H : key_of s = s /\ after_eq s = None).
  { induction s as [|c s IH]; [split; reflexivity|].
    cbn [none_of] in Hs. apply andb_true_iff in Hs. destruct Hs as [Hc Hs].
    apply negb_true_iff in Hc. unfold is_eq in Hc.
    cbn [key_of after_eq]. rewrite Hc. destruct (IH Hs) as [-> ->]. auto. }
  destruct H as [-> ->]. auto.
Qed.

Lemma fold_meta_set (kvs : list (string * string)) (m : meta) (key : string) :
  Forall (fun kv => clean kv = true) kvs ->
  fold_left (fun m pair => meta_set m (key_of pair) (value_of pair))
            (map pair_of kvs) m key
  = match last_value key kvs with
    | Some v => Some v
    | None => m key
    end.
Proof.
  intros Hclean. revert m.
  induction Hclean as [|[k v] kvs Hkv _ IH]; intros m; [reflexivity|].
  cbn [map fold_left last_value]. rewrite IH.
  destruct (last_value key kvs); [reflexivity|].
  unfold clean in Hkv. cbn [fst snd] in Hkv.
  apply andb_true_iff in Hkv. destruct Hkv as [Hkv _].
  apply andb_true_iff in Hkv. destruct Hkv as [_ Hk].
  unfold pair_of. cbn [fst snd].
  rewrite (key_of_pair k v Hk), (value_of_pair k v Hk).
  unfold meta_set. destruct (String.eqb key k); reflexivity.
Qed.

Lemma clean_pair (kv : string * string) :
  clean kv = true ->
  none_of is_space (pair_of kv) = true /\ pair_of kv <> EmptyString.
Proof.
  unfold clean, pair_of. destruct kv as [k v]. cbn [fst snd]. intros H.
  apply andb_true_iff in H. destruct H as [H Hv].
  apply andb_true_iff in H. destruct H as [Hk _]. split.
  - rewrite none_of_app, Hk. cbn. exact Hv.
  - destruct k; discriminate.
Qed.

(** X15.  [agent::agent(args)] on arguments [key=value] joined by single
    spaces, the keys free of blanks and of ['='] and the values free of
    blanks: [property(key)] is the value of the last argument with that
    key, after [name=unknown] and [role=unknown] put in front, and it
    throws when no argument has the key. *)
Theorem agent_property (kvs : list (string * string)) (key : string) :
  Forall (fun kv => clean kv = true) kvs ->
  property (agent (concat " " (map pair_of kvs))) key
  = last_value key (("name", "unknown") :: ("role", "unknown") :: kvs).
Proof.
  intros Hclean. unfold property, agent.
  assert (Hwords : words ("name=unknown role=unknown "
                          ++ concat " " (map pair_of kvs))
                   = map pair_of
                         (("name", "unknown") :: ("role", "unknown") :: kvs)).
  { change (words ("name=unknown role=unknown "
                   ++ concat " " (map pair_of kvs)))
      with (words_from EmptyString
              ("name=unknown" ++ String " "
                 ("role=unknown" ++ String " " (concat " " (map pair_of kvs))))).
    rewrite (words_from_token "name=unknown" EmptyString _ eq_refl).
    unfold words.
    rewrite (words_from_token "role=unknown" EmptyString _ eq_refl).
    cbn [append map]. f_equal. f_equal.
    apply words_concat. apply Forall_map.
    apply (Forall_impl _ clean_pair Hclean). }
  rewrite Hwords.
  rewrite (fold_meta_set _ meta_empty key);
    [|repeat constructor; assumption].
  destruct (last_value key _); reflexivity.
Qed.

(** X16.  [notify(msg)] for [msg] of the form [key=value], the key free
    of ['=']: [property(key)] is then the value, whatever characters it
    has, and every other key keeps what it had.  A message without
    ['='] is bound to itself. *)
Theorem notify_property (m : meta) :
  (forall k v key,
      none_of is_eq k = true ->
      property (notify m (k ++ "=" ++ v)) key
      = if String.eqb key k then Some v else property m key)
  /\ forall msg key,
       none_of is_eq msg = true ->
       property (notify m msg) key
       = if String.eqb key msg then Some msg else property m key.
Proof.
  split.
  - intros k v key Hk. unfold property, notify.
    now rewrite (key_of_pair k v Hk), (value_of_pair k v Hk).
  - intros msg key Hmsg. unfold property, notify.
    destruct (key_value_of_plain msg Hmsg) as [-> ->]. reflexivity.
Qed.

(** ** Reading the sizes back *)

Lemma read_digits_acc (d : Decimal.uint) (acc : positive) :
  read_digits (DecimalString.NilEmpty.string_of_uint d) (N.pos acc)
  = N.pos (Pos.of_uint_acc d acc).
Proof.
  revert acc. induction d as [|d IH|d IH|d IH|d IH|d IH|d IH|d IH|d IH|d IH|d IH];
    intros acc; [reflexivity|..];
    cbn [DecimalString.NilEmpty.string_of_uint read_digits Pos.of_uint_acc];
    rewrite <- IH; f_equal;
    match goal with
    | |- context [N.of_nat ?n] =>
        let v := eval vm_compute in (N.of_nat n) in
        change (N.of_nat n) with v
    end; lia.
Qed.

Lemma read_digits_uint (d : Decimal.uint) :
  read_digits (DecimalString.NilEmpty.string_of_uint d) 0 = N.of_uint d.
Proof.
  unfold N.of_uint.
  induction d as [|d IH|d IH|d IH|d IH|d IH|d IH|d IH|d IH|d IH|d IH];
    [reflexivity|exact IH|..];
    cbn [DecimalString.NilEmpty.string_of_uint read_digits Pos.of_uint];
    apply read_digits_acc.
Qed.

Lemma digits_uint (d : Decimal.uint) :
  none_of (fun c => negb (is_digit c))
          (DecimalString.NilEmpty.string_of_uint d) = true.
Proof.
  induction d; cbn [DecimalString.NilEmpty.string_of_uint none_of];
    [reflexivity|..]; rewrite IHd; reflexivity.
Qed.

Lemma decimal_uint (n : N) :
  decimal n = DecimalString.NilEmpty.string_of_uint (N.to_uint n)
  /\ decimal n <> EmptyString.
Proof.
  unfold decimal. destruct n as [|p]; [split; [reflexivity|discriminate]|].
  cbn [N.to_uint].
  pose proof (DecimalPos.Unsigned.to_uint_nonnil p) as Hnil.
  destruct (Pos.to_uint p); try (now elim Hnil); split;
    try reflexivity; discriminate.
Qed.

Lemma read_decimal (n : N) : read_digits (decimal n) 0 = n.
Proof.
  rewrite (proj1 (decimal_uint n)), read_digits_uint.
  apply DecimalN.Unsigned.of_to.
Qed.

Lemma decimal_digits (n : N) :
  none_of (fun c => negb (is_digit c)) (decimal n) = true.
Proof. rewrite (proj1 (decimal_uint n)). apply digits_uint. Qed.

Lemma digits_no_space (s : string) :
  none_of (fun c => negb (is_digit c)) s = true -> none_of is_space s = true.
Proof.
  induction s as [|c s IH]; cbn [none_of]; [reflexivity|].
  intros H. apply andb_true_iff in H. destruct H as [Hc Hs].
  rewrite (IH Hs), andb_true_r.
  apply negb_true_iff in Hc. apply negb_false_iff in Hc.
  unfold is_digit, is_space in *. apply negb_true_iff.
  apply andb_true_iff in Hc. destruct Hc as [H1 H2].
  apply Nat.leb_le in H1, H2.
  apply orb_false_iff. split.
  - apply Nat.eqb_neq. lia.
  - apply andb_false_iff. right. apply Nat.leb_gt. lia.
Qed.

Lemma blank_digits (s rest : string) :
  none_of (fun c => negb (is_digit c)) s = true ->
  blank_non_digits (s ++ rest) = s ++ blank_non_digits rest.
Proof.
  induction s as [|c s IH]; cbn [none_of append blank_non_digits];
    [reflexivity|].
  intros H. apply andb_true_iff in H. destruct H as [Hc Hs].
  apply negb_true_iff, negb_false_iff in Hc. rewrite Hc. f_equal. now apply IH.
Qed.

Lemma blank_self (s : string) :
  none_of (fun c => negb (is_digit c)) s = true -> blank_non_digits s = s.
Proof.
  induction s as [|c s IH]; cbn [none_of blank_non_digits]; [reflexivity|].
  intros H. apply andb_true_iff in H. destruct H as [Hc Hs].
  apply negb_true_iff, negb_false_iff in Hc. rewrite Hc. f_equal. now apply IH.
Qed.

(** Numerals joined by commas become numerals joined by spaces. *)
Lemma blank_commas (ws : list string) :
  Forall (fun w => none_of (fun c => negb (is_digit c)) w = true) ws ->
  blank_non_digits (concat "," ws) = concat " " ws.
Proof.
  induction 1 as [|w ws Hw Hws IH]; [reflexivity|].
  cbn [concat]. destruct ws as [|w' ws].
  - now apply blank_self.
  - change (w ++ "," ++ concat "," (w' :: ws))
      with (w ++ String "," (concat "," (w' :: ws))).
    rewrite (blank_digits w _ Hw). cbn [blank_non_digits]. rewrite IH.
    reflexivity.
Qed.

Lemma read_sizes_decimal (ns : list N) (net : list N) :
  Forall (fun n => (n <= size_max)%N) ns ->
  read_sizes (map decimal ns) net = (net ++ ns)%list.
Proof.
  intros Hns. revert net.
  induction Hns as [|n ns Hn _ IH]; intros net; cbn [map read_sizes].
  - now rewrite app_nil_r.
  - rewrite read_decimal. apply N.leb_le in Hn. rewrite Hn, IH.
    now rewrite <- app_assoc.
Qed.

(** X17.  [init_weights] on the decimal numerals of sizes that fit
    [size_t], joined by commas, adds one table for every size, in
    order, with that size; a size that does not fit ends the reading
    there. *)
Theorem init_weights_sizes (ns : list N) (net : list N) :
  Forall (fun n => (n <= size_max)%N) ns ->
  init_weights (concat "," (map decimal ns)) net = (net ++ ns)%list
  /\ forall n more,
       (size_max < n)%N ->
       init_weights (concat "," (map decimal (ns ++ n :: more)%list)) net
       = (net ++ ns)%list.
Proof.
  intros Hns.
  assert (Hwords : forall ms,
             words (blank_non_digits (concat "," (map decimal ms)))
             = map decimal ms).
  { intros ms. rewrite blank_commas.
    - apply words_concat. apply Forall_map, Forall_forall. intros n _.
      split; [apply digits_no_space, decimal_digits|apply decimal_uint].
    - apply Forall_map, Forall_forall. intros n _. apply decimal_digits. }
  unfold init_weights. split.
  - rewrite Hwords. now apply read_sizes_decimal.
  - intros n more Hn. rewrite Hwords. rewrite map_app. cbn [map].
    clear Hwords. revert net.
    induction Hns as [|n' ns Hn' _ IH]; intros net; cbn [map app read_sizes].
    + rewrite read_decimal. apply N.leb_gt in Hn. rewrite Hn.
      now rewrite app_nil_r.
    + rewrite read_decimal. apply N.leb_le in Hn'. rewrite Hn', IH.
      now rewrite <- app_assoc.
Qed.

(** ** The sides of the player made *)

Section ConstructorProofs.

Context (seed_converts : string -> bool).

Lemma agent_prefixed (kvs : list (string * string)) (key : string) :
  Forall (fun kv => clean kv = true) kvs ->
  agent ("name=random role=unknown " ++ concat " " (map pair_of kvs)) key
  = last_value key (("name", "random") :: ("role", "unknown") :: kvs).
Proof.
  intros Hclean. unfold agent.
  assert (Hwords : words ("name=unknown role=unknown "
                          ++ "name=random role=unknown "
                          ++ concat " " (map pair_of kvs))
                   = map pair_of
                         (("name", "unknown") :: ("role", "unknown")
                          :: ("name", "random") :: ("role", "unknown") :: kvs)).
  { change (words ("name=unknown role=unknown "
                   ++ "name=random role=unknown "
                   ++ concat " " (map pair_of kvs)))
      with (words_from EmptyString
              ("name=unknown" ++ String " "
                 ("role=unknown" ++ String " "
                    ("name=random" ++ String " "
                       ("role=unknown" ++ String " "
                          (concat " " (map pair_of kvs))))))).
    rewrite (words_from_token "name=unknown" EmptyString _ eq_refl).
    unfold words.
    rewrite (words_from_token "role=unknown" EmptyString _ eq_refl).
    unfold words.
    rewrite (words_from_token "name=random" EmptyString _ eq_refl).
    unfold words.
    rewrite (words_from_token "role=unknown" EmptyString _ eq_refl).
    cbn [append map]. do 4 f_equal.
    apply words_concat. apply Forall_map.
    apply (Forall_impl _ clean_pair Hclean). }
  rewrite Hwords.
  rewrite (fold_meta_set _ meta_empty key);
    [|repeat constructor; assumption].
  cbn [last_value]. destruct (last_value key kvs); [reflexivity|].
  unfold meta_empty.
  destruct (String.eqb key "role"), (String.eqb key "name"); reflexivity.
Qed.

(** X18.  [mcts_player::mcts_player(args)] on arguments [key=value]
    joined by single spaces, none of them a seed: with [name] the value
    of the last argument for the name, [random] without one, and [role]
    that for the role, [unknown] without one, it throws for a name with
    one of the characters [[]():; ], else makes the player of black
    against white for the role [black], of white against black for the
    role [white], and throws for any other role. *)
Theorem mcts_player_of_args_sides (kvs : list (string * string)) :
  Forall (fun kv => clean kv = true) kvs ->
  last_value "seed" kvs = None ->
  let args := concat " " (map pair_of kvs) in
  let nm := value_or "random" "name" kvs in
  let rl := value_or "unknown" "role" kvs in
  (none_of reserved nm = false ->
   mcts_player_of_args seed_converts args = invalid_name nm)
  /\ (none_of reserved nm = true ->
      (rl = "black" ->
       mcts_player_of_args seed_converts args
       = made_ok {| MCTS.who := MCTS.black; MCTS.opponent := MCTS.white |})
      /\ (rl = "white" ->
          mcts_player_of_args seed_converts args
          = made_ok {| MCTS.who := MCTS.white; MCTS.opponent := MCTS.black |})
      /\ (rl <> "black" -> rl <> "white" ->
          mcts_player_of_args seed_converts args = invalid_role rl)).
Proof.
  intros Hclean Hseed args nm rl.
  assert (Hrun : mcts_player_of_args seed_converts args
                 = if negb (none_of reserved nm) then invalid_name nm
                   else match MCTS.mcts_player rl with
                        | Some pl => made_ok pl
                        | None => invalid_role rl
                        end).
  { assert (Hs : agent ("name=random role=unknown " ++ args) "seed" = None).
    { unfold args. rewrite (agent_prefixed kvs "seed" Hclean).
      cbn [last_value]. rewrite Hseed. reflexivity. }
    assert (Hn : agent ("name=random role=unknown " ++ args) "name" = Some nm).
    { unfold args. rewrite (agent_prefixed kvs "name" Hclean).
      cbn [last_value]. unfold nm, value_or.
      destruct (last_value "name" kvs); reflexivity. }
    assert (Hr : agent ("name=random role=unknown " ++ args) "role" = Some rl).
    { unfold args. rewrite (agent_prefixed kvs "role" Hclean).
      cbn [last_value]. unfold rl, value_or.
      destruct (last_value "role" kvs); reflexivity. }
    unfold mcts_player_of_args, random_agent, name, role, property.
    rewrite Hs, Hn, Hr. reflexivity. }
  rewrite Hrun. split.
  - intros ->. reflexivity.
  - intros ->. cbn [negb]. unfold MCTS.mcts_player. repeat split.
    + intros ->. reflexivity.
    + intros ->. reflexivity.
    + intros Hb Hw.
      apply String.eqb_neq in Hb, Hw. rewrite Hb, Hw. reflexivity.
Qed.

End ConstructorProofs.

(** ** Examples *)

(** The arguments of [random_slider] come after the two defaults. *)
Example agent_slider :
  map (agent "name=slide role=slider seed=7") ["name"; "role"; "seed"; "load"]
  = [Some "slide"; Some "slider"; Some "7"; None].
Proof. reflexivity. Qed.

(** An argument without ['='] is its own value, and a value keeps the
    ['='] after the first. *)
Example agent_plain :
  map (agent "verbose  init=a=b") ["verbose"; "init"]
  = [Some "verbose"; Some "a=b"].
Proof. reflexivity. Qed.

Example init_weights_two :
  init_weights "65536,65536" [] = [65536; 65536]%N.
Proof. reflexivity. Qed.

(** A size of 2^64 ends the reading. *)
Example init_weights_overflow :
  init_weights "16,18446744073709551616,4" [] = [16]%N.
Proof. reflexivity. Qed.

Lemma agent_property_witness :
  property (agent "name=slide role=slider") "name" = Some "slide".
Proof.
  assert (Hclean : Forall (fun kv => clean kv = true)
                          [("name", "slide"); ("role", "slider")])
    by (repeat constructor).
  exact (agent_property [("name", "slide"); ("role", "slider")] "name" Hclean).
Defined.

Lemma notify_property_witness :
  property (notify meta_empty "seed=1=2") "seed" = Some "1=2".
Proof.
  exact (proj1 (notify_property meta_empty) "seed" "1=2" "seed" eq_refl).
Defined.

Lemma init_weights_sizes_witness :
  init_weights "65536,65536" [] = [65536; 65536]%N.
Proof.
  assert (Hfit : Forall (fun n => (n <= size_max)%N) [65536; 65536]%N)
    by (repeat constructor; unfold size_max; lia).
  exact (proj1 (init_weights_sizes [65536; 65536]%N [] Hfit)).
Defined.

Lemma mcts_player_of_args_sides_witness :
  mcts_player_of_args (fun _ => true) "role=black"
  = made_ok {| MCTS.who := MCTS.black; MCTS.opponent := MCTS.white |}.
Proof.
  assert (Hclean : Forall (fun kv => clean kv = true) [("role", "black")])
    by (repeat constructor).
  exact (proj1 (proj2 (mcts_player_of_args_sides (fun _ => true)
                         [("role", "black")] Hclean eq_refl) eq_refl) eq_refl).
Defined.

End Agent.

